(** * cairo_xpm: XPM3 export of a Cairo image surface

    A shallow embedding of [cairo_xpm.c] and the properties of its
    palette builder, symbol-width calculator, symbol encoder, size
    estimator, document writer, sink variants and command-line tool.

    Conventions of the embedding.
    - A C [int] is a [Z]; every arithmetic result stored in an [int] goes
      through [wrap32] (two's complement wrap-around).  Shifts and masks
      are [Z.shiftr] and [Z.land], which on negative numbers agree with
      the arithmetic shift and the two's complement mask of the C code.
    - The zero-initialised table [colors] (calloc of [MAX_COL + 1] ints)
      is a finite map read with default 0.
    - Text is a [string]; the buffer bookkeeping ([pos], [size]) of the
      writer is kept next to the bytes written so far.
    - The file variant and the tool act on their environment through
      [open], [write] and [close]: the answers of the first two are
      parameters, and the calls made are returned as a list. *)

From Stdlib Require Import ZArith Lia String Ascii List.
From stdpp Require Import base option list list_numbers sorting gmap sets strings.

Local Open Scope Z_scope.

(** ** Constants and machine integers *)

(** [#define MAX_COL 0x1000000] *)
Definition MAX_COL : Z := 0x1000000.
(** [#define TRANS_THRESH 0x80] *)
Definition TRANS_THRESH : Z := 0x80.

Definition INT_MAX : Z := 2147483647.

(** The value an [int] holds after an arithmetic result [z]. *)
Definition wrap32 (z : Z) : Z := (z + 2 ^ 31) mod 2 ^ 32 - 2 ^ 31.

(** Conversion [int -> size_t] on an LP64 target. *)
Definition size_t_of_int (z : Z) : Z := z mod 2 ^ 64.

(** ** The image surface

    What the encoder gets from Cairo: width, height, stride and the
    buffer at [cairo_image_surface_get_data], here its length in bytes
    and the [int] stored at each byte offset.  The buffer begins at that
    pointer: an offset below 0 is outside it. *)
Record surface := {
  sfc_width : Z;
  sfc_height : Z;
  sfc_stride : Z;
  sfc_length : Z;
  sfc_data : Z → Z
}.

Definition in_int (z : Z) : bool := (- 2 ^ 31 <=? z) && (z <=? INT_MAX).

(** [cairo_image_surface_get_argb24_pixel]: the [int] loaded from
    [data + y * stride + x * 4]. *)
Definition cairo_image_surface_get_argb24_pixel (sfc : surface) (x y : Z) : Z :=
  sfc_data sfc (y * sfc_stride sfc + x * 4).

(** Whether that load is defined: the [int] products [y * stride] and
    [x * 4] do not overflow, the pointers [data + y * stride] and
    [data + y * stride + x * 4] stay within the buffer, and so do the
    four bytes loaded. *)
Definition argb24_pixel_defined (sfc : surface) (x y : Z) : bool :=
  in_int (y * sfc_stride sfc) && in_int (x * 4)
  && (0 <=? y * sfc_stride sfc) && (0 <=? y * sfc_stride sfc + x * 4)
  && (y * sfc_stride sfc + x * 4 + 4 <=? sfc_length sfc).

(** Pixels in the order of the two nested [for] loops (rows outermost). *)
Definition pixels (sfc : surface) : list Z :=
  y ← seqZ 0 (sfc_height sfc);
  x ← seqZ 0 (sfc_width sfc);
  [cairo_image_surface_get_argb24_pixel sfc x y].

(** ** Loops

    [for (i = lo; i < hi; i++) s = body(s, i);] *)
Definition for_loop {St : Type} (lo hi : Z) (body : St → Z → St) (s : St) : St :=
  snd (Z.iter (hi - lo) (λ st, (fst st + 1, body (snd st) (fst st))) (lo, s)).

(** A loop body that may leave the defined behaviour of the program;
    once it has, the rest of the loop is not described. *)
Definition guarded {St : Type} (body : St → Z → option St) (os : option St) (i : Z)
    : option St := s ← os; body s i.

(** ** Color of a pixel

    [if (((col >> 24) & 0xff) < TRANS_THRESH) col = MAX_COL;
     else col &= 0x00ffffff;]
    The same statement occurs in the counting loop and in the
    pixel-table loop. *)
Definition pixel_alpha (col : Z) : Z := Z.land (Z.shiftr col 24) 0xff.

Definition pixel_color (col : Z) : Z :=
  if pixel_alpha col <? TRANS_THRESH then MAX_COL else Z.land col 0x00ffffff.

(** ** Palette builder *)

Record palette := {
  colors : gmap Z Z;
  ncols : Z
}.

(** [colors[i]] of the calloc'ed table. *)
Definition colors_at (c : gmap Z Z) (i : Z) : Z := default 0 (c !! i).

Definition palette_init : palette := {| colors := ∅; ncols := 0 |}.

(** [if (!colors[col]) colors[col] = ++ncols;] *)
Definition palette_add (p : palette) (col : Z) : palette :=
  if colors_at (colors p) col =? 0 then
    let n := wrap32 (ncols p + 1) in
    {| colors := <[col := n]> (colors p); ncols := n |}
  else p.

(** Body of the counting loop for one pixel value. *)
Definition count_pixel (p : palette) (col : Z) : palette :=
  palette_add p (pixel_color col).

(** The palette that the counting loops over [y] and [x] build when
    every load is defined. *)
Definition count_colors (sfc : surface) : palette :=
  for_loop 0 (sfc_height sfc)
    (λ p y,
       for_loop 0 (sfc_width sfc)
         (λ p x, count_pixel p (cairo_image_surface_get_argb24_pixel sfc x y)) p)
    palette_init.

(** The counting loops as the encoder runs them: each pixel is loaded
    and then entered; the result is [None] when a load is not defined. *)
Definition count_step (sfc : surface) (y : Z) (p : palette) (x : Z) : option palette :=
  if argb24_pixel_defined sfc x y
  then Some (count_pixel p (cairo_image_surface_get_argb24_pixel sfc x y))
  else None.

Definition counting_pass (sfc : surface) : option palette :=
  for_loop 0 (sfc_height sfc)
    (guarded (λ p y, for_loop 0 (sfc_width sfc) (guarded (count_step sfc y)) (Some p)))
    (Some palette_init).

(** Every load of the counting loops is defined. *)
Definition readable (sfc : surface) : bool :=
  forallb (λ y, forallb (λ x, argb24_pixel_defined sfc x y) (seqZ 0 (sfc_width sfc)))
          (seqZ 0 (sfc_height sfc)).

(** ** Symbol width *)

(** [for (bpc = 0, n = ncols; n; n >>= 1, bpc++);] with an iteration
    budget: [None] when the budget is exhausted. *)
Fixpoint bpc_loop (fuel : nat) (n bpc : Z) : option Z :=
  match fuel with
  | O => None
  | S fuel' =>
      if n =? 0 then Some bpc
      else bpc_loop fuel' (Z.shiftr n 1) (wrap32 (bpc + 1))
  end.

(** [num_chars_per_pixel(unsigned ncols)]; the parameter is converted to
    the [int n]. *)
Definition num_chars_per_pixel (ncols : Z) : option Z :=
  bpc ← bpc_loop 64 (wrap32 ncols) 0;
  let n := Z.quot bpc 6 in
  Some (if n * 6 <? bpc then wrap32 (n + 1) else n).

(** ** Symbol encoder and number formatting *)

Definition LF : string := String "010"%char EmptyString.
Definition DQ : string := String "034"%char EmptyString.

(** [s[i]], with NUL outside the string. *)
Definition char_at (s : string) (i : Z) : ascii :=
  default "000"%char (String.get (Z.to_nat i) s).

Definition ctbl : string :=
  "ABCDEFGHIJKLMNOPQRSTUVWXYZabcdefghijklmnopqrstuvwxyz0123456789+/".

(** [for (; cpp; cpp--) *dst++ = ctbl[(pix >> ((cpp - 1) * 6)) & 0x3f];]
    The shift of the [int] is defined for a count from 0 to 31: the
    call is defined for [0 <= cpp <= 6] (for a negative [cpp] the first
    count is negative, for [cpp = 7] it is 36).  Within that range the
    counter runs over the naturals and [col_encode_base64] gives the
    string written; the callers test [col_encode_base64_defined]. *)
Definition col_encode_base64_defined (cpp : Z) : bool :=
  (0 <=? cpp) && (cpp <=? 6).

Fixpoint col_encode_base64_loop (pix : Z) (cpp : nat) : string :=
  match cpp with
  | O => EmptyString
  | S cpp' =>
      String (char_at ctbl (Z.land (Z.shiftr pix (Z.of_nat cpp' * 6)) 0x3f))
             (col_encode_base64_loop pix cpp')
  end.

Definition col_encode_base64 (pix cpp : Z) : string :=
  col_encode_base64_loop pix (Z.to_nat cpp).

Definition hex_digit (d : Z) : ascii := char_at "0123456789abcdef" d.

(** [snprintf(dst, 7, "%06x", c & 0xffffff)] *)
Definition col_encode_html (c : Z) : string :=
  let v := Z.land c 0xffffff in
  string_of_list_ascii
    ((λ k, hex_digit (Z.land (Z.shiftr v (4 * k)) 0xf)) <$> [5; 4; 3; 2; 1; 0]).

(** The decimal digits of [n >= 0], most significant first, at most
    [fuel] of them (an [int] has at most ten). *)
Fixpoint dec_digits (fuel : nat) (n : Z) (acc : string) : string :=
  match fuel with
  | O => acc
  | S fuel' =>
      let acc' := String (char_at "0123456789" (n mod 10)) acc in
      if n / 10 =? 0 then acc' else dec_digits fuel' (n / 10) acc'
  end.

(** The conversion [%d] of printf for an [int]. *)
Definition fmt_d (n : Z) : string :=
  if n <? 0 then String "-"%char (dec_digits 10 (- n) EmptyString)
  else dec_digits 10 n EmptyString.

(** ** Size estimate *)

(** [xpm_size]: the three [int] computations, returned as [size_t]. *)
Definition xpm_size (w h ncols cpp : Z) : Z :=
  let ctbls := wrap32 (wrap32 (cpp + 14) * ncols) in
  let ptbls := wrap32 (wrap32 (wrap32 (w * cpp) + 4) * h) in
  size_t_of_int (wrap32 (wrap32 (ctbls + ptbls) + 256)).

(** The same sum over the integers. *)
Definition xpm_size_exact (w h ncols cpp : Z) : Z :=
  (cpp + 14) * ncols + (w * cpp + 4) * h + 256.

(** ** Document writer *)

(** The output buffer [xbuf]: the bytes written so far, the write
    position [pos] and the remaining room [size]. *)
Record xbuf := {
  xb_data : string;
  xb_pos : Z;
  xb_size : Z
}.

(** Writing [text] at [xbuf + pos] and advancing the bookkeeping by
    [cur]: [pos += cur; size -= cur;].  The text and its NUL need
    [cur + 1 <= size]; the result is [None] when they do not fit. *)
Definition xb_advance (text : string) (cur : Z) (b : xbuf) : option xbuf :=
  if cur <? xb_size b then
    Some {| xb_data := xb_data b +:+ text;
            xb_pos := wrap32 (xb_pos b + cur);
            xb_size := wrap32 (xb_size b - cur) |}
  else None.

(** [cur = snprintf(xbuf + pos, size, ...); pos += cur; size -= cur;]
    With too little room snprintf truncates and the bookkeeping runs
    ahead of the buffer. *)
Definition xb_snprintf (s : string) (b : xbuf) : option xbuf :=
  xb_advance s (Z.of_nat (String.length s)) b.

(** [col_encode_base64(xbuf + pos, pix, cpp); pos += cpp; size -= cpp;]
    The encoder writes its [cpp + 1] bytes without looking at [size]. *)
Definition xb_encode (pix cpp : Z) (b : xbuf) : option xbuf :=
  if col_encode_base64_defined cpp
  then xb_advance (col_encode_base64 pix cpp) cpp b
  else None.

(** A quoted line of the array, after the separator of the line before. *)
Definition quoted_line (s : string) : string := "," +:+ LF +:+ DQ +:+ s +:+ DQ.

Definition header (w h ncols cpp : Z) : string :=
  "/* XPM */" +:+ LF +:+ "static char *xpm_c" +:+ fmt_d ncols +:+ "_[] = {" +:+ LF
  +:+ DQ +:+ fmt_d w +:+ " " +:+ fmt_d h +:+ " " +:+ fmt_d ncols +:+ " "
  +:+ fmt_d cpp +:+ DQ.

(** Text between the quotes of the color-table line of [colors[i]]. *)
Definition color_entry (c : gmap Z Z) (cpp i : Z) : string :=
  let cb := col_encode_base64 (wrap32 (colors_at c i - 1)) cpp in
  let ch := col_encode_html i in
  if i <? MAX_COL then cb +:+ " c #" +:+ ch else cb +:+ " c None".

(** Body of the color-table loop.  [cb] is a [char[5]] and receives
    [cpp + 1] bytes from [col_encode_base64]. *)
Definition write_color (c : gmap Z Z) (cpp : Z) (b : xbuf) (i : Z) : option xbuf :=
  if colors_at c i =? 0 then Some b
  else if 5 <? cpp + 1 then None
  else if negb (col_encode_base64_defined cpp) then None
  else xb_snprintf (quoted_line (color_entry c cpp i)) b.

Definition write_color_table (c : gmap Z Z) (cpp : Z) (b : xbuf) : option xbuf :=
  for_loop 0 (MAX_COL + 1) (guarded (write_color c cpp)) (Some b).

(** Body of the inner pixel-table loop. *)
Definition write_pixel (sfc : surface) (c : gmap Z Z) (cpp y : Z) (b : xbuf) (x : Z)
  : option xbuf :=
  let col := pixel_color (cairo_image_surface_get_argb24_pixel sfc x y) in
  xb_encode (wrap32 (colors_at c col - 1)) cpp b.

Definition write_row (sfc : surface) (c : gmap Z Z) (cpp : Z) (b : xbuf) (y : Z)
  : option xbuf :=
  b ← xb_snprintf ("," +:+ LF +:+ DQ) b;
  b ← for_loop 0 (sfc_width sfc) (guarded (write_pixel sfc c cpp y)) (Some b);
  xb_snprintf DQ b.

Definition write_pixel_table (sfc : surface) (c : gmap Z Z) (cpp : Z) (b : xbuf)
  : option xbuf :=
  for_loop 0 (sfc_height sfc) (guarded (write_row sfc c cpp)) (Some b).

Definition write_document (sfc : surface) (p : palette) (cpp xpmsize : Z)
  : option xbuf :=
  b ← xb_snprintf (header (sfc_width sfc) (sfc_height sfc) (ncols p) cpp)
        {| xb_data := EmptyString; xb_pos := 0; xb_size := xpmsize |};
  b ← write_color_table (colors p) cpp b;
  b ← write_pixel_table sfc (colors p) cpp b;
  xb_snprintf (LF +:+ "};" +:+ LF) b.

(** ** Entry points *)

Inductive cairo_status_t :=
| CAIRO_STATUS_SUCCESS
| CAIRO_STATUS_NO_MEMORY
| CAIRO_STATUS_INVALID_FORMAT
| CAIRO_STATUS_WRITE_ERROR
| CAIRO_STATUS_DEVICE_ERROR.

#[global] Instance cairo_status_eq_dec : EqDecision cairo_status_t.
Proof. solve_decision. Defined.

(** The surface handed to the encoder: an image surface of format ARGB32
    or RGB24, or any other surface together with the outcome of
    [cairo_surface_create_similar_image] and the repaint ([None] when the
    new surface is in an error state). *)
Inductive cairo_surface :=
| ImageSurface (sfc : surface)
| OtherSurface (converted : option surface).

(** The image surface the encoder works on: the input itself, or the
    converted surface. *)
Definition surface_of (input : cairo_surface) : option surface :=
  match input with
  | ImageSurface sfc => Some sfc
  | OtherSurface converted => converted
  end.

(** The allocator: whether [calloc] succeeds, and for which sizes
    [malloc] does. *)
Record allocator := {
  calloc_ok : bool;
  malloc_ok : Z → bool
}.

(** The caller's [*data] and [*len]. *)
Record out_params := {
  op_data : option string;
  op_len : Z
}.

(** [cairo_image_surface_write_to_xpm_mem].  [caller] holds what the
    caller had in [*data] and [*len]; the function begins with
    [*data = NULL; *len = 0;].  The result is [None] where the C program
    leaves its defined behaviour (a load of a pixel that is not defined,
    a write that does not fit its buffer, or a loop that does not end).
    The pixel-table loop repeats the loads of the counting loops. *)
Definition cairo_image_surface_write_to_xpm_mem
    (mem : allocator) (input : cairo_surface) (caller : out_params)
  : option (cairo_status_t * out_params) :=
  let out := {| op_data := None; op_len := op_len caller |} in
  let out := {| op_data := op_data out; op_len := 0 |} in
  match surface_of input with
  | None => Some (CAIRO_STATUS_INVALID_FORMAT, out)
  | Some sfc =>
      if negb (calloc_ok mem) then Some (CAIRO_STATUS_NO_MEMORY, out)
      else
        p ← counting_pass sfc;
        cpp ← num_chars_per_pixel (ncols p);
        let xpmsize :=
          wrap32 (xpm_size (sfc_width sfc) (sfc_height sfc) (ncols p) cpp) in
        if negb (malloc_ok mem (size_t_of_int xpmsize))
        then Some (CAIRO_STATUS_NO_MEMORY, out)
        else
          b ← write_document sfc p cpp xpmsize;
          Some (CAIRO_STATUS_SUCCESS,
                {| op_data := Some (xb_data b);
                   op_len := size_t_of_int (xb_pos b) |})
  end.

(** A stream writer with its closure: called with [data] and the
    [unsigned int length]. *)
Definition cairo_write_func_t : Type := option string → Z → cairo_status_t.

(** [cairo_image_surface_write_to_xpm_stream]: the status returned and
    the calls made to [write_func], in order. *)
Definition cairo_image_surface_write_to_xpm_stream
    (mem : allocator) (input : cairo_surface) (write_func : cairo_write_func_t)
  : option (cairo_status_t * list (option string * Z)) :=
  r ← cairo_image_surface_write_to_xpm_mem mem input
        {| op_data := None; op_len := 0 |};
  let e := fst r in
  let data := op_data (snd r) in
  let len := op_len (snd r) in
  if decide (e ≠ CAIRO_STATUS_SUCCESS) then Some (e, [])
  else
    let length := len mod 2 ^ 32 in
    Some (write_func data length, [(data, length)]).

(** ** File variant

    The environment of the file variant: what [open] and [write] answer.
    [ssize_t] and [long] are 64 bits wide, so that an [unsigned int] is
    converted to them unchanged. *)
Inductive open_flag := O_WRONLY | O_CREAT.

Definition S_IRUSR : Z := 256.
Definition S_IWUSR : Z := 128.
Definition S_IRGRP : Z := 32.
Definition S_IROTH : Z := 4.

Record posix := {
  (** [open(filename, flags, mode)]: a descriptor, or -1. *)
  sys_open : string → list open_flag → Z → Z;
  (** [write(fd, data, length)]: the number of bytes written, or -1. *)
  sys_write : Z → option string → Z → Z
}.

(** The system calls made, with their arguments. *)
Inductive syscall :=
| SysOpen (filename : string) (flags : list open_flag) (mode : Z)
| SysWrite (fd : Z) (data : option string) (length : Z)
| SysClose (fd : Z).

(** [cj_write]:
    [write((long) closure, data, length) < length ? WRITE_ERROR : SUCCESS]. *)
Definition cj_write (os : posix) (closure : Z) : cairo_write_func_t :=
  λ data length,
    if sys_write os closure data length <? length then CAIRO_STATUS_WRITE_ERROR
    else CAIRO_STATUS_SUCCESS.

(** [cairo_image_surface_write_to_xpm]: the status returned and the
    system calls made, in order. *)
Definition cairo_image_surface_write_to_xpm
    (os : posix) (mem : allocator) (input : cairo_surface) (filename : string)
  : option (cairo_status_t * list syscall) :=
  let flags := [O_WRONLY; O_CREAT] in
  let mode := Z.lor (Z.lor (Z.lor S_IRUSR S_IWUSR) S_IRGRP) S_IROTH in
  let outfile := sys_open os filename flags mode in
  if outfile =? -1 then
    Some (CAIRO_STATUS_DEVICE_ERROR, [SysOpen filename flags mode])
  else
    r ← cairo_image_surface_write_to_xpm_stream mem input (cj_write os outfile);
    let e := fst r in
    Some (e, SysOpen filename flags mode
             :: ((λ c, SysWrite outfile (fst c) (snd c)) <$> snd r)
             ++ [SysClose outfile]).

(** ** Command-line tool ([CAIRO_XPM_MAIN]) *)

(** What a run of the tool leaves behind. *)
Record run := {
  exit_code : Z;
  out_stdout : string;
  out_stderr : string;
  out_calls : list syscall
}.

Definition spaces (n : nat) : string := string_of_list_ascii (replicate n " "%char).

(** The conversion [%*s] of printf: [s] in a field of width [w], padded
    with spaces on the left, or on the right when [w] is negative. *)
Definition fmt_star_s (w : Z) (s : string) : string :=
  let pad := spaces (Z.to_nat (Z.abs w) - String.length s) in
  if w <? 0 then s +:+ pad else pad +:+ s.

Definition usage (argv0 : string) : string :=
  "usage: " +:+ argv0 +:+ " <input PNG file> [<output XPM filename>]" +:+ LF.

(** [main].  [argc] is the length of [argv]; [png] stands for
    [cairo_image_surface_create_from_png] and [locals] for what the
    uninitialised [data] and [len] hold.  The result is [None] where
    [argv[0]] is missing or printf is handed the null pointer that an
    encoder error leaves in [data]. *)
Definition main (os : posix) (mem : allocator) (png : string → cairo_surface)
    (locals : out_params) (argv : list string) : option run :=
  let argc := Z.of_nat (length argv) in
  if argc <? 2 then
    argv0 ← argv !! 0%nat;
    Some {| exit_code := 1; out_stdout := EmptyString;
            out_stderr := usage argv0; out_calls := [] |}
  else
    argv1 ← argv !! 1%nat;
    let sfc := png argv1 in
    if argc <? 3 then
      r ← cairo_image_surface_write_to_xpm_mem mem sfc locals;
      data ← op_data (snd r);
      let len := op_len (snd r) in
      Some {| exit_code := 0; out_stdout := fmt_star_s (wrap32 len) data;
              out_stderr := EmptyString; out_calls := [] |}
    else
      argv2 ← argv !! 2%nat;
      r ← cairo_image_surface_write_to_xpm os mem sfc argv2;
      Some {| exit_code := 0; out_stdout := EmptyString;
              out_stderr := EmptyString; out_calls := snd r |}.

(** Length of a text, as the [int] that snprintf returns. *)
Definition slen (s : string) : Z := Z.of_nat (String.length s).

(** ** The text of the document, piece by piece

    The pieces the writer appends, in order: they state what the loops of
    [write_document] produce. *)
Definition cat (l : list string) : string := foldr String.append EmptyString l.

(** The colors with an entry in the table, as the color-table loop meets
    them. *)
Definition color_keys (c : gmap Z Z) : list Z :=
  filter (λ i, colors_at c i ≠ 0) (seqZ 0 (MAX_COL + 1)).

(** 0-based palette index of the pixel at [(x, y)]. *)
Definition pixel_index (sfc : surface) (c : gmap Z Z) (x y : Z) : Z :=
  wrap32 (colors_at c (pixel_color (cairo_image_surface_get_argb24_pixel sfc x y)) - 1).

(** The symbols of row [y], one per pixel. *)
Definition row_symbols (sfc : surface) (c : gmap Z Z) (cpp y : Z) : list string :=
  (λ x, col_encode_base64 (pixel_index sfc c x y) cpp) <$> seqZ 0 (sfc_width sfc).

Definition color_lines (c : gmap Z Z) (cpp : Z) : list string :=
  color_entry c cpp <$> color_keys c.

Definition pixel_rows (sfc : surface) (c : gmap Z Z) (cpp : Z) : list string :=
  (λ y, cat (row_symbols sfc c cpp y)) <$> seqZ 0 (sfc_height sfc).

Definition document_text (sfc : surface) (p : palette) (cpp : Z) : string :=
  header (sfc_width sfc) (sfc_height sfc) (ncols p) cpp
  +:+ cat (quoted_line <$> color_lines (colors p) cpp)
  +:+ cat (quoted_line <$> pixel_rows sfc (colors p) cpp)
  +:+ LF +:+ "};" +:+ LF.

(** Appending pieces one [snprintf] at a time. *)
Definition xb_put_all (ts : list string) (b : xbuf) : option xbuf :=
  foldl (λ ob t, b ← ob; xb_snprintf t b) (Some b) ts.

(** The pieces of the whole document, one per write. *)
Definition row_pieces (sfc : surface) (c : gmap Z Z) (cpp y : Z) : list string :=
  ("," +:+ LF +:+ DQ) :: row_symbols sfc c cpp y ++ [DQ].

Definition document_pieces (sfc : surface) (p : palette) (cpp : Z) : list string :=
  header (sfc_width sfc) (sfc_height sfc) (ncols p) cpp
  :: (quoted_line <$> color_lines (colors p) cpp)
  ++ (seqZ 0 (sfc_height sfc) ≫= row_pieces sfc (colors p) cpp)
  ++ [LF +:+ "};" +:+ LF].

(** ** The palette after a sequence of colors

    [order] lists the distinct colors of [seen] by first occurrence; the
    table stores under each color its position in [order], counted from
    one. *)
Definition palette_inv (seen order : list Z) (p : palette) : Prop :=
  NoDup order
  ∧ (∀ k, k ∈ order ↔ k ∈ seen)
  ∧ ncols p = Z.of_nat (length order)
  ∧ (∀ k v, colors p !! k = Some v ↔
            ∃ i : nat, order !! i = Some k ∧ v = Z.of_nat i + 1)
  ∧ (∀ (i j : nat) ki kj,
       order !! i = Some ki → order !! j = Some kj → (i < j)%nat →
       ∃ n : nat, seen !! n = Some ki ∧ kj ∉ take (S n) seen).

(** ** Sample surfaces *)

Definition always_ok : allocator := {| calloc_ok := true; malloc_ok := λ _, true |}.


(** 1x1, opaque red. *)
Definition sfc_red : surface :=
  {| sfc_width := 1; sfc_height := 1; sfc_stride := 4; sfc_length := 4;
     sfc_data := λ _, 0xffff0000 |}.

(** 1x1, the same red with alpha 0x80. *)
Definition sfc_red_half : surface :=
  {| sfc_width := 1; sfc_height := 1; sfc_stride := 4; sfc_length := 4;
     sfc_data := λ _, 0x80ff0000 |}.

(** 2x1: opaque blue, then a pixel of alpha 0x10. *)
Definition sfc_blue_clear : surface :=
  {| sfc_width := 2; sfc_height := 1; sfc_stride := 8; sfc_length := 8;
     sfc_data := λ offset, if offset =? 0 then 0xff0000ff else 0x10123456 |}.

(** 2x1: two opaque colors, the larger RGB value first. *)
Definition sfc_swapped : surface :=
  {| sfc_width := 2; sfc_height := 1; sfc_stride := 8; sfc_length := 8;
     sfc_data := λ offset, if offset =? 0 then 0xff000002 else 0xff000001 |}.

(** No columns, two rows. *)
Definition sfc_empty_rows : surface :=
  {| sfc_width := 0; sfc_height := 2; sfc_stride := 0; sfc_length := 0;
     sfc_data := λ _, 0 |}.

(** One row of [n] opaque pixels of colors [0 .. n-1]. *)
Definition sfc_ramp (n : Z) : surface :=
  {| sfc_width := n; sfc_height := 1; sfc_stride := 4 * n; sfc_length := 4 * n;
     sfc_data := λ offset, 0xff000000 + offset / 4 |}.

(** 2x2, four different RGB values under a top byte of zero, as the
    pixels of an RGB24 surface can have it. *)
Definition sfc_rgb24 : surface :=
  {| sfc_width := 2; sfc_height := 2; sfc_stride := 8; sfc_length := 16;
     sfc_data := λ offset, 0x00102030 + offset / 4 |}.

(** 4096 x 4096, every opaque color once. *)
Definition sfc_full : surface :=
  {| sfc_width := 4096; sfc_height := 4096;
     sfc_stride := 16384; sfc_length := 67108864;
     sfc_data := λ offset, 0xff000000 + offset / 4 |}.

(** Values left in [*data] and [*len] by a caller. *)
Definition stale : out_params := {| op_data := Some "stale"; op_len := 5 |}.

(** The documents of three of the samples, as returned in [*data] and
    [*len]. *)
Definition blue_clear_out : out_params :=
  {| op_data := Some (header 2 1 2 1 +:+ quoted_line "A c #0000ff"
                      +:+ quoted_line "B c None" +:+ quoted_line "AB"
                      +:+ LF +:+ "};" +:+ LF);
     op_len := 83 |}.

Definition swapped_out : out_params :=
  {| op_data := Some (header 2 1 2 1 +:+ quoted_line "B c #000001"
                      +:+ quoted_line "A c #000002" +:+ quoted_line "AB"
                      +:+ LF +:+ "};" +:+ LF);
     op_len := 86 |}.

Definition empty_rows_out : out_params :=
  {| op_data := Some (header 0 2 0 0 +:+ quoted_line EmptyString
                      +:+ quoted_line EmptyString +:+ LF +:+ "};" +:+ LF);
     op_len := 58 |}.

(** An environment where every [open] gives descriptor 3 and every
    [write] stops one byte short. *)
Definition os_short : posix :=
  {| sys_open := λ _ _ _, 3; sys_write := λ _ _ length, length - 1 |}.

(** When two terms are compared, the text of a document is unfolded
    after the bookkeeping around it, and a loop after everything else:
    the color-table loop has 2^24 + 1 iterations. *)
#[global] Strategy 500 [document_text document_pieces].
#[global] Strategy 1000 [for_loop].

(** * Properties *)

(** ** Machine integers and loops *)

Lemma wrap32_id z : - 2 ^ 31 ≤ z < 2 ^ 31 → wrap32 z = z.
Proof. intros Hz. unfold wrap32. rewrite Z.mod_small; lia. Qed.

Lemma wrap32_range z : - 2 ^ 31 ≤ wrap32 z < 2 ^ 31.
Proof.
  unfold wrap32. pose proof (Z.mod_pos_bound (z + 2 ^ 31) (2 ^ 32)). lia.
Qed.

Lemma Z_iter_succ {A : Type} (f : A → A) n x :
  0 ≤ n → Z.iter (Z.succ n) f x = f (Z.iter n f x).
Proof.
  intros Hn. destruct n as [|q|q]; [done| |lia].
  unfold Z.succ; simpl. rewrite Pos.add_1_r. apply Pos.iter_succ.
Qed.

Lemma for_loop_foldl {St : Type} (body : St → Z → St) lo hi (s : St) :
  for_loop lo hi body s = foldl body s (seqZ lo (hi - lo)).
Proof.
  unfold for_loop. destruct (Z.le_gt_cases 0 (hi - lo)) as [Hn|Hn].
  - generalize dependent (hi - lo). intros n Hn.
    enough (Z.iter n (λ st, (fst st + 1, body (snd st) (fst st))) (lo, s)
            = (lo + n, foldl body s (seqZ lo n))) as -> by done.
    revert n Hn. apply natlike_ind.
    + simpl. by rewrite Z.add_0_r.
    + intros n Hn IH. rewrite Z_iter_succ by done. rewrite IH. simpl.
      replace (Z.succ n) with (Z.of_nat (S (Z.to_nat n))) by lia.
      rewrite seqZ_S, foldl_snoc. rewrite !Z2Nat.id by done.
      f_equal. lia.
  - rewrite seqZ_nil by lia. destruct (hi - lo); try lia. done.
Qed.

Lemma foldl_guarded_None {St : Type} (body : St → Z → option St) l :
  foldl (guarded body) None l = None.
Proof. induction l; simpl; auto. Qed.

(** ** Color of a pixel *)

Lemma pixel_color_opaque_range col :
  0 ≤ Z.land col 0x00ffffff < MAX_COL.
Proof.
  change 0x00ffffff with (Z.ones 24). rewrite Z.land_ones by lia.
  unfold MAX_COL. apply Z.mod_pos_bound. lia.
Qed.

Lemma pixel_color_range col : 0 ≤ pixel_color col ≤ MAX_COL.
Proof.
  unfold pixel_color. pose proof (pixel_color_opaque_range col).
  destruct (_ <? _); unfold MAX_COL in *; lia.
Qed.

(** C1.  The color of a pixel is the transparent key [MAX_COL] exactly
    when its alpha byte [(col >> 24) & 0xff] is below [0x80]; otherwise
    it is the pixel's low 24 bits, and never the transparent key.  Both
    passes use it: the counting loop enters the pixel under this color
    and the pixel-table loop encodes the index stored under it. *)
Theorem pixel_color_transparent_iff (sfc : surface) (c : gmap Z Z) (p : palette)
    (b : xbuf) (cpp x y : Z) :
  let col := cairo_image_surface_get_argb24_pixel sfc x y in
  (pixel_color col = MAX_COL ↔ Z.land (Z.shiftr col 24) 0xff < 0x80)
  ∧ (¬ Z.land (Z.shiftr col 24) 0xff < 0x80 →
     pixel_color col = Z.land col 0x00ffffff)
  ∧ count_pixel p col = palette_add p (pixel_color col)
  ∧ write_pixel sfc c cpp y b x
    = xb_encode (wrap32 (colors_at c (pixel_color col) - 1)) cpp b.
Proof.
  intros col. pose proof (pixel_color_opaque_range col) as Hr.
  unfold pixel_color, pixel_alpha, TRANS_THRESH.
  repeat split; try done.
  - destruct (Z.ltb_spec (Z.land (Z.shiftr col 24) 255) 128); [done|lia].
  - intros Hlt. by apply Z.ltb_lt in Hlt as ->.
  - intros Hge. destruct (Z.ltb_spec (Z.land (Z.shiftr col 24) 255) 128); [lia|done].
Qed.

(** ** Palette builder *)

Lemma count_colors_foldl sfc :
  count_colors sfc = foldl count_pixel palette_init (pixels sfc).
Proof.
  unfold count_colors, pixels. rewrite for_loop_foldl, Z.sub_0_r.
  generalize palette_init.
  induction (seqZ 0 (sfc_height sfc)) as [|y ys IH]; intros p; [done|].
  cbn [foldl mbind list_bind]. rewrite foldl_app, <-IH. f_equal.
  rewrite for_loop_foldl, Z.sub_0_r. clear. revert p.
  induction (seqZ 0 (sfc_width sfc)) as [|x xs IH]; intros p; [done|].
  cbn [foldl mbind list_bind app]. apply IH.
Qed.

Lemma count_colors_keys sfc :
  count_colors sfc = foldl palette_add palette_init (pixel_color <$> pixels sfc).
Proof. by rewrite count_colors_foldl, foldl_fmap. Qed.

Lemma length_pixels sfc :
  0 ≤ sfc_width sfc → 0 ≤ sfc_height sfc →
  Z.of_nat (length (pixels sfc)) = sfc_width sfc * sfc_height sfc.
Proof.
  intros HW HH. unfold pixels.
  assert (∀ ys : list Z,
    Z.of_nat (length (ys ≫= λ y, seqZ 0 (sfc_width sfc) ≫= λ x,
                 [cairo_image_surface_get_argb24_pixel sfc x y]))
    = sfc_width sfc * Z.of_nat (length ys)) as Hrows.
  { induction ys as [|y ys IH]; [simpl; lia|].
    cbn [mbind list_bind length]. rewrite length_app, Nat2Z.inj_add.
    fold (mbind (M:=list) (λ y, seqZ 0 (sfc_width sfc) ≫= λ x,
                 [cairo_image_surface_get_argb24_pixel sfc x y]) ys).
    rewrite IH.
    assert (∀ xs : list Z,
      length (xs ≫= λ x, [cairo_image_surface_get_argb24_pixel sfc x y])
      = length xs) as Hrow.
    { induction xs as [|x xs IHx]; [done|]. cbn [mbind list_bind length app].
      f_equal. apply IHx. }
    rewrite Hrow, length_seqZ. lia. }
  rewrite Hrows, length_seqZ. lia.
Qed.

Lemma NoDup_range_length (l : list Z) n :
  0 ≤ n → NoDup l → (∀ k, k ∈ l → 0 ≤ k < n) → Z.of_nat (length l) ≤ n.
Proof.
  intros Hn Hnd Hin.
  assert (l ⊆+ seqZ 0 n) as Hsub.
  { apply NoDup_submseteq; [done|]. intros k Hk. apply elem_of_seqZ.
    specialize (Hin k Hk). lia. }
  apply submseteq_length in Hsub. rewrite length_seqZ in Hsub. lia.
Qed.

Lemma first_occurrence (l : list Z) k :
  k ∈ l → ∃ n : nat, l !! n = Some k ∧ k ∉ take n l.
Proof.
  induction l as [|a l IH] using rev_ind; [by intros ?%elem_of_nil|].
  intros Hin. destruct (decide (k ∈ l)) as [Hl|Hl].
  - destruct (IH Hl) as (n & Hn & Hfirst). exists n.
    pose proof (lookup_lt_Some _ _ _ Hn).
    rewrite lookup_app_l, take_app_le by lia. done.
  - apply elem_of_app in Hin as [?|Hk%list_elem_of_singleton]; [done|subst a].
    exists (length l). rewrite take_app_length. split; [|done].
    by rewrite lookup_app_r, Nat.sub_diag.
Qed.

Lemma palette_inv_init : palette_inv [] [] palette_init.
Proof.
  unfold palette_inv. split_and!; try done.
  - constructor.
  - intros k v. simpl. rewrite lookup_empty. split; [done|].
    intros (i & Hi & _). by rewrite lookup_nil in Hi.
Qed.

Lemma palette_inv_lookup seen order p k :
  palette_inv seen order p →
  (colors_at (colors p) k ≠ 0 ↔ k ∈ seen)
  ∧ (k ∈ seen → ∃ i : nat, order !! i = Some k
                  ∧ colors_at (colors p) k = Z.of_nat i + 1).
Proof.
  intros (Hnd & Hel & Hn & Hmap & Hord). unfold colors_at. split; [split|].
  - destruct (colors p !! k) as [v|] eqn:Hk; [|done]. intros _.
    apply Hmap in Hk as (i & Hi & _). apply Hel. by eapply list_elem_of_lookup_2.
  - intros Hk%Hel. apply list_elem_of_lookup_1 in Hk as [i Hi].
    assert (colors p !! k = Some (Z.of_nat i + 1)) as -> by (apply Hmap; eauto).
    simpl. lia.
  - intros Hk%Hel. apply list_elem_of_lookup_1 in Hk as [i Hi]. exists i.
    assert (colors p !! k = Some (Z.of_nat i + 1)) as -> by (apply Hmap; eauto).
    done.
Qed.

Lemma palette_inv_size seen order p :
  palette_inv seen order p → Forall (λ k, 0 ≤ k ≤ MAX_COL) seen →
  Z.of_nat (length order) ≤ MAX_COL + 1.
Proof.
  intros (Hnd & Hel & _) Hrange. apply NoDup_range_length; [done..|].
  intros k Hk%Hel. rewrite Forall_forall in Hrange. specialize (Hrange k Hk). lia.
Qed.
Lemma palette_inv_step seen order p k :
  palette_inv seen order p → Forall (λ k, 0 ≤ k ≤ MAX_COL) seen →
  ∃ order', palette_inv (seen ++ [k]) order' (palette_add p k).
Proof.
  intros Hinv Hrange.
  pose proof (palette_inv_size _ _ _ Hinv Hrange) as Hsize.
  pose proof (palette_inv_lookup _ _ _ k Hinv) as [Hnz Hidx].
  destruct Hinv as (Hnd & Hel & Hn & Hmap & Hord).
  unfold palette_add. destruct (Z.eqb_spec (colors_at (colors p) k) 0) as [Hz|Hz].
  - (* a new color *)
    assert (k ∉ seen) as Hnew by (intros ?%Hnz; done).
    assert (k ∉ order) as Hnew' by (by rewrite Hel).
    assert (wrap32 (ncols p + 1) = Z.of_nat (length order) + 1) as Hw.
    { rewrite wrap32_id; unfold MAX_COL in *; lia. }
    exists (order ++ [k]). unfold palette_inv. cbn [colors ncols]. rewrite Hw.
    split_and!.
    + apply NoDup_app. split_and!; [done| |apply NoDup_singleton].
      intros x Hx ->%list_elem_of_singleton. done.
    + intros x. rewrite !elem_of_app, Hel. done.
    + rewrite length_app. simpl. lia.
    + intros x v. destruct (decide (x = k)) as [->|Hne].
      * rewrite lookup_insert_eq. split.
        -- intros [= <-]. exists (length order).
           by rewrite lookup_app_r, Nat.sub_diag.
        -- intros (i & [[Hlt Hi]|[-> _]]%lookup_snoc_Some & ->); [|done].
           by apply list_elem_of_lookup_2 in Hi.
      * rewrite lookup_insert_ne, Hmap by done. split.
        -- intros (i & Hi & ->). exists i. split; [|done].
           apply lookup_snoc_Some. left. split; [|done]. by eapply lookup_lt_Some.
        -- intros (i & [[Hlt Hi]|[_ ?]]%lookup_snoc_Some & ->); [|done]. eauto.
    + intros i j ki kj Hi Hj Hij.
      apply lookup_snoc_Some in Hi as [[Hlti Hi]|[-> _]];
        [|apply lookup_lt_Some in Hj; rewrite length_app in Hj; simpl in Hj; lia].
      apply lookup_snoc_Some in Hj as [[Hltj Hj]|[-> <-]].
      * destruct (Hord i j ki kj Hi Hj Hij) as (n & Hn' & Hnot). exists n.
        pose proof (lookup_lt_Some _ _ _ Hn').
        rewrite lookup_app_l, take_app_le by lia. done.
      * assert (ki ∈ seen) as [n Hn']%list_elem_of_lookup_1
          by (apply Hel; by eapply list_elem_of_lookup_2).
        exists n. pose proof (lookup_lt_Some _ _ _ Hn').
        rewrite lookup_app_l, take_app_le by lia. split; [done|].
        intros (m & Hm & _)%elem_of_take. apply Hnew. by eapply list_elem_of_lookup_2.
  - (* a color already in the table *)
    assert (k ∈ seen) as Hk by (by apply Hnz).
    exists order. unfold palette_inv. split_and!; try done.
    + intros x. rewrite elem_of_app, Hel, list_elem_of_singleton.
      split; [tauto|]. intros [?| ->]; done.
    + intros i j ki kj Hi Hj Hij.
      destruct (Hord i j ki kj Hi Hj Hij) as (n & Hn' & Hnot). exists n.
      pose proof (lookup_lt_Some _ _ _ Hn').
      rewrite lookup_app_l, take_app_le by lia. done.
Qed.

Lemma palette_inv_foldl (ks : list Z) :
  Forall (λ k, 0 ≤ k ≤ MAX_COL) ks →
  ∃ order, palette_inv ks order (foldl palette_add palette_init ks).
Proof.
  induction ks as [|k ks IH] using rev_ind; intros Hrange.
  - exists []. apply palette_inv_init.
  - apply Forall_app in Hrange as [Hks _]. destruct (IH Hks) as [order Hinv].
    rewrite foldl_snoc. by eapply palette_inv_step.
Qed.

Lemma pixel_keys_range (l : list Z) :
  Forall (λ k, 0 ≤ k ≤ MAX_COL) (pixel_color <$> l).
Proof. apply Forall_fmap, Forall_true. intros col. apply pixel_color_range. Qed.

Lemma count_colors_inv sfc :
  ∃ order, palette_inv (pixel_color <$> pixels sfc) order (count_colors sfc).
Proof. rewrite count_colors_keys. apply palette_inv_foldl, pixel_keys_range. Qed.

(** C2.  After the counting loops the table holds, for the colors that
    occur in the image and for no others, the indices [1 .. ncols]: each
    index once, no index missing, in the order in which the colors first
    occur in the row-major traversal, the first pixel's color getting
    index 1; and [ncols] is at most [W * H] and at most [2^24 + 1]. *)
Theorem palette_first_occurrence_order (sfc : surface)
    (HW : 0 ≤ sfc_width sfc) (HH : 0 ≤ sfc_height sfc) :
  let p := count_colors sfc in
  let ks := pixel_color <$> pixels sfc in
  let idx := colors_at (colors p) in
  (∀ k, idx k ≠ 0 ↔ k ∈ ks)
  ∧ (∀ k, k ∈ ks → 1 ≤ idx k ≤ ncols p)
  ∧ (∀ i, 1 ≤ i ≤ ncols p → ∃ k, k ∈ ks ∧ idx k = i)
  ∧ (∀ k1 k2, k1 ∈ ks → idx k1 = idx k2 → k1 = k2)
  ∧ (∀ k, ks !! 0%nat = Some k → idx k = 1)
  ∧ (∀ (n1 n2 : nat) k1 k2,
       ks !! n1 = Some k1 → k1 ∉ take n1 ks →
       ks !! n2 = Some k2 → k2 ∉ take n2 ks →
       (n1 < n2)%nat → idx k1 < idx k2)
  ∧ ncols p ≤ sfc_width sfc * sfc_height sfc
  ∧ ncols p ≤ 2 ^ 24 + 1.
Proof.
  intros p ks idx. destruct (count_colors_inv sfc) as [order Hinv].
  fold p ks in Hinv.
  assert (∀ k, idx k ≠ 0 ↔ k ∈ ks) as Hnz
    by (intros k; apply (palette_inv_lookup _ _ _ k Hinv)).
  assert (∀ k, k ∈ ks → ∃ i : nat, order !! i = Some k ∧ idx k = Z.of_nat i + 1)
    as Hidx by (intros k; apply (palette_inv_lookup _ _ _ k Hinv)).
  pose proof (palette_inv_size _ _ _ Hinv (pixel_keys_range _)) as Hsize.
  destruct Hinv as (Hnd & Hel & Hn & Hmap & Hord).
  assert (∀ (n1 n2 : nat) k1 k2,
       ks !! n1 = Some k1 → k1 ∉ take n1 ks →
       ks !! n2 = Some k2 → k2 ∉ take n2 ks →
       (n1 < n2)%nat → idx k1 < idx k2) as Hfirst.
  { intros n1 n2 k1 k2 H1 F1 H2 F2 Hlt.
    destruct (Hidx k1) as (i1 & Hi1 & ->); [by eapply list_elem_of_lookup_2|].
    destruct (Hidx k2) as (i2 & Hi2 & ->); [by eapply list_elem_of_lookup_2|].
    enough (i1 < i2)%nat by lia.
    destruct (Nat.lt_trichotomy i1 i2) as [?|[->|Hgt]]; [done|exfalso..].
    - assert (k1 = k2) as -> by congruence.
      apply F2, elem_of_take. eauto.
    - destruct (Hord i2 i1 k2 k1 Hi2 Hi1 Hgt) as (n & Hn2 & Hnot).
      assert (n2 ≤ n)%nat.
      { apply Nat.nlt_ge. intros Hn'. apply F2, elem_of_take. eauto. }
      apply Hnot, elem_of_take. exists n1. split; [done|lia]. }
  split_and!; try done.
  - intros k (i & Hi & ->)%Hidx. apply lookup_lt_Some in Hi. lia.
  - intros i Hi. destruct (lookup_lt_is_Some_2 order (Z.to_nat (i - 1))) as [k Hk];
      [lia|].
    assert (k ∈ ks) as Hks by (apply Hel; by eapply list_elem_of_lookup_2).
    exists k. split; [done|]. destruct (Hidx k Hks) as (j & Hj & ->).
    assert (j = Z.to_nat (i - 1)) as -> by (eapply NoDup_lookup; eauto). lia.
  - intros k1 k2 Hk1 Heq. destruct (Hidx k1 Hk1) as (i1 & Hi1 & Hv1).
    assert (k2 ∈ ks) as Hk2 by (apply Hnz; lia).
    destruct (Hidx k2 Hk2) as (i2 & Hi2 & Hv2).
    assert (i1 = i2) as -> by lia. congruence.
  - intros k Hk. assert (k ∈ ks) as Hks by (by eapply list_elem_of_lookup_2).
    destruct (Hidx k Hks) as (i & Hi & Hv). destruct i as [|i]; [lia|exfalso].
    destruct (lookup_lt_is_Some_2 order 0%nat) as [k0 Hk0];
      [apply lookup_lt_Some in Hi; lia|].
    destruct (Hord 0%nat (S i) k0 k Hk0 Hi) as (n & _ & Hnot); [lia|].
    apply Hnot, elem_of_take. exists 0%nat. split; [done|lia].
  - rewrite Hn, <-length_pixels by done.
    assert (order ⊆+ ks) as Hsub by (apply NoDup_submseteq; [done|]; intros x; apply Hel).
    apply submseteq_length in Hsub. unfold ks in Hsub. rewrite length_fmap in Hsub. lia.
  - unfold MAX_COL in Hsize. lia.
Qed.

Lemma palette_first_occurrence_order_witness :
  (0 ≤ sfc_width sfc_blue_clear ∧ 0 ≤ sfc_height sfc_blue_clear)
  ∧ colors_at (colors (count_colors sfc_blue_clear)) 0x0000ff = 1
  ∧ ncols (count_colors sfc_blue_clear) ≤ 2 ∧ ncols (count_colors sfc_blue_clear) ≤ 2 ^ 24 + 1.
Proof.
  assert (0 ≤ sfc_width sfc_blue_clear) as HW by (simpl; lia).
  assert (0 ≤ sfc_height sfc_blue_clear) as HH by (simpl; lia).
  destruct (palette_first_occurrence_order sfc_blue_clear HW HH)
    as (_ & _ & _ & _ & Hfirst & _ & Hwh & Hmax).
  split_and!; [done|done| |apply Hwh|apply Hmax].
  apply Hfirst. reflexivity.
Defined.

(** ** Symbol width *)

Lemma bpc_loop_S fuel n bpc :
  bpc_loop (S fuel) n bpc
  = if n =? 0 then Some bpc else bpc_loop fuel (Z.shiftr n 1) (wrap32 (bpc + 1)).
Proof. done. Qed.

Lemma bpc_loop_bits (fuel : nat) : ∀ n bpc,
  0 ≤ n < 2 ^ Z.of_nat fuel → 0 ≤ bpc → bpc + Z.of_nat fuel < 2 ^ 31 →
  ∃ r, bpc_loop (S fuel) n bpc = Some (bpc + r)
       ∧ 0 ≤ r ≤ Z.of_nat fuel ∧ n < 2 ^ r ∧ (0 < r → 2 ^ (r - 1) ≤ n).
Proof.
  induction fuel as [|fuel IH]; intros n bpc Hn Hb Hfit.
  - exists 0. assert (n = 0) as -> by (simpl in Hn; lia).
    simpl. rewrite Z.add_0_r. split_and!; (done || lia).
  - rewrite bpc_loop_S. destruct (Z.eqb_spec n 0) as [->|Hnz].
    + exists 0. rewrite Z.add_0_r. split_and!; (done || lia).
    + rewrite Z.shiftr_div_pow2 by lia. change (2 ^ 1) with 2.
      rewrite wrap32_id by lia.
      assert (2 ^ Z.of_nat (S fuel) = 2 * 2 ^ Z.of_nat fuel) as Hpow
        by (rewrite Nat2Z.inj_succ, Z.pow_succ_r; lia).
      destruct (IH (n / 2) (bpc + 1)) as (r & Hloop & Hr & Hlt & Hge); [|lia|lia|].
      { split; [apply Z.div_pos; lia|]. apply Z.div_lt_upper_bound; lia. }
      exists (r + 1). rewrite Hloop. split_and!; try (f_equal; lia).
      * replace (r + 1) with (Z.succ r) by lia. rewrite Z.pow_succ_r by lia.
        pose proof (Z.div_mod n 2 ltac:(lia)). pose proof (Z.mod_pos_bound n 2). lia.
      * intros _. replace (r + 1 - 1) with r by lia.
        destruct (decide (r = 0)) as [->|Hr0]; [simpl; lia|].
        replace r with (Z.succ (r - 1)) by lia. rewrite Z.pow_succ_r by lia.
        specialize (Hge ltac:(lia)).
        pose proof (Z.div_mod n 2 ltac:(lia)). pose proof (Z.mod_pos_bound n 2). lia.
Qed.

(** For an argument with the top bit set the loop never ends: the [int]
    copy is negative and stays so under the arithmetic shift. *)
Lemma bpc_loop_negative (fuel : nat) n bpc : n < 0 → bpc_loop fuel n bpc = None.
Proof.
  revert n bpc. induction fuel as [|fuel IH]; intros n bpc Hn; [done|].
  rewrite bpc_loop_S. destruct (Z.eqb_spec n 0); [lia|].
  apply IH. by apply Z.shiftr_neg.
Qed.

Lemma num_chars_per_pixel_bits n :
  0 ≤ n < 2 ^ 31 →
  ∃ bits w, num_chars_per_pixel n = Some w
    ∧ 0 ≤ bits ≤ 31 ∧ n < 2 ^ bits ∧ (0 < bits → 2 ^ (bits - 1) ≤ n)
    ∧ w = (bits + 5) / 6 ∧ 6 * (w - 1) < bits ≤ 6 * w.
Proof.
  intros Hn. unfold num_chars_per_pixel. rewrite wrap32_id by lia.
  destruct (bpc_loop_bits 63 n 0) as (r & Hloop & Hr & Hlt & Hge);
    [change (Z.of_nat 63) with 63; lia..|].
  assert (r ≤ 31).
  { destruct (Z.le_gt_cases r 31) as [|Hbig]; [done|].
    specialize (Hge ltac:(lia)).
    assert (2 ^ 31 ≤ 2 ^ (r - 1)) by (apply Z.pow_le_mono_r; lia). lia. }
  change (S 63) with 64%nat in Hloop. rewrite Hloop. cbn [mbind option_bind].
  rewrite Z.add_0_l. exists r, ((r + 5) / 6).
  rewrite Z.quot_div_nonneg by lia.
  assert (((if r `div` 6 * 6 <? r then wrap32 (r `div` 6 + 1) else r `div` 6))
          = (r + 5) / 6) as ->.
  { destruct (Z.ltb_spec (r `div` 6 * 6) r);
      [rewrite wrap32_id by (Z.div_mod_to_equations; lia)|];
      Z.div_mod_to_equations; lia. }
  split_and!; try done; Z.div_mod_to_equations; lia.
Qed.

Lemma bits_minimal n bits b :
  (0 < bits → 2 ^ (bits - 1) ≤ n) → 0 ≤ b → n < 2 ^ b → bits ≤ b.
Proof.
  intros Hge Hb Hlt. destruct (Z.le_gt_cases bits b) as [|Hgt]; [done|exfalso].
  specialize (Hge ltac:(lia)).
  assert (2 ^ b ≤ 2 ^ (bits - 1)) by (apply Z.pow_le_mono_r; lia). lia.
Qed.

(** C3.  For palette sizes [n <= m] within the range of an [int]:
    [num_chars_per_pixel n] is [ceil (bits / 6)], where [bits] is the
    least [b >= 0] with [n < 2^b]; it is 0 at 0; it does not decrease
    from [n] to [m]; and [64 ^ num_chars_per_pixel n > n - 1] when
    [n >= 1]. *)
Theorem num_chars_per_pixel_spec (n m : Z)
    (Hn : 0 ≤ n) (Hnm : n ≤ m) (Hm : m < 2 ^ 31) :
  ∃ bits w w',
    num_chars_per_pixel n = Some w ∧ num_chars_per_pixel m = Some w'
    ∧ (0 ≤ bits ∧ n < 2 ^ bits ∧ ∀ b, 0 ≤ b → n < 2 ^ b → bits ≤ b)
    ∧ (w = (bits + 5) / 6 ∧ 6 * (w - 1) < bits ≤ 6 * w)
    ∧ num_chars_per_pixel 0 = Some 0
    ∧ w ≤ w'
    ∧ (1 ≤ n → n - 1 < 64 ^ w).
Proof.
  destruct (num_chars_per_pixel_bits n) as (bits & w & Hw & Hb & Hlt & Hge & Hdiv & Hceil);
    [lia|].
  destruct (num_chars_per_pixel_bits m) as (bits' & w' & Hw' & Hb' & Hlt' & Hge' & _ & Hceil');
    [lia|].
  exists bits, w, w'. split_and!; try (done || lia).
  - intros b. by apply bits_minimal.
  - assert (bits ≤ bits') by (apply (bits_minimal n); [done|lia|lia]). lia.
  - intros _. change 64 with (2 ^ 6). rewrite <-Z.pow_mul_r by lia.
    assert (2 ^ bits ≤ 2 ^ (6 * w)) by (apply Z.pow_le_mono_r; lia). lia.
Qed.

Lemma num_chars_per_pixel_spec_witness :
  (0 ≤ 64 ∧ 64 ≤ 4096 ∧ 4096 < 2 ^ 31)
  ∧ ∃ bits w w',
      num_chars_per_pixel 64 = Some w ∧ num_chars_per_pixel 4096 = Some w'
      ∧ (0 ≤ bits ∧ 64 < 2 ^ bits ∧ ∀ b, 0 ≤ b → 64 < 2 ^ b → bits ≤ b)
      ∧ (w = (bits + 5) / 6 ∧ 6 * (w - 1) < bits ≤ 6 * w)
      ∧ num_chars_per_pixel 0 = Some 0
      ∧ w ≤ w'
      ∧ (1 ≤ 64 → 64 - 1 < 64 ^ w).
Proof.
  split; [lia|]. apply (num_chars_per_pixel_spec 64 4096); lia.
Defined.

(** ** Strings and their lengths *)

Lemma append_cons a s t : String a s +:+ t = String a (s +:+ t).
Proof. done. Qed.

Lemma length_append s t :
  String.length (s +:+ t) = (String.length s + String.length t)%nat.
Proof.
  induction s as [|a s IH]; [done|]. rewrite append_cons. simpl. by rewrite IH.
Qed.

Lemma append_assoc s t u : (s +:+ t) +:+ u = s +:+ t +:+ u.
Proof. induction s as [|a s IH]; [done|]. rewrite !append_cons. by rewrite IH. Qed.

Lemma append_nil_r s : s +:+ EmptyString = s.
Proof. induction s as [|a s IH]; [done|]. rewrite append_cons. by rewrite IH. Qed.

Lemma cat_app l1 l2 : cat (l1 ++ l2) = cat l1 +:+ cat l2.
Proof.
  induction l1 as [|s l1 IH]; [done|].
  cbn [app cat foldr]. fold (cat (l1 ++ l2)). fold (cat l1).
  by rewrite IH, append_assoc.
Qed.

Lemma length_cat_bounds (l : list string) (lo hi : nat) :
  Forall (λ s, lo ≤ String.length s ≤ hi)%nat l →
  (length l * lo ≤ String.length (cat l) ≤ length l * hi)%nat.
Proof.
  induction 1 as [|s l Hs _ IH]; [done|].
  cbn [cat foldr length]. fold (cat l). rewrite length_append. lia.
Qed.

Lemma length_col_encode_base64_loop pix n :
  String.length (col_encode_base64_loop pix n) = n.
Proof. induction n as [|n IH]; simpl; [done|]. by rewrite IH. Qed.

Lemma length_col_encode_base64 pix cpp :
  String.length (col_encode_base64 pix cpp) = Z.to_nat cpp.
Proof. apply length_col_encode_base64_loop. Qed.

Lemma length_col_encode_html c : String.length (col_encode_html c) = 6%nat.
Proof. done. Qed.

Lemma length_dec_digits fuel : ∀ n acc,
  (String.length acc < String.length (dec_digits (S fuel) n acc)
   ≤ S fuel + String.length acc)%nat.
Proof.
  induction fuel as [|fuel IH]; intros n acc.
  - simpl. destruct (_ =? _); simpl; lia.
  - change (dec_digits (S (S fuel)) n acc) with
      (let acc' := String (char_at "0123456789" (n mod 10)) acc in
       if n / 10 =? 0 then acc' else dec_digits (S fuel) (n / 10) acc').
    cbv zeta. destruct (_ =? _); [simpl; lia|].
    specialize (IH (n / 10) (String (char_at "0123456789" (n mod 10)) acc)).
    simpl in IH |- *. lia.
Qed.

Lemma length_fmt_d n : (1 ≤ String.length (fmt_d n) ≤ 11)%nat.
Proof.
  unfold fmt_d. destruct (n <? 0).
  - pose proof (length_dec_digits 9 (- n) EmptyString) as H.
    cbn [String.length] in *. lia.
  - pose proof (length_dec_digits 9 n EmptyString) as H.
    cbn [String.length] in *. lia.
Qed.

Lemma length_header w h n cpp :
  (46 ≤ String.length (header w h n cpp) ≤ 96)%nat.
Proof.
  unfold header. rewrite !length_append.
  pose proof (length_fmt_d w). pose proof (length_fmt_d h).
  pose proof (length_fmt_d n). pose proof (length_fmt_d cpp).
  change (String.length LF) with 1%nat. change (String.length DQ) with 1%nat.
  cbn [String.length]. lia.
Qed.

Lemma length_quoted_line s :
  String.length (quoted_line s) = (String.length s + 4)%nat.
Proof. unfold quoted_line. rewrite !length_append. simpl. lia. Qed.

Lemma length_color_entry c cpp i :
  0 ≤ cpp →
  (Z.to_nat cpp + 7 ≤ String.length (color_entry c cpp i) ≤ Z.to_nat cpp + 10)%nat.
Proof.
  intros Hcpp. unfold color_entry.
  destruct (_ <? _); rewrite !length_append, length_col_encode_base64;
    rewrite ?length_col_encode_html; simpl; lia.
Qed.

(** ** Document writer: the loops as sequences of pieces *)

Lemma col_encode_base64_defined_spec cpp :
  col_encode_base64_defined cpp = true ↔ 0 ≤ cpp ≤ 6.
Proof. unfold col_encode_base64_defined. rewrite andb_true_iff. lia. Qed.

Lemma xb_encode_snprintf pix cpp b :
  0 ≤ cpp ≤ 6 → xb_encode pix cpp b = xb_snprintf (col_encode_base64 pix cpp) b.
Proof.
  intros Hcpp. unfold xb_encode, xb_snprintf.
  rewrite (proj2 (col_encode_base64_defined_spec cpp) Hcpp).
  rewrite length_col_encode_base64. by rewrite Z2Nat.id by lia.
Qed.

Lemma xb_put_all_None ts :
  foldl (λ ob t, b ← ob; xb_snprintf t b) None ts = None.
Proof. induction ts; simpl; auto. Qed.

Lemma xb_put_all_cons t ts b :
  xb_put_all (t :: ts) b = xb_snprintf t b ≫= xb_put_all ts.
Proof.
  unfold xb_put_all. simpl. destruct (xb_snprintf t b); simpl; [done|].
  apply xb_put_all_None.
Qed.

Lemma xb_put_all_app ts us b :
  xb_put_all (ts ++ us) b = xb_put_all ts b ≫= xb_put_all us.
Proof.
  unfold xb_put_all. rewrite foldl_app.
  destruct (foldl _ (Some b) ts); simpl; [done|]. apply xb_put_all_None.
Qed.

Lemma foldl_guarded_put_all (pieces : Z → list string)
    (body : xbuf → Z → option xbuf) (l : list Z) :
  (∀ b i, i ∈ l → body b i = xb_put_all (pieces i) b) →
  ∀ b, foldl (guarded body) (Some b) l = xb_put_all (l ≫= pieces) b.
Proof.
  induction l as [|i l IH]; intros Hbody b; [done|].
  cbn [foldl mbind list_bind]. fold (mbind (M:=list) pieces l).
  rewrite xb_put_all_app. unfold guarded at 2. cbn [mbind option_bind].
  rewrite Hbody by left. destruct (xb_put_all (pieces i) b) as [b1|]; simpl.
  - apply IH. intros b' j Hj. apply Hbody. by right.
  - apply foldl_guarded_None.
Qed.

Lemma write_row_put_all sfc c cpp b y :
  0 ≤ cpp ≤ 6 →
  write_row sfc c cpp b y = xb_put_all (row_pieces sfc c cpp y) b.
Proof.
  intros Hcpp. unfold write_row, row_pieces. rewrite xb_put_all_cons.
  destruct (xb_snprintf _ b) as [b1|]; simpl; [|done].
  rewrite xb_put_all_app, for_loop_foldl, Z.sub_0_r.
  rewrite (foldl_guarded_put_all
             (λ x, [col_encode_base64 (pixel_index sfc c x y) cpp])).
  - unfold row_symbols.
    assert (∀ l : list Z,
      l ≫= (λ x, [col_encode_base64 (pixel_index sfc c x y) cpp])
      = (λ x, col_encode_base64 (pixel_index sfc c x y) cpp) <$> l) as ->.
    { induction l as [|x l IH]; [done|]. cbn [mbind list_bind fmap list_fmap app].
      by f_equal. }
    destruct (xb_put_all _ b1) as [b2|]; simpl; [|done].
    rewrite xb_put_all_cons. by destruct (xb_snprintf DQ b2).
  - intros b' x _. rewrite xb_put_all_cons. unfold write_pixel, pixel_index.
    rewrite xb_encode_snprintf by done.
    destruct (xb_snprintf _ b'); done.
Qed.

Lemma write_pixel_table_put_all sfc c cpp b :
  0 ≤ cpp ≤ 6 →
  write_pixel_table sfc c cpp b
  = xb_put_all (seqZ 0 (sfc_height sfc) ≫= row_pieces sfc c cpp) b.
Proof.
  intros Hcpp. unfold write_pixel_table. rewrite for_loop_foldl, Z.sub_0_r.
  apply foldl_guarded_put_all. intros b' y _. by apply write_row_put_all.
Qed.

Lemma write_color_step c cpp b i :
  write_color c cpp b i
  = if decide (colors_at c i ≠ 0) then
      if decide (0 ≤ cpp ∧ cpp + 1 ≤ 5)
      then xb_snprintf (quoted_line (color_entry c cpp i)) b
      else None
    else Some b.
Proof.
  unfold write_color, col_encode_base64_defined.
  destruct (Z.eqb_spec (colors_at c i) 0).
  - by rewrite decide_False by naive_solver.
  - rewrite decide_True by done.
    destruct (Z.ltb_spec 5 (cpp + 1)), (Z.leb_spec 0 cpp), (Z.leb_spec cpp 6);
      case_decide; cbn [andb negb]; (done || lia).
Qed.

Lemma write_color_foldl c cpp (l : list Z) : ∀ b,
  foldl (guarded (write_color c cpp)) (Some b) l
  = if decide (0 ≤ cpp ∧ cpp + 1 ≤ 5) then
      xb_put_all (quoted_line <$> (color_entry c cpp
                    <$> filter (λ i, colors_at c i ≠ 0) l)) b
    else if decide (filter (λ i, colors_at c i ≠ 0) l = []) then Some b
    else None.
Proof.
  induction l as [|i l IH]; intros b.
  - rewrite filter_nil. simpl. by repeat case_decide.
  - cbn [foldl]. change (guarded (write_color c cpp) (Some b) i)
      with (write_color c cpp b i).
    rewrite write_color_step, filter_cons.
    destruct (decide (colors_at c i ≠ 0)) as [Hnz|Hz]; [|apply IH].
    destruct (decide (0 ≤ cpp ∧ cpp + 1 ≤ 5)) as [Hok|Hbig].
    + cbn [fmap list_fmap]. rewrite xb_put_all_cons.
      destruct (xb_snprintf _ b) as [b1|]; simpl.
      * apply IH.
      * apply foldl_guarded_None.
    + rewrite foldl_guarded_None. by rewrite decide_False.
Qed.

Lemma write_color_table_put_all c cpp b b' :
  write_color_table c cpp b = Some b' →
  xb_put_all (quoted_line <$> color_lines c cpp) b = Some b'.
Proof.
  unfold write_color_table, color_lines, color_keys.
  rewrite for_loop_foldl, Z.sub_0_r, write_color_foldl.
  generalize (filter (λ i, colors_at c i ≠ 0) (seqZ 0 (MAX_COL + 1))). intros ks.
  case_decide; [done|]. case_decide; [|done]. by subst ks.
Qed.

Lemma write_color_table_small c cpp b :
  0 ≤ cpp ≤ 4 →
  write_color_table c cpp b = xb_put_all (quoted_line <$> color_lines c cpp) b.
Proof.
  intros Hcpp. unfold write_color_table, color_lines, color_keys.
  rewrite for_loop_foldl, Z.sub_0_r, write_color_foldl.
  by rewrite decide_True by lia.
Qed.

(** The document writer with its two loops left abstract. *)
Lemma put_all_chain (hdr tl : string) (xs ys : list string)
    (X Y : xbuf → option xbuf) (b0 b : xbuf) :
  (∀ b1 b2, X b1 = Some b2 → xb_put_all xs b1 = Some b2) →
  (∀ b1, Y b1 = xb_put_all ys b1) →
  (b1 ← xb_snprintf hdr b0; b2 ← X b1; b3 ← Y b2; xb_snprintf tl b3) = Some b →
  xb_put_all (hdr :: xs ++ ys ++ [tl]) b0 = Some b.
Proof.
  intros HX HY. rewrite xb_put_all_cons.
  destruct (xb_snprintf hdr b0) as [b1|]; cbn [mbind option_bind]; [|done].
  rewrite xb_put_all_app.
  destruct (X b1) as [b2|] eqn:Hct; cbn [mbind option_bind]; [|done].
  apply HX in Hct as ->. cbn [mbind option_bind].
  rewrite xb_put_all_app, HY.
  destruct (xb_put_all ys b2) as [b3|]; cbn [mbind option_bind]; [|done].
  rewrite xb_put_all_cons. by destruct (xb_snprintf tl b3).
Qed.

Lemma put_all_chain_eq (hdr tl : string) (xs ys : list string)
    (X Y : xbuf → option xbuf) (b0 : xbuf) :
  (∀ b1, X b1 = xb_put_all xs b1) →
  (∀ b1, Y b1 = xb_put_all ys b1) →
  (b1 ← xb_snprintf hdr b0; b2 ← X b1; b3 ← Y b2; xb_snprintf tl b3)
  = xb_put_all (hdr :: xs ++ ys ++ [tl]) b0.
Proof.
  intros HX HY. rewrite xb_put_all_cons.
  destruct (xb_snprintf hdr b0) as [b1|]; cbn [mbind option_bind]; [|done].
  rewrite xb_put_all_app, HX.
  destruct (xb_put_all xs b1) as [b2|]; cbn [mbind option_bind]; [|done].
  rewrite xb_put_all_app, HY.
  destruct (xb_put_all ys b2) as [b3|]; cbn [mbind option_bind]; [|done].
  rewrite xb_put_all_cons. by destruct (xb_snprintf tl b3).
Qed.

Lemma write_document_put_all sfc p cpp xpmsize b :
  0 ≤ cpp ≤ 6 →
  write_document sfc p cpp xpmsize = Some b →
  xb_put_all (document_pieces sfc p cpp)
    {| xb_data := EmptyString; xb_pos := 0; xb_size := xpmsize |} = Some b.
Proof.
  intros Hcpp Hdoc. unfold document_pieces.
  apply (put_all_chain _ _ _ _ (write_color_table (colors p) cpp)
           (write_pixel_table sfc (colors p) cpp)).
  - apply write_color_table_put_all.
  - intros b1. by apply write_pixel_table_put_all.
  - exact Hdoc.
Qed.

Lemma write_document_small sfc p cpp xpmsize :
  0 ≤ cpp ≤ 4 →
  write_document sfc p cpp xpmsize
  = xb_put_all (document_pieces sfc p cpp)
      {| xb_data := EmptyString; xb_pos := 0; xb_size := xpmsize |}.
Proof.
  intros Hcpp. unfold document_pieces.
  apply (put_all_chain_eq _ _ _ _ (write_color_table (colors p) cpp)
           (write_pixel_table sfc (colors p) cpp)).
  - intros b1. apply write_color_table_small. lia.
  - intros b1. apply write_pixel_table_put_all. lia.
Qed.

Lemma cat_cons t ts : cat (t :: ts) = t +:+ cat ts.
Proof. done. Qed.

Lemma cat_quoted_rows sfc c cpp (ys : list Z) :
  cat (ys ≫= row_pieces sfc c cpp)
  = cat (quoted_line <$> ((λ y, cat (row_symbols sfc c cpp y)) <$> ys)).
Proof.
  induction ys as [|y ys IH]; [done|].
  cbn [mbind list_bind fmap list_fmap].
  fold (mbind (M:=list) (row_pieces sfc c cpp) ys).
  rewrite cat_app, IH, cat_cons. f_equal.
  unfold row_pieces, quoted_line. rewrite cat_cons, cat_app, cat_cons.
  change (cat []) with EmptyString. by rewrite append_nil_r, !append_assoc.
Qed.

Lemma cat_document_pieces sfc p cpp :
  cat (document_pieces sfc p cpp) = document_text sfc p cpp.
Proof.
  unfold document_pieces, document_text, pixel_rows.
  rewrite cat_cons, !cat_app, cat_quoted_rows, cat_cons.
  change (cat []) with EmptyString. by rewrite append_nil_r.
Qed.

(** ** Document writer: bookkeeping of [pos] and [size] *)

Lemma slen_append s t : slen (s +:+ t) = slen s + slen t.
Proof. unfold slen. rewrite length_append. lia. Qed.

Lemma slen_nonneg s : 0 ≤ slen s.
Proof. unfold slen. lia. Qed.

Lemma slen_cat_cons t ts : slen (cat (t :: ts)) = slen t + slen (cat ts).
Proof. cbn [cat foldr]. fold (cat ts). apply slen_append. Qed.

Lemma xb_put_all_data ts : ∀ b b',
  xb_put_all ts b = Some b' → xb_data b' = xb_data b +:+ cat ts.
Proof.
  induction ts as [|t ts IH]; intros b b'.
  - intros [= <-]. by rewrite append_nil_r.
  - rewrite xb_put_all_cons. unfold xb_snprintf, xb_advance.
    destruct (_ <? _); [|done]. cbn [mbind option_bind].
    intros ->%IH. cbn [xb_data cat foldr]. by rewrite append_assoc.
Qed.

(** A sequence of writes that the model accepts stayed within the room
    that was left. *)
Lemma xb_put_all_size ts : ∀ b b',
  xb_size b ≤ INT_MAX →
  xb_put_all ts b = Some b' →
  xb_size b' = xb_size b - slen (cat ts)
  ∧ (ts ≠ [] → slen (cat ts) < xb_size b).
Proof.
  induction ts as [|t ts IH]; intros b b' Hsize.
  - intros [= <-]. change (slen (cat [])) with 0. split; [lia|done].
  - rewrite xb_put_all_cons, slen_cat_cons. unfold xb_snprintf, xb_advance.
    fold (slen t). pose proof (slen_nonneg t). pose proof (slen_nonneg (cat ts)).
    destruct (Z.ltb_spec (slen t) (xb_size b)) as [Hfit|]; [|done].
    cbn [mbind option_bind]. intros Hrest.
    apply IH in Hrest as [Hsz Hlt]; cbn [xb_size] in *;
      rewrite ?wrap32_id in * by (unfold INT_MAX in *; lia);
      [|unfold INT_MAX in *; lia].
    split; [lia|]. intros _. destruct ts as [|t' ts]; [|specialize (Hlt ltac:(done)); lia].
    change (slen (cat [])) with 0. lia.
Qed.

(** Writes that fit are all carried out, and the bookkeeping is exact. *)
Lemma xb_put_all_fits ts : ∀ b,
  0 ≤ xb_pos b → xb_pos b + xb_size b ≤ INT_MAX →
  slen (cat ts) < xb_size b →
  ∃ b', xb_put_all ts b = Some b'
        ∧ xb_pos b' = xb_pos b + slen (cat ts)
        ∧ xb_size b' = xb_size b - slen (cat ts).
Proof.
  induction ts as [|t ts IH]; intros b Hpos Hsum Hfit.
  - exists b. change (slen (cat [])) with 0. split_and!; (done || lia).
  - rewrite slen_cat_cons in *. rewrite xb_put_all_cons. unfold xb_snprintf, xb_advance.
    fold (slen t). pose proof (slen_nonneg t). pose proof (slen_nonneg (cat ts)).
    destruct (Z.ltb_spec (slen t) (xb_size b)) as [_|]; [|lia].
    cbn [mbind option_bind].
    rewrite !wrap32_id by (unfold INT_MAX in *; lia).
    destruct (IH {| xb_data := xb_data b +:+ t;
                    xb_pos := xb_pos b + slen t;
                    xb_size := xb_size b - slen t |})
      as (b' & Hb' & Hp & Hs); cbn [xb_pos xb_size]; try lia.
    exists b'. rewrite Hb', Hp, Hs. cbn [xb_pos xb_size].
    split_and!; (done || lia).
Qed.

(** ** The color table *)

Lemma seqZ_sorted m n : StronglySorted Z.lt (seqZ m n).
Proof.
  destruct (Z.le_gt_cases n 0) as [Hn|Hn]; [rewrite seqZ_nil by done; constructor|].
  rewrite <-(Z2Nat.id n) by lia. generalize (Z.to_nat n). clear. intros k. revert m.
  induction k as [|k IH]; intros m; [constructor|].
  rewrite seqZ_cons by lia. replace (Z.pred (Z.of_nat (S k))) with (Z.of_nat k) by lia.
  constructor; [apply IH|]. apply Forall_forall. intros x Hx%elem_of_seqZ. lia.
Qed.

Lemma StronglySorted_filter {A} (R : relation A) (P : A → Prop)
    `{∀ x, Decision (P x)} (l : list A) :
  StronglySorted R l → StronglySorted R (filter P l).
Proof.
  induction 1 as [|x l Hl IH Hx]; [constructor|].
  rewrite filter_cons. case_decide; [|done]. constructor; [done|].
  apply Forall_forall. intros y [_ Hy]%list_elem_of_filter.
  rewrite Forall_forall in Hx. by apply Hx.
Qed.

Lemma StronglySorted_lt_NoDup (l : list Z) : StronglySorted Z.lt l → NoDup l.
Proof.
  induction 1 as [|x l Hl IH Hx]; constructor; [|done].
  intros Hin. rewrite Forall_forall in Hx. specialize (Hx x Hin). lia.
Qed.

Lemma color_keys_sorted c : StronglySorted Z.lt (color_keys c).
Proof. apply StronglySorted_filter, seqZ_sorted. Qed.

Lemma elem_of_color_keys c i :
  i ∈ color_keys c ↔ 0 ≤ i ≤ MAX_COL ∧ colors_at c i ≠ 0.
Proof.
  unfold color_keys. rewrite list_elem_of_filter, elem_of_seqZ. unfold MAX_COL. lia.
Qed.

(** The table is determined by the sorted list of its colors. *)
Lemma color_keys_unique c (l : list Z) :
  StronglySorted Z.lt l →
  (∀ i, i ∈ l ↔ 0 ≤ i ≤ MAX_COL ∧ colors_at c i ≠ 0) →
  color_keys c = l.
Proof.
  intros Hl Hel. apply (StronglySorted_unique_strong Z.lt).
  - intros; lia.
  - apply color_keys_sorted.
  - done.
  - apply NoDup_Permutation.
    + apply StronglySorted_lt_NoDup, color_keys_sorted.
    + by apply StronglySorted_lt_NoDup.
    + intros i. by rewrite elem_of_color_keys, Hel.
Qed.

Lemma color_keys_palette seen order p :
  palette_inv seen order p → Forall (λ k, 0 ≤ k ≤ MAX_COL) seen →
  color_keys (colors p) ≡ₚ order.
Proof.
  intros Hinv Hrange. apply NoDup_Permutation.
  - apply StronglySorted_lt_NoDup, color_keys_sorted.
  - by destruct Hinv.
  - intros i. rewrite elem_of_color_keys.
    destruct (palette_inv_lookup _ _ _ i Hinv) as [-> _].
    destruct Hinv as (_ & -> & _). rewrite Forall_forall in Hrange.
    split; [tauto|]. intros Hi. split; [|done]. by apply Hrange.
Qed.

(** One color-table line per palette entry. *)
Lemma length_color_keys sfc :
  Z.of_nat (length (color_keys (colors (count_colors sfc)))) = ncols (count_colors sfc).
Proof.
  destruct (count_colors_inv sfc) as [order Hinv].
  rewrite (Permutation_length (color_keys_palette _ _ _ Hinv (pixel_keys_range _))).
  by destruct Hinv as (_ & _ & -> & _).
Qed.

(** ** Length of the document *)

Lemma slen_col_encode_base64 pix cpp : 0 ≤ cpp → slen (col_encode_base64 pix cpp) = cpp.
Proof. intros. unfold slen. rewrite length_col_encode_base64. lia. Qed.

Lemma slen_row_symbols sfc c cpp y :
  0 ≤ cpp → 0 ≤ sfc_width sfc →
  slen (cat (row_symbols sfc c cpp y)) = sfc_width sfc * cpp.
Proof.
  intros Hcpp HW. unfold slen.
  pose proof (length_cat_bounds (row_symbols sfc c cpp y) (Z.to_nat cpp) (Z.to_nat cpp))
    as Hlen.
  unfold row_symbols in *. rewrite length_fmap, length_seqZ in Hlen.
  destruct Hlen as [Hlo Hhi]; [|nia].
  apply Forall_fmap, Forall_true. intros x. unfold compose.
  rewrite length_col_encode_base64. lia.
Qed.

Lemma slen_cat_quoted (l : list string) (lo hi : Z) :
  Forall (λ s, lo ≤ slen s ≤ hi) l → 0 ≤ lo →
  Z.of_nat (length l) * (lo + 4) ≤ slen (cat (quoted_line <$> l))
  ≤ Z.of_nat (length l) * (hi + 4).
Proof.
  intros Hl Hlo. unfold slen in *.
  pose proof (length_cat_bounds (quoted_line <$> l) (Z.to_nat lo + 4) (Z.to_nat hi + 4))
    as Hlen.
  rewrite length_fmap in Hlen. destruct Hlen as [Hlo' Hhi'].
  - apply Forall_fmap. eapply Forall_impl; [done|]. intros s Hs.
    unfold compose. cbn beta in *. rewrite length_quoted_line. lia.
  - destruct l as [|s l]; [simpl in *; lia|].
    assert (lo ≤ hi) by (inv Hl; lia). nia.
Qed.

Lemma slen_pixel_rows sfc c cpp :
  0 ≤ cpp → 0 ≤ sfc_width sfc → 0 ≤ sfc_height sfc →
  slen (cat (quoted_line <$> pixel_rows sfc c cpp))
  = sfc_height sfc * (sfc_width sfc * cpp + 4).
Proof.
  intros Hcpp HW HH.
  pose proof (slen_cat_quoted (pixel_rows sfc c cpp)
                (sfc_width sfc * cpp) (sfc_width sfc * cpp)) as Hlen.
  unfold pixel_rows in *. rewrite length_fmap, length_seqZ in Hlen.
  destruct Hlen as [Hlo Hhi]; [| |nia]; [|nia].
  apply Forall_fmap, Forall_true. intros y. unfold compose.
  rewrite slen_row_symbols by done. lia.
Qed.

Lemma slen_color_lines c cpp :
  0 ≤ cpp →
  Z.of_nat (length (color_keys c)) * (cpp + 11)
  ≤ slen (cat (quoted_line <$> color_lines c cpp))
  ≤ Z.of_nat (length (color_keys c)) * (cpp + 14).
Proof.
  intros Hcpp. unfold color_lines. generalize (color_keys c). intros ks.
  pose proof (slen_cat_quoted (color_entry c cpp <$> ks) (cpp + 7) (cpp + 10)) as Hlen.
  rewrite length_fmap in Hlen.
  replace (cpp + 11) with (cpp + 7 + 4) by lia.
  replace (cpp + 14) with (cpp + 10 + 4) by lia. apply Hlen; [|lia].
  apply Forall_fmap, Forall_true. intros i. unfold compose, slen.
  pose proof (length_color_entry c cpp i Hcpp). lia.
Qed.

Lemma slen_header w h n cpp : 46 ≤ slen (header w h n cpp) ≤ 96.
Proof. unfold slen. pose proof (length_header w h n cpp). lia. Qed.

Lemma slen_document_text sfc cpp :
  0 ≤ cpp → 0 ≤ sfc_width sfc → 0 ≤ sfc_height sfc →
  let p := count_colors sfc in
  sfc_height sfc * (sfc_width sfc * cpp + 4) + 50
  ≤ slen (document_text sfc p cpp)
  ≤ ncols p * (cpp + 14) + sfc_height sfc * (sfc_width sfc * cpp + 4) + 100.
Proof.
  intros Hcpp HW HH p. unfold document_text. rewrite !slen_append.
  rewrite slen_pixel_rows by done.
  pose proof (slen_color_lines (colors p) cpp Hcpp) as Hct.
  assert (Z.of_nat (length (color_keys (colors p))) = ncols p) as Hkeys
    by apply length_color_keys.
  rewrite Hkeys in Hct.
  pose proof (slen_header (sfc_width sfc) (sfc_height sfc) (ncols p) cpp).
  assert (0 ≤ ncols p) by lia.
  change (slen LF) with 1. change (slen "};") with 2.
  generalize dependent (slen (cat (quoted_line <$> color_lines (colors p) cpp))).
  generalize dependent (slen (header (sfc_width sfc) (sfc_height sfc) (ncols p) cpp)).
  intros. nia.
Qed.

(** ** Palette size and symbol width of an image *)

Lemma ncols_range sfc : 0 ≤ ncols (count_colors sfc) ≤ MAX_COL + 1.
Proof.
  destruct (count_colors_inv sfc) as [order Hinv].
  pose proof (palette_inv_size _ _ _ Hinv (pixel_keys_range _)).
  destruct Hinv as (_ & _ & -> & _). lia.
Qed.

Lemma ncols_le_pixels sfc :
  ncols (count_colors sfc) ≤ Z.of_nat (length (pixels sfc)).
Proof.
  destruct (count_colors_inv sfc) as [order (Hnd & Hel & -> & _)].
  assert (order ⊆+ pixel_color <$> pixels sfc) as Hsub
    by (apply NoDup_submseteq; [done|]; intros x; apply Hel).
  apply submseteq_length in Hsub. rewrite length_fmap in Hsub. lia.
Qed.

Lemma num_chars_per_pixel_ncols sfc :
  ∃ cpp, num_chars_per_pixel (ncols (count_colors sfc)) = Some cpp
    ∧ 0 ≤ cpp ≤ 5
    ∧ (ncols (count_colors sfc) < 2 ^ 24 → cpp ≤ 4)
    ∧ (ncols (count_colors sfc) = 0 → cpp = 0)
    ∧ ncols (count_colors sfc) < 64 ^ cpp.
Proof.
  pose proof (ncols_range sfc) as Hn. unfold MAX_COL in Hn.
  destruct (num_chars_per_pixel_bits (ncols (count_colors sfc)))
    as (bits & cpp & Hcpp & Hb & Hlt & Hge & Hdiv & Hceil); [lia|].
  exists cpp. split; [done|].
  assert (bits ≤ 25) by (apply (bits_minimal (ncols (count_colors sfc))); [done|lia|lia]).
  assert (ncols (count_colors sfc) < 2 ^ 24 → cpp ≤ 4) as Hsmall.
  { intros Hsmall.
    assert (bits ≤ 24) by (apply (bits_minimal (ncols (count_colors sfc))); [done|lia|lia]).
    lia. }
  assert (ncols (count_colors sfc) = 0 → cpp = 0) as Hzero.
  { intros Hz. assert (bits ≤ 0); [|lia].
    apply (bits_minimal (ncols (count_colors sfc))); [done|lia|]. rewrite Hz. lia. }
  assert (ncols (count_colors sfc) < 64 ^ cpp) as Hroom.
  { change 64 with (2 ^ 6). rewrite <-Z.pow_mul_r by lia.
    assert (2 ^ bits ≤ 2 ^ (6 * cpp)) by (apply Z.pow_le_mono_r; lia). lia. }
  split_and!; (done || lia).
Qed.

(** ** Size estimate *)

Lemma size_t_of_int_id z : 0 ≤ z < 2 ^ 64 → size_t_of_int z = z.
Proof. intros. unfold size_t_of_int. by rewrite Z.mod_small. Qed.

Lemma xpm_size_no_overflow w h n cpp :
  0 ≤ w → 0 ≤ h → 0 ≤ n → 0 ≤ cpp ≤ 5 → (cpp = 0 ∨ 1 ≤ h) →
  xpm_size_exact w h n cpp ≤ INT_MAX →
  xpm_size w h n cpp = xpm_size_exact w h n cpp.
Proof.
  unfold xpm_size, xpm_size_exact, INT_MAX. intros Hw Hh Hn Hcpp Hrow Hfit.
  assert (0 ≤ (cpp + 14) * n) by nia.
  assert (0 ≤ w * cpp ∧ w * cpp + 4 ≤ 2147483647) as [? ?].
  { destruct Hrow as [->|?]; [lia|]. nia. }
  assert (0 ≤ (w * cpp + 4) * h) by nia.
  rewrite (wrap32_id (cpp + 14)) by lia.
  rewrite (wrap32_id ((cpp + 14) * n)) by nia.
  rewrite (wrap32_id (w * cpp)) by nia.
  rewrite (wrap32_id (w * cpp + 4)) by nia.
  rewrite (wrap32_id ((w * cpp + 4) * h)) by nia.
  rewrite (wrap32_id ((cpp + 14) * n + (w * cpp + 4) * h)) by nia.
  rewrite (wrap32_id ((cpp + 14) * n + (w * cpp + 4) * h + 256)) by nia.
  apply size_t_of_int_id. lia.
Qed.

Lemma xpm_size_image sfc cpp :
  0 ≤ sfc_width sfc → 0 ≤ sfc_height sfc →
  num_chars_per_pixel (ncols (count_colors sfc)) = Some cpp →
  xpm_size_exact (sfc_width sfc) (sfc_height sfc) (ncols (count_colors sfc)) cpp
    ≤ INT_MAX →
  xpm_size (sfc_width sfc) (sfc_height sfc) (ncols (count_colors sfc)) cpp
  = xpm_size_exact (sfc_width sfc) (sfc_height sfc) (ncols (count_colors sfc)) cpp.
Proof.
  intros HW HH Hcpp Hfit.
  destruct (num_chars_per_pixel_ncols sfc) as (cpp' & Hcpp' & Hr & _ & Hz & _).
  assert (cpp' = cpp) as -> by congruence.
  pose proof (ncols_range sfc). pose proof (ncols_le_pixels sfc) as Hpix.
  rewrite length_pixels in Hpix by done.
  assert (cpp = 0 ∨ 1 ≤ sfc_height sfc) as Hrows.
  { destruct (decide (ncols (count_colors sfc) = 0)) as [?%Hz|?]; [by left|right]. nia. }
  apply xpm_size_no_overflow; (done || lia).
Qed.

(** ** The document as a whole *)

Lemma write_document_text sfc p cpp xpmsize b :
  0 ≤ cpp ≤ 6 → xpmsize ≤ INT_MAX →
  write_document sfc p cpp xpmsize = Some b →
  xb_data b = document_text sfc p cpp
  ∧ xb_pos b = slen (document_text sfc p cpp)
  ∧ slen (document_text sfc p cpp) < xpmsize.
Proof.
  intros Hcpp Hsize Hdoc%write_document_put_all; [|done].
  set (b0 := {| xb_data := EmptyString; xb_pos := 0; xb_size := xpmsize |}) in *.
  pose proof (xb_put_all_data _ _ _ Hdoc) as Hdata.
  destruct (xb_put_all_size _ b0 b Hsize Hdoc) as [_ Hfit].
  rewrite cat_document_pieces in *. cbn [b0 xb_data xb_size String.append] in *.
  specialize (Hfit ltac:(done)).
  destruct (xb_put_all_fits (document_pieces sfc p cpp) b0)
    as (b' & Hb' & Hpos & _); cbn [b0 xb_pos xb_size];
    rewrite ?cat_document_pieces; try lia.
  assert (b' = b) as -> by congruence.
  rewrite cat_document_pieces in Hpos. cbn [b0 xb_pos] in Hpos.
  split_and!; (done || lia).
Qed.

Lemma write_document_fits sfc p cpp xpmsize :
  0 ≤ cpp ≤ 4 → xpmsize ≤ INT_MAX →
  slen (document_text sfc p cpp) < xpmsize →
  ∃ b, write_document sfc p cpp xpmsize = Some b
       ∧ xb_data b = document_text sfc p cpp
       ∧ xb_pos b = slen (document_text sfc p cpp).
Proof.
  intros Hcpp Hsize Hfit. rewrite write_document_small by done.
  set (b0 := {| xb_data := EmptyString; xb_pos := 0; xb_size := xpmsize |}).
  destruct (xb_put_all_fits (document_pieces sfc p cpp) b0)
    as (b & Hb & Hpos & _); cbn [b0 xb_pos xb_size];
    rewrite ?cat_document_pieces; try lia.
  exists b. pose proof (xb_put_all_data _ _ _ Hb) as Hdata.
  rewrite cat_document_pieces in *. cbn [b0 xb_data xb_pos String.append] in *.
  split_and!; (done || lia).
Qed.

(** ** The counting pass and the loads of pixels *)

Lemma foldl_guarded_checked {St : Type} (ok : Z → bool) (f : St → Z → St)
    (body : St → Z → option St) (l : list Z) :
  (∀ s i, body s i = if ok i then Some (f s i) else None) →
  ∀ s, foldl (guarded body) (Some s) l
       = if forallb ok l then Some (foldl f s l) else None.
Proof.
  intros Hbody. induction l as [|i l IH]; intros s; [reflexivity|].
  cbn [foldl forallb]. change (guarded body (Some s) i) with (body s i).
  rewrite Hbody. destruct (ok i); cbn [andb]; [apply IH|apply foldl_guarded_None].
Qed.

(** The counting loops build the palette [count_colors] when every load
    is defined, and leave the defined behaviour otherwise. *)
Lemma counting_pass_readable sfc :
  counting_pass sfc = if readable sfc then Some (count_colors sfc) else None.
Proof.
  unfold counting_pass, count_colors, readable.
  rewrite !(for_loop_foldl _ 0 (sfc_height sfc)), Z.sub_0_r.
  apply (foldl_guarded_checked
           (λ y, forallb (λ x, argb24_pixel_defined sfc x y) (seqZ 0 (sfc_width sfc)))
           (λ p y, for_loop 0 (sfc_width sfc)
                     (λ p x, count_pixel p (cairo_image_surface_get_argb24_pixel sfc x y))
                     p)).
  intros p y. rewrite !for_loop_foldl, Z.sub_0_r.
  apply (foldl_guarded_checked
           (λ x, argb24_pixel_defined sfc x y)
           (λ p x, count_pixel p (cairo_image_surface_get_argb24_pixel sfc x y))).
  intros p' x. reflexivity.
Qed.

Lemma readable_spec sfc :
  readable sfc = true
  ↔ ∀ x y, 0 ≤ x < sfc_width sfc → 0 ≤ y < sfc_height sfc →
           argb24_pixel_defined sfc x y = true.
Proof.
  unfold readable. rewrite forallb_forall. split.
  - intros Hall x y Hx Hy.
    assert (In y (seqZ 0 (sfc_height sfc))) as Hin
      by (apply list_elem_of_In, elem_of_seqZ; lia).
    specialize (Hall y Hin). rewrite forallb_forall in Hall. apply Hall.
    apply list_elem_of_In, elem_of_seqZ. lia.
  - intros Hall y Hy%list_elem_of_In%elem_of_seqZ. rewrite forallb_forall.
    intros x Hx%list_elem_of_In%elem_of_seqZ. apply Hall; lia.
Qed.

Lemma readable_zero_area sfc :
  sfc_width sfc = 0 ∨ sfc_height sfc = 0 → readable sfc = true.
Proof. intros Hzero. apply readable_spec. intros x y Hx Hy. lia. Qed.


(** What a call of the to-memory variant can return. *)
Lemma write_to_xpm_mem_inv mem input caller st out :
  cairo_image_surface_write_to_xpm_mem mem input caller = Some (st, out) →
  (st ≠ CAIRO_STATUS_SUCCESS ∧ out = {| op_data := None; op_len := 0 |})
  ∨ (st = CAIRO_STATUS_SUCCESS
     ∧ ∃ sfc cpp,
         surface_of input = Some sfc
         ∧ num_chars_per_pixel (ncols (count_colors sfc)) = Some cpp
         ∧ out = {| op_data := Some (document_text sfc (count_colors sfc) cpp);
                    op_len := slen (document_text sfc (count_colors sfc) cpp) |}
         ∧ slen (document_text sfc (count_colors sfc) cpp)
           < wrap32 (xpm_size (sfc_width sfc) (sfc_height sfc)
                              (ncols (count_colors sfc)) cpp)).
Proof.
  unfold cairo_image_surface_write_to_xpm_mem.
  destruct (surface_of input) as [sfc|] eqn:Hsfc; [|intros [= <- <-]; by left].
  destruct (calloc_ok mem); cbn [negb]; [|intros [= <- <-]; by left].
  rewrite counting_pass_readable.
  destruct (readable sfc); cbn [mbind option_bind]; [|done].
  destruct (num_chars_per_pixel_ncols sfc) as (cpp & Hcpp & Hr & _).
  rewrite Hcpp. cbn [mbind option_bind].
  destruct (malloc_ok mem _); cbn [negb]; [|intros [= <- <-]; by left].
  destruct (write_document _ _ _ _) as [b|] eqn:Hdoc; cbn [mbind option_bind]; [|done].
  intros [= <- <-]. right. split; [done|]. exists sfc, cpp.
  apply write_document_text in Hdoc as (-> & -> & Hfit);
    [|lia|pose proof (wrap32_range (xpm_size (sfc_width sfc) (sfc_height sfc)
                        (ncols (count_colors sfc)) cpp)); unfold INT_MAX; lia].
  split_and!; try done.
  rewrite size_t_of_int_id; [done|].
  pose proof (slen_nonneg (document_text sfc (count_colors sfc) cpp)).
  pose proof (wrap32_range (xpm_size (sfc_width sfc) (sfc_height sfc)
                        (ncols (count_colors sfc)) cpp)). lia.
Qed.

(** The to-memory variant on an image surface, step by step. *)
Lemma write_to_xpm_mem_image mem sfc caller :
  cairo_image_surface_write_to_xpm_mem mem (ImageSurface sfc) caller
  = if calloc_ok mem then
      if readable sfc then
        match num_chars_per_pixel (ncols (count_colors sfc)) with
        | Some cpp =>
            let xpmsize :=
              wrap32 (xpm_size (sfc_width sfc) (sfc_height sfc)
                        (ncols (count_colors sfc)) cpp) in
            if malloc_ok mem (size_t_of_int xpmsize) then
              match write_document sfc (count_colors sfc) cpp xpmsize with
              | Some b =>
                  Some (CAIRO_STATUS_SUCCESS,
                        {| op_data := Some (xb_data b);
                           op_len := size_t_of_int (xb_pos b) |})
              | None => None
              end
            else Some (CAIRO_STATUS_NO_MEMORY, {| op_data := None; op_len := 0 |})
        | None => None
        end
      else None
    else Some (CAIRO_STATUS_NO_MEMORY, {| op_data := None; op_len := 0 |}).
Proof.
  unfold cairo_image_surface_write_to_xpm_mem. cbn [surface_of].
  destruct (calloc_ok mem); [|reflexivity]. cbn [negb].
  rewrite counting_pass_readable.
  destruct (readable sfc); cbn [mbind option_bind]; [|reflexivity].
  destruct (num_chars_per_pixel (ncols (count_colors sfc))) as [cpp|]; [|reflexivity].
  cbn [mbind option_bind]. cbv zeta.
  destruct (malloc_ok mem _); [|reflexivity]. cbn [negb].
  destruct (write_document _ _ _ _); reflexivity.
Qed.

(** When the encoder succeeds. *)
Lemma write_to_xpm_mem_success mem sfc caller cpp :
  readable sfc = true →
  0 ≤ sfc_width sfc → 0 ≤ sfc_height sfc →
  num_chars_per_pixel (ncols (count_colors sfc)) = Some cpp → cpp ≤ 4 →
  xpm_size_exact (sfc_width sfc) (sfc_height sfc) (ncols (count_colors sfc)) cpp
    ≤ INT_MAX →
  calloc_ok mem = true →
  malloc_ok mem (xpm_size_exact (sfc_width sfc) (sfc_height sfc)
                   (ncols (count_colors sfc)) cpp) = true →
  cairo_image_surface_write_to_xpm_mem mem (ImageSurface sfc) caller
  = Some (CAIRO_STATUS_SUCCESS,
          {| op_data := Some (document_text sfc (count_colors sfc) cpp);
             op_len := slen (document_text sfc (count_colors sfc) cpp) |}).
Proof.
  intros Hread HW HH Hcpp Hsmall Hfit Hcalloc Hmalloc.
  destruct (num_chars_per_pixel_ncols sfc) as (cpp' & Hcpp' & Hr & _).
  assert (cpp' = cpp) as -> by congruence.
  pose proof (ncols_range sfc) as Hn.
  pose proof (slen_document_text sfc cpp ltac:(lia) HW HH) as Hlen. cbv zeta in Hlen.
  rewrite write_to_xpm_mem_image, Hcalloc, Hread, Hcpp. cbv zeta.
  rewrite xpm_size_image by assumption.
  set (size := xpm_size_exact (sfc_width sfc) (sfc_height sfc)
                 (ncols (count_colors sfc)) cpp) in *.
  assert (slen (document_text sfc (count_colors sfc) cpp) < size) as Hroom
    by (unfold size, xpm_size_exact; nia).
  pose proof (slen_nonneg (document_text sfc (count_colors sfc) cpp)) as Hpos.
  rewrite (wrap32_id size) by (unfold INT_MAX in *; lia).
  rewrite (size_t_of_int_id size) by (unfold INT_MAX in *; lia).
  rewrite Hmalloc.
  destruct (write_document_fits sfc (count_colors sfc) cpp size)
    as (b & Hb & Hdata & Hbpos); [lia|assumption|assumption|].
  rewrite Hb, Hdata, Hbpos.
  rewrite size_t_of_int_id by (unfold INT_MAX in *; lia). reflexivity.
Qed.

(** ** Pixels of the image and their palette indices *)

Lemma elem_of_pixels sfc x y :
  0 ≤ x < sfc_width sfc → 0 ≤ y < sfc_height sfc →
  cairo_image_surface_get_argb24_pixel sfc x y ∈ pixels sfc.
Proof.
  intros Hx Hy. unfold pixels. apply list_elem_of_bind. exists y. split.
  - apply list_elem_of_bind. exists x. split; [by left|]. apply elem_of_seqZ. lia.
  - apply elem_of_seqZ. lia.
Qed.

Lemma elem_of_pixels_inv sfc col :
  col ∈ pixels sfc →
  ∃ x y, 0 ≤ x < sfc_width sfc ∧ 0 ≤ y < sfc_height sfc
         ∧ col = cairo_image_surface_get_argb24_pixel sfc x y.
Proof.
  unfold pixels. intros (y & (x & Hcol & Hx%elem_of_seqZ)%list_elem_of_bind
                           & Hy%elem_of_seqZ)%list_elem_of_bind.
  apply list_elem_of_singleton in Hcol. exists x, y. split_and!; (done || lia).
Qed.

Lemma palette_index_range sfc k :
  k ∈ pixel_color <$> pixels sfc →
  1 ≤ colors_at (colors (count_colors sfc)) k ≤ ncols (count_colors sfc).
Proof.
  intros Hk. destruct (count_colors_inv sfc) as [order Hinv].
  destruct (palette_inv_lookup _ _ _ k Hinv) as [_ Hidx].
  destruct (Hidx Hk) as (i & Hi & ->). apply lookup_lt_Some in Hi.
  destruct Hinv as (_ & _ & -> & _). lia.
Qed.

Lemma pixel_index_range sfc cpp x y :
  0 ≤ x < sfc_width sfc → 0 ≤ y < sfc_height sfc →
  num_chars_per_pixel (ncols (count_colors sfc)) = Some cpp →
  let c := colors (count_colors sfc) in
  let col := cairo_image_surface_get_argb24_pixel sfc x y in
  pixel_index sfc c x y = colors_at c (pixel_color col) - 1
  ∧ 1 ≤ colors_at c (pixel_color col) ≤ ncols (count_colors sfc)
  ∧ 0 ≤ pixel_index sfc c x y < 64 ^ cpp.
Proof.
  intros Hx Hy Hcpp c col.
  assert (pixel_color col ∈ pixel_color <$> pixels sfc) as Hk.
  { apply list_elem_of_fmap. exists col. split; [done|]. by apply elem_of_pixels. }
  pose proof (palette_index_range sfc _ Hk) as Hidx. fold c in Hidx.
  pose proof (ncols_range sfc) as Hn. unfold MAX_COL in Hn.
  destruct (num_chars_per_pixel_ncols sfc) as (cpp' & Hcpp' & _ & _ & _ & Hlt).
  assert (cpp' = cpp) as -> by congruence.
  unfold pixel_index. fold col. rewrite wrap32_id by lia. lia.
Qed.

(** The palette size is the number of distinct colors of the image. *)
Lemma ncols_distinct sfc :
  ncols (count_colors sfc)
  = Z.of_nat (size (list_to_set (C:=gset Z) (pixel_color <$> pixels sfc))).
Proof.
  destruct (count_colors_inv sfc) as [order (Hnd & Hel & -> & _)].
  rewrite <-(size_list_to_set (C:=gset Z) order) by done. do 2 f_equal.
  apply set_eq. intros k. by rewrite !elem_of_list_to_set, Hel.
Qed.

(** ** Symbol encoder *)

Lemma col_encode_base64_loop_get pix (n k : nat) :
  (k < n)%nat →
  String.get k (col_encode_base64_loop pix n)
  = Some (char_at ctbl (Z.land (Z.shiftr pix (Z.of_nat (n - 1 - k) * 6)) 0x3f)).
Proof.
  revert k. induction n as [|n IH]; intros k Hk; [lia|].
  cbn [col_encode_base64_loop]. destruct k as [|k]; cbn [String.get].
  - do 4 f_equal. lia.
  - rewrite IH by lia. do 4 f_equal. lia.
Qed.

(** Symbol [k] from the left is the base-64 digit of weight
    [64 ^ (cpp - 1 - k)]. *)
Lemma col_encode_base64_get pix cpp k :
  0 ≤ k < cpp →
  String.get (Z.to_nat k) (col_encode_base64 pix cpp)
  = Some (char_at ctbl ((pix / 64 ^ (cpp - 1 - k)) mod 64)).
Proof.
  intros Hk. unfold col_encode_base64.
  rewrite col_encode_base64_loop_get by lia.
  replace (Z.of_nat (Z.to_nat cpp - 1 - Z.to_nat k)) with (cpp - 1 - k) by lia.
  rewrite Z.shiftr_div_pow2 by lia. change 0x3f with (Z.ones 6).
  rewrite Z.land_ones by lia. rewrite Z.mul_comm, Z.pow_mul_r by lia. done.
Qed.


(** ** Evaluation on small images *)

Lemma color_keys_image sfc i :
  i ∈ color_keys (colors (count_colors sfc)) ↔ i ∈ pixel_color <$> pixels sfc.
Proof.
  destruct (count_colors_inv sfc) as [order Hinv].
  rewrite (color_keys_palette _ _ _ Hinv (pixel_keys_range _)).
  by destruct Hinv as (_ & ? & _).
Qed.

Lemma color_keys_of_image sfc (l : list Z) :
  StronglySorted Z.lt l →
  (∀ i, i ∈ l ↔ i ∈ pixel_color <$> pixels sfc) →
  color_keys (colors (count_colors sfc)) = l.
Proof.
  intros Hl Hel. apply color_keys_unique; [done|]. intros i.
  rewrite <-elem_of_color_keys, color_keys_image. apply Hel.
Qed.

Lemma color_lines_keys c cpp : color_lines c cpp = color_entry c cpp <$> color_keys c.
Proof. reflexivity. Qed.

(** The encoder on an image whose colors are listed in [keys]: the
    color-table loop over [0 .. MAX_COL] is replaced by that list. *)
Lemma write_to_xpm_mem_eval mem sfc caller cpp (keys : list Z) (doc : string) :
  readable sfc = true →
  0 ≤ sfc_width sfc → 0 ≤ sfc_height sfc →
  num_chars_per_pixel (ncols (count_colors sfc)) = Some cpp → cpp ≤ 4 →
  xpm_size_exact (sfc_width sfc) (sfc_height sfc) (ncols (count_colors sfc)) cpp
    ≤ INT_MAX →
  calloc_ok mem = true →
  malloc_ok mem (xpm_size_exact (sfc_width sfc) (sfc_height sfc)
                   (ncols (count_colors sfc)) cpp) = true →
  StronglySorted Z.lt keys →
  (∀ i, i ∈ keys ↔ i ∈ pixel_color <$> pixels sfc) →
  doc = header (sfc_width sfc) (sfc_height sfc) (ncols (count_colors sfc)) cpp
        +:+ cat (quoted_line <$> (color_entry (colors (count_colors sfc)) cpp <$> keys))
        +:+ cat (quoted_line <$> pixel_rows sfc (colors (count_colors sfc)) cpp)
        +:+ LF +:+ "};" +:+ LF →
  cairo_image_surface_write_to_xpm_mem mem (ImageSurface sfc) caller
  = Some (CAIRO_STATUS_SUCCESS, {| op_data := Some doc; op_len := slen doc |}).
Proof.
  intros Hread HW HH Hcpp Hsmall Hfit Hcalloc Hmalloc Hsorted Hkeys ->.
  rewrite (write_to_xpm_mem_success mem sfc caller cpp) by assumption.
  unfold document_text. rewrite color_lines_keys.
  by rewrite (color_keys_of_image sfc keys).
Qed.

(** Evaluates the encoder, with both allocations granted, on a sample
    surface of symbol width [cpp] and colors [keys]. *)
Ltac eval_document cpp keys :=
  apply (write_to_xpm_mem_eval always_ok _ _ cpp keys);
  [ vm_compute; reflexivity
  | simpl; lia | simpl; lia | vm_compute; reflexivity | lia
  | vm_compute; discriminate | reflexivity | reflexivity
  | repeat constructor
  | intros ?i;
    match goal with
    | |- _ ↔ _ ∈ ?l => let l' := eval vm_compute in l in change l with l'
    end;
    rewrite ?elem_of_cons, ?elem_of_nil; lia
  | vm_compute; reflexivity ].

(** Scenario B of the specification: the 2x1 image of an opaque blue
    pixel and a pixel of alpha 0x10. *)
Lemma blue_clear_document :
  cairo_image_surface_write_to_xpm_mem always_ok (ImageSurface sfc_blue_clear) stale
  = Some (CAIRO_STATUS_SUCCESS, blue_clear_out).
Proof. eval_document 1 [0x0000ff; 0x1000000]. Qed.

Lemma blue_clear_document_from caller :
  cairo_image_surface_write_to_xpm_mem always_ok (ImageSurface sfc_blue_clear) caller
  = Some (CAIRO_STATUS_SUCCESS, blue_clear_out).
Proof. eval_document 1 [0x0000ff; 0x1000000]. Qed.

(** Scenario A of the specification: one opaque red pixel. *)
Lemma red_document :
  cairo_image_surface_write_to_xpm_mem always_ok (ImageSurface sfc_red) stale
  = Some (CAIRO_STATUS_SUCCESS,
          {| op_data :=
               Some (header 1 1 1 1 +:+ quoted_line "A c #ff0000"
                     +:+ quoted_line "A" +:+ LF +:+ "};" +:+ LF);
             op_len := 70 |}).
Proof. eval_document 1 [0xff0000]. Qed.

Lemma swapped_document :
  cairo_image_surface_write_to_xpm_mem always_ok (ImageSurface sfc_swapped) stale
  = Some (CAIRO_STATUS_SUCCESS, swapped_out).
Proof. eval_document 1 [1; 2]. Qed.

Lemma empty_rows_document :
  cairo_image_surface_write_to_xpm_mem always_ok (ImageSurface sfc_empty_rows) stale
  = Some (CAIRO_STATUS_SUCCESS, empty_rows_out).
Proof. eval_document 0 (@nil Z). Qed.

(** ** The claims on the emitted document *)

(** C4.  In the document of a successful call every pixel-row string has
    exactly [W * cpp] characters: the symbols of the row's pixels from
    left to right, each the encoding in [cpp] characters of the pixel's
    palette index minus one; that index lies in [0, 64^cpp), and the
    symbol at position [k] is the character of the alphabet
    [A-Z a-z 0-9 + /] for the base-64 digit of weight [64^(cpp-1-k)]. *)
Theorem pixel_rows_encoding (mem : allocator) (input : cairo_surface)
    (caller out : out_params) (sfc : surface)
    (Hsfc : surface_of input = Some sfc) (HW : 0 ≤ sfc_width sfc)
    (Hok : cairo_image_surface_write_to_xpm_mem mem input caller
           = Some (CAIRO_STATUS_SUCCESS, out)) :
  ∃ cpp,
    num_chars_per_pixel (ncols (count_colors sfc)) = Some cpp
    ∧ let p := count_colors sfc in
      let c := colors p in
      op_data out
      = Some (header (sfc_width sfc) (sfc_height sfc) (ncols p) cpp
              +:+ cat (quoted_line <$> color_lines c cpp)
              +:+ cat (quoted_line <$> pixel_rows sfc c cpp)
              +:+ LF +:+ "};" +:+ LF)
      ∧ pixel_rows sfc c cpp
        = (λ y, cat ((λ x, col_encode_base64 (pixel_index sfc c x y) cpp)
                       <$> seqZ 0 (sfc_width sfc)))
            <$> seqZ 0 (sfc_height sfc)
      ∧ Forall (λ row, slen row = sfc_width sfc * cpp) (pixel_rows sfc c cpp)
      ∧ ∀ x y, 0 ≤ x < sfc_width sfc → 0 ≤ y < sfc_height sfc →
          let col := cairo_image_surface_get_argb24_pixel sfc x y in
          pixel_index sfc c x y = colors_at c (pixel_color col) - 1
          ∧ 0 ≤ pixel_index sfc c x y < 64 ^ cpp
          ∧ ∀ k, 0 ≤ k < cpp →
              String.get (Z.to_nat k) (col_encode_base64 (pixel_index sfc c x y) cpp)
              = Some (char_at ctbl ((pixel_index sfc c x y / 64 ^ (cpp - 1 - k)) mod 64)).
Proof.
  apply write_to_xpm_mem_inv in Hok as [[? _]|(_ & sfc' & cpp & Hsfc' & Hcpp & -> & _)];
    [done|].
  assert (sfc' = sfc) as -> by congruence.
  destruct (num_chars_per_pixel_ncols sfc) as (cpp' & Hcpp' & Hr & _).
  assert (cpp' = cpp) as -> by congruence.
  exists cpp. split; [exact Hcpp|]. cbv zeta.
  split; [reflexivity|]. split; [reflexivity|]. split.
  - unfold pixel_rows. apply Forall_fmap, Forall_true. intros y. unfold compose.
    apply slen_row_symbols; lia.
  - intros x y Hx Hy.
    destruct (pixel_index_range sfc cpp x y Hx Hy Hcpp) as (Hidx & _ & Hrange).
    split; [exact Hidx|]. split; [exact Hrange|].
    intros k Hk. by apply col_encode_base64_get.
Qed.

Lemma pixel_rows_encoding_witness :
  (surface_of (ImageSurface sfc_blue_clear) = Some sfc_blue_clear
   ∧ 0 ≤ sfc_width sfc_blue_clear
   ∧ cairo_image_surface_write_to_xpm_mem always_ok (ImageSurface sfc_blue_clear) stale
     = Some (CAIRO_STATUS_SUCCESS, blue_clear_out))
  ∧ ∃ cpp,
      num_chars_per_pixel (ncols (count_colors sfc_blue_clear)) = Some cpp
      ∧ Forall (λ row, slen row = sfc_width sfc_blue_clear * cpp)
               (pixel_rows sfc_blue_clear (colors (count_colors sfc_blue_clear)) cpp).
Proof.
  assert (0 ≤ sfc_width sfc_blue_clear) as HW by (simpl; lia).
  split; [split_and!; [reflexivity|exact HW|exact blue_clear_document]|].
  destruct (pixel_rows_encoding always_ok (ImageSurface sfc_blue_clear) stale
              blue_clear_out sfc_blue_clear eq_refl HW blue_clear_document)
    as (cpp & Hcpp & _ & _ & Hrows & _).
  exists cpp. split; [exact Hcpp|exact Hrows].
Defined.

(** C9.  A call of the to-memory variant that returns an error leaves
    NULL in [*data] and 0 in [*len], whatever the caller had there.  The
    to-stream variant returns exactly when the encoder does.  When the
    encoder fails it returns the encoder's status and makes no call of
    [write_func]; when the encoder succeeds it calls [write_func] once,
    with the complete document and its length, and returns what that
    call returns.  So every run makes at most one call, and only with
    the complete document. *)
Theorem no_partial_output (mem : allocator) (input : cairo_surface)
    (caller : out_params) (write_func : cairo_write_func_t) :
  let encoded :=
    cairo_image_surface_write_to_xpm_mem mem input {| op_data := None; op_len := 0 |} in
  let streamed := cairo_image_surface_write_to_xpm_stream mem input write_func in
  (∀ st out,
     cairo_image_surface_write_to_xpm_mem mem input caller = Some (st, out) →
     st ≠ CAIRO_STATUS_SUCCESS → op_data out = None ∧ op_len out = 0)
  ∧ (is_Some streamed ↔ is_Some encoded)
  ∧ (∀ e out,
       encoded = Some (e, out) → e ≠ CAIRO_STATUS_SUCCESS → streamed = Some (e, []))
  ∧ (∀ out,
       encoded = Some (CAIRO_STATUS_SUCCESS, out) →
       streamed = Some (write_func (op_data out) (op_len out),
                        [(op_data out, op_len out)])
       ∧ ∃ sfc cpp,
           surface_of input = Some sfc
           ∧ num_chars_per_pixel (ncols (count_colors sfc)) = Some cpp
           ∧ op_data out = Some (document_text sfc (count_colors sfc) cpp)
           ∧ op_len out = slen (document_text sfc (count_colors sfc) cpp))
  ∧ (∀ st calls,
       streamed = Some (st, calls) →
       (length calls ≤ 1)%nat
       ∧ (∀ e out,
            encoded = Some (e, out) →
            e ≠ CAIRO_STATUS_SUCCESS → st = e ∧ calls = [])
       ∧ (∀ data len, (data, len) ∈ calls →
            calls = [(data, len)] ∧ st = write_func data len
            ∧ ∃ sfc cpp,
                surface_of input = Some sfc
                ∧ num_chars_per_pixel (ncols (count_colors sfc)) = Some cpp
                ∧ encoded
                  = Some (CAIRO_STATUS_SUCCESS, {| op_data := data; op_len := len |})
                ∧ data = Some (document_text sfc (count_colors sfc) cpp)
                ∧ len = slen (document_text sfc (count_colors sfc) cpp))).
Proof.
  cbv zeta. split; [|split; [|split; [|split]]].
  - intros st out [[_ ->]|[-> _]]%write_to_xpm_mem_inv Hst; done.
  - unfold cairo_image_surface_write_to_xpm_stream.
    destruct (cairo_image_surface_write_to_xpm_mem mem input _)
      as [[e out]|]; cbn [mbind option_bind fst snd].
    + case_decide; split; eauto.
    + split; intros [? ?]; done.
  - intros e out Hmem He. unfold cairo_image_surface_write_to_xpm_stream.
    rewrite Hmem. cbn [mbind option_bind fst snd]. by rewrite decide_True.
  - intros out Hmem.
    pose proof Hmem as [[? _]|(_ & sfc & cpp & Hsfc & Hcpp & -> & Hfit)]%write_to_xpm_mem_inv;
      [done|]. cbn [op_data op_len] in *.
    pose proof (slen_nonneg (document_text sfc (count_colors sfc) cpp)).
    pose proof (wrap32_range (xpm_size (sfc_width sfc) (sfc_height sfc)
                                (ncols (count_colors sfc)) cpp)).
    split; [|exists sfc, cpp; split_and!; done].
    unfold cairo_image_surface_write_to_xpm_stream.
    rewrite Hmem. cbn [mbind option_bind fst snd op_data op_len].
    rewrite decide_False by (intros Hne; by apply Hne).
    rewrite Z.mod_small by lia. reflexivity.
  - intros st calls. unfold cairo_image_surface_write_to_xpm_stream.
    destruct (cairo_image_surface_write_to_xpm_mem mem input _)
      as [[e out]|] eqn:Hmem; cbn [mbind option_bind fst snd]; [|done].
    case_decide as He.
    + intros [= <- <-]. split_and!; [simpl; lia| |by intros ? ? ?%elem_of_nil].
      by intros e' out' [= <- <-] _.
    + subst e. intros [= <- <-].
      split_and!; [simpl; lia|by intros e' out' [= <- <-]|].
      intros data len [= -> ->]%list_elem_of_singleton.
      pose proof Hmem as [[? _]|(_ & sfc & cpp & Hsfc & Hcpp & -> & Hfit)]%write_to_xpm_mem_inv;
        [done|]. cbn [op_data op_len] in *.
      pose proof (slen_nonneg (document_text sfc (count_colors sfc) cpp)).
      pose proof (wrap32_range (xpm_size (sfc_width sfc) (sfc_height sfc)
                                  (ncols (count_colors sfc)) cpp)).
      rewrite Z.mod_small by lia. split_and!; try done.
      exists sfc, cpp. split_and!; done.
Qed.

(** On a surface that cannot be converted the stream variant returns
    [CAIRO_STATUS_INVALID_FORMAT] without a call; on the 2x1 image it
    makes its one call, with the document. *)
Lemma no_partial_output_witness :
  cairo_image_surface_write_to_xpm_stream always_ok (OtherSurface None)
    (λ _ _, CAIRO_STATUS_SUCCESS)
  = Some (CAIRO_STATUS_INVALID_FORMAT, [])
  ∧ cairo_image_surface_write_to_xpm_stream always_ok (ImageSurface sfc_blue_clear)
      (λ _ _, CAIRO_STATUS_WRITE_ERROR)
    = Some (CAIRO_STATUS_WRITE_ERROR, [(op_data blue_clear_out, op_len blue_clear_out)]).
Proof.
  split.
  - apply (proj1 (proj2 (proj2 (no_partial_output always_ok (OtherSurface None) stale
                                  (λ _ _, CAIRO_STATUS_SUCCESS))))
             CAIRO_STATUS_INVALID_FORMAT {| op_data := None; op_len := 0 |});
      [reflexivity|discriminate].
  - apply (proj1 (proj2 (proj2 (proj2
             (no_partial_output always_ok (ImageSurface sfc_blue_clear) stale
                (λ _ _, CAIRO_STATUS_WRITE_ERROR))))) blue_clear_out).
    exact (blue_clear_document_from {| op_data := None; op_len := 0 |}).
Defined.


Lemma color_entry_marker c cpp i :
  color_entry c cpp i
  = col_encode_base64 (wrap32 (colors_at c i - 1)) cpp
    +:+ (if i <? MAX_COL then " c #" +:+ col_encode_html i else " c None").
Proof. unfold color_entry. by destruct (i <? MAX_COL). Qed.

Lemma color_keys_last c :
  MAX_COL ∈ color_keys c → last (color_keys c) = Some MAX_COL.
Proof.
  intros Hin. pose proof (color_keys_sorted c) as Hsorted.
  assert (∀ i, i ∈ color_keys c → i ≤ MAX_COL) as Hle
    by (intros i [? _]%elem_of_color_keys; lia).
  destruct (color_keys c) as [|k ks _] using rev_ind; [by apply elem_of_nil in Hin|].
  rewrite last_snoc. f_equal.
  apply elem_of_app in Hin as [Hin|Hin%list_elem_of_singleton]; [|done].
  pose proof (StronglySorted_app_1_elem_of Z.lt ks [k] MAX_COL k Hsorted Hin) as Hlt.
  specialize (Hlt ltac:(by left)).
  specialize (Hle k ltac:(apply elem_of_app; right; by left)). lia.
Qed.

(** C10.  In the document of a successful call the color-table lines
    are those of the colors of the image in ascending order of the key
    under which they are stored: the 24-bit value of an opaque color,
    which the line shows as [#rrggbb], and [MAX_COL = 2^24] for the
    transparent color, whose line [c None] is therefore the last line of
    the table whenever the image has a transparent pixel. *)
Theorem color_table_ascending (mem : allocator) (input : cairo_surface)
    (caller out : out_params)
    (Hok : cairo_image_surface_write_to_xpm_mem mem input caller
           = Some (CAIRO_STATUS_SUCCESS, out)) :
  ∃ sfc cpp,
    surface_of input = Some sfc
    ∧ num_chars_per_pixel (ncols (count_colors sfc)) = Some cpp
    ∧ let p := count_colors sfc in
      let c := colors p in
      op_data out
      = Some (header (sfc_width sfc) (sfc_height sfc) (ncols p) cpp
              +:+ cat (quoted_line <$> color_lines c cpp)
              +:+ cat (quoted_line <$> pixel_rows sfc c cpp)
              +:+ LF +:+ "};" +:+ LF)
      ∧ color_lines c cpp = color_entry c cpp <$> color_keys c
      ∧ StronglySorted Z.lt (color_keys c)
      ∧ (∀ i, i ∈ color_keys c ↔ i ∈ pixel_color <$> pixels sfc)
      ∧ (∀ i, i ∈ color_keys c → i ≠ MAX_COL →
           0 ≤ i < 2 ^ 24
           ∧ color_entry c cpp i
             = col_encode_base64 (colors_at c i - 1) cpp
               +:+ " c #" +:+ col_encode_html i)
      ∧ (MAX_COL ∈ color_keys c →
           last (color_keys c) = Some MAX_COL
           ∧ color_entry c cpp MAX_COL
             = col_encode_base64 (colors_at c MAX_COL - 1) cpp +:+ " c None").
Proof.
  apply write_to_xpm_mem_inv in Hok as [[? _]|(_ & sfc & cpp & Hsfc & Hcpp & -> & _)];
    [done|].
  exists sfc, cpp. split; [done|]. split; [done|]. cbv zeta.
  pose proof (ncols_range sfc) as Hn. unfold MAX_COL in Hn.
  assert (∀ i, i ∈ color_keys (colors (count_colors sfc)) →
            wrap32 (colors_at (colors (count_colors sfc)) i - 1)
            = colors_at (colors (count_colors sfc)) i - 1) as Hwrap.
  { intros i Hi%color_keys_image. pose proof (palette_index_range sfc i Hi).
    apply wrap32_id. lia. }
  split_and!; try done.
  - apply color_keys_sorted.
  - apply color_keys_image.
  - intros i Hi Hne. pose proof Hi as [Hr _]%elem_of_color_keys.
    split; [unfold MAX_COL in *; lia|].
    rewrite color_entry_marker, Hwrap by done.
    destruct (Z.ltb_spec i MAX_COL); [done|lia].
  - intros Hin. split; [by apply color_keys_last|].
    rewrite color_entry_marker, Hwrap by done.
    destruct (Z.ltb_spec MAX_COL MAX_COL); [lia|done].
Qed.


Lemma color_table_ascending_witness :
  cairo_image_surface_write_to_xpm_mem always_ok (ImageSurface sfc_blue_clear) stale
  = Some (CAIRO_STATUS_SUCCESS, blue_clear_out)
  ∧ ∃ sfc cpp,
      surface_of (ImageSurface sfc_blue_clear) = Some sfc
      ∧ num_chars_per_pixel (ncols (count_colors sfc)) = Some cpp
      ∧ StronglySorted Z.lt (color_keys (colors (count_colors sfc))).
Proof.
  split; [exact blue_clear_document|].
  destruct (color_table_ascending always_ok (ImageSurface sfc_blue_clear) stale
              blue_clear_out blue_clear_document)
    as (sfc & cpp & Hsfc & Hcpp & _ & _ & Hsorted & _).
  exists sfc, cpp. split; [exact Hsfc|]. split; [exact Hcpp|exact Hsorted].
Defined.

Lemma palette_indices_order seen order p :
  palette_inv seen order p →
  colors_at (colors p) <$> order = seqZ 1 (ncols p).
Proof.
  intros (Hnd & Hel & -> & Hmap & _). apply list_eq. intros i.
  rewrite list_lookup_fmap. destruct (order !! i) as [k|] eqn:Hi; simpl.
  - pose proof (lookup_lt_Some _ _ _ Hi).
    rewrite lookup_seqZ_lt by lia. f_equal. unfold colors_at.
    assert (colors p !! k = Some (Z.of_nat i + 1)) as -> by (apply Hmap; eauto).
    simpl. lia.
  - apply lookup_ge_None in Hi. by rewrite lookup_seqZ_ge by lia.
Qed.

(** C6, as the code has it.  The color-table lines of the document are
    emitted in ascending order of the color key (24-bit value, the
    transparent key last), one line per palette entry, whatever the
    palette indices are: the symbol field of the line of color [i]
    encodes [colors[i] - 1], and over the table these indices are
    [0 .. ncols - 1], each once, in the order of their colors. *)
Theorem color_table_by_color (mem : allocator) (input : cairo_surface)
    (caller out : out_params)
    (Hok : cairo_image_surface_write_to_xpm_mem mem input caller
           = Some (CAIRO_STATUS_SUCCESS, out)) :
  ∃ sfc cpp,
    surface_of input = Some sfc
    ∧ num_chars_per_pixel (ncols (count_colors sfc)) = Some cpp
    ∧ let p := count_colors sfc in
      let c := colors p in
      op_data out = Some (document_text sfc p cpp)
      ∧ color_lines c cpp
        = (λ i, col_encode_base64 (colors_at c i - 1) cpp
                +:+ (if i <? MAX_COL then " c #" +:+ col_encode_html i
                     else " c None")) <$> color_keys c
      ∧ StronglySorted Z.lt (color_keys c)
      ∧ Z.of_nat (length (color_lines c cpp)) = ncols p
      ∧ (λ i, colors_at c i - 1) <$> color_keys c ≡ₚ seqZ 0 (ncols p).
Proof.
  apply write_to_xpm_mem_inv in Hok as [[? _]|(_ & sfc & cpp & Hsfc & Hcpp & -> & _)];
    [done|].
  exists sfc, cpp. split; [done|]. split; [done|]. cbv zeta.
  pose proof (ncols_range sfc) as Hn. unfold MAX_COL in Hn.
  split_and!; try done.
  - unfold color_lines. apply list_fmap_ext. intros _ i Hi%list_elem_of_lookup_2.
    apply color_keys_image in Hi. pose proof (palette_index_range sfc i Hi).
    rewrite color_entry_marker, wrap32_id by lia. done.
  - apply color_keys_sorted.
  - unfold color_lines. rewrite length_fmap. apply length_color_keys.
  - destruct (count_colors_inv sfc) as [order Hinv].
    rewrite (color_keys_palette _ _ _ Hinv (pixel_keys_range _)).
    replace (seqZ 0 (ncols (count_colors sfc)))
      with (seqZ (-1 + 1) (ncols (count_colors sfc))) by done.
    rewrite <-fmap_add_seqZ, <-(palette_indices_order _ _ _ Hinv), <-list_fmap_compose.
    assert ((λ i, colors_at (colors (count_colors sfc)) i - 1) <$> order
            = Z.add (-1) ∘ colors_at (colors (count_colors sfc)) <$> order) as ->;
      [|done].
    apply list_fmap_ext. intros _ k _. unfold compose. lia.
Qed.

Lemma color_table_by_color_witness :
  cairo_image_surface_write_to_xpm_mem always_ok (ImageSurface sfc_swapped) stale
  = Some (CAIRO_STATUS_SUCCESS, swapped_out)
  ∧ ∃ sfc cpp,
      surface_of (ImageSurface sfc_swapped) = Some sfc
      ∧ num_chars_per_pixel (ncols (count_colors sfc)) = Some cpp
      ∧ (λ i, colors_at (colors (count_colors sfc)) i - 1)
          <$> color_keys (colors (count_colors sfc))
        ≡ₚ seqZ 0 (ncols (count_colors sfc)).
Proof.
  split; [exact swapped_document|].
  destruct (color_table_by_color always_ok (ImageSurface sfc_swapped) stale
              swapped_out swapped_document)
    as (sfc & cpp & Hsfc & Hcpp & _ & _ & _ & _ & Hperm).
  exists sfc, cpp. split; [exact Hsfc|]. split; [exact Hcpp|exact Hperm].
Defined.

(** C6 as stated fails.  For the 2x1 image whose first pixel is
    [#000002] and whose second is [#000001], the first color-table line
    carries the symbol [B] of index 1 and the second the symbol [A] of
    index 0. *)
Lemma color_table_not_by_index :
  cairo_image_surface_write_to_xpm_mem always_ok (ImageSurface sfc_swapped) stale
  = Some (CAIRO_STATUS_SUCCESS,
          {| op_data := Some (header 2 1 2 1 +:+ quoted_line "B c #000001"
                              +:+ quoted_line "A c #000002" +:+ quoted_line "AB"
                              +:+ LF +:+ "};" +:+ LF);
             op_len := 86 |})
  ∧ color_lines (colors (count_colors sfc_swapped)) 1 = ["B c #000001"; "A c #000002"]
  ∧ (λ i, colors_at (colors (count_colors sfc_swapped)) i - 1)
      <$> color_keys (colors (count_colors sfc_swapped)) = [1; 0].
Proof.
  assert (pixel_color <$> pixels sfc_swapped = [2; 1]) as Hpix
    by (vm_compute; reflexivity).
  assert (color_keys (colors (count_colors sfc_swapped)) = [1; 2]) as Hkeys.
  { apply color_keys_of_image.
    - repeat constructor.
    - intros i. rewrite Hpix, !elem_of_cons, !elem_of_nil. lia. }
  split; [exact swapped_document|].
  rewrite color_lines_keys, Hkeys. split; vm_compute; reflexivity.
Qed.

(** ** Zero-area images *)

Lemma pixels_zero_area sfc :
  sfc_width sfc = 0 ∨ sfc_height sfc = 0 → pixels sfc = [].
Proof.
  unfold pixels. intros [->| ->]; [|done].
  induction (seqZ 0 (sfc_height sfc)) as [|y ys IH]; [done|].
  cbn [mbind list_bind]. by rewrite IH.
Qed.

Lemma color_keys_empty : color_keys ∅ = [].
Proof.
  apply color_keys_unique; [constructor|]. intros i. unfold colors_at.
  rewrite lookup_empty. simpl. split; [by intros ?%elem_of_nil|]. by intros [_ ?].
Qed.

Lemma slen_zero s : slen s = 0 → s = EmptyString.
Proof. destruct s; [done|]. unfold slen. simpl. lia. Qed.

Lemma pixel_rows_empty sfc c :
  0 ≤ sfc_width sfc → 0 ≤ sfc_height sfc →
  pixel_rows sfc c 0 = replicate (Z.to_nat (sfc_height sfc)) EmptyString.
Proof.
  intros HW HH. unfold pixel_rows. rewrite <-(length_seqZ 0 (sfc_height sfc)).
  induction (seqZ 0 (sfc_height sfc)) as [|y ys IH]; [done|].
  cbn [fmap list_fmap length replicate]. f_equal; [|apply IH].
  apply slen_zero. rewrite slen_row_symbols by lia. lia.
Qed.

(** C8, as the code has it.  For a zero-area image whose estimate
    [4 * H + 256] fits an [int], and with the two allocations granted,
    the encoder returns success with a document whose header reports
    palette size 0 and symbol width 0, with no color-table line, and
    with one empty pixel-row string for each of the [H] rows: none when
    [H = 0], [H] of them when only [W = 0]. *)
Theorem zero_area_document (mem : allocator) (sfc : surface) (caller : out_params)
    (HW : 0 ≤ sfc_width sfc) (HH : 0 ≤ sfc_height sfc)
    (Hzero : sfc_width sfc = 0 ∨ sfc_height sfc = 0)
    (Hfit : 4 * sfc_height sfc + 256 ≤ INT_MAX)
    (Hcalloc : calloc_ok mem = true)
    (Hmalloc : malloc_ok mem (4 * sfc_height sfc + 256) = true) :
  let p := count_colors sfc in
  let rows := replicate (Z.to_nat (sfc_height sfc)) EmptyString in
  let doc := header (sfc_width sfc) (sfc_height sfc) 0 0
             +:+ cat (quoted_line <$> rows) +:+ LF +:+ "};" +:+ LF in
  ncols p = 0
  ∧ num_chars_per_pixel (ncols p) = Some 0
  ∧ color_lines (colors p) 0 = []
  ∧ pixel_rows sfc (colors p) 0 = rows
  ∧ cairo_image_surface_write_to_xpm_mem mem (ImageSurface sfc) caller
    = Some (CAIRO_STATUS_SUCCESS, {| op_data := Some doc; op_len := slen doc |}).
Proof.
  intros p rows doc.
  assert (p = palette_init) as Hp
    by (unfold p; by rewrite count_colors_foldl, pixels_zero_area).
  assert (xpm_size_exact (sfc_width sfc) (sfc_height sfc) 0 0
          = 4 * sfc_height sfc + 256) as Hsize by (unfold xpm_size_exact; lia).
  assert (document_text sfc p 0 = doc) as Hdoc.
  { unfold document_text, doc, rows, color_lines. rewrite Hp. cbn [colors ncols palette_init].
    by rewrite color_keys_empty, pixel_rows_empty. }
  split_and!.
  - by rewrite Hp.
  - by rewrite Hp.
  - unfold color_lines. rewrite Hp. cbn [colors palette_init].
    by rewrite color_keys_empty.
  - by apply pixel_rows_empty.
  - rewrite <-Hdoc. unfold p in *.
    apply write_to_xpm_mem_success; [by apply readable_zero_area|..];
      rewrite ?Hp; cbn [ncols palette_init]; rewrite ?Hsize; (done || lia).
Qed.

Lemma zero_area_document_witness :
  (0 ≤ sfc_width sfc_empty_rows ∧ 0 ≤ sfc_height sfc_empty_rows
   ∧ (sfc_width sfc_empty_rows = 0 ∨ sfc_height sfc_empty_rows = 0)
   ∧ 4 * sfc_height sfc_empty_rows + 256 ≤ INT_MAX
   ∧ calloc_ok always_ok = true
   ∧ malloc_ok always_ok (4 * sfc_height sfc_empty_rows + 256) = true)
  ∧ pixel_rows sfc_empty_rows (colors (count_colors sfc_empty_rows)) 0
    = [EmptyString; EmptyString].
Proof.
  assert (0 ≤ sfc_width sfc_empty_rows) as HW by (simpl; lia).
  assert (0 ≤ sfc_height sfc_empty_rows) as HH by (simpl; lia).
  assert (sfc_width sfc_empty_rows = 0 ∨ sfc_height sfc_empty_rows = 0) as Hz
    by (left; reflexivity).
  assert (4 * sfc_height sfc_empty_rows + 256 ≤ INT_MAX) as Hfit
    by (unfold INT_MAX; simpl; lia).
  split; [split_and!; (done || reflexivity)|].
  destruct (zero_area_document always_ok sfc_empty_rows stale HW HH Hz Hfit
              eq_refl eq_refl) as (_ & _ & _ & Hrows & _).
  exact Hrows.
Defined.

(** C8 as stated fails.  An image of width 0 and height 2 is encoded
    without error, and its document has two pixel-row lines, both
    empty. *)
Lemma zero_width_rows_emitted :
  cairo_image_surface_write_to_xpm_mem always_ok (ImageSurface sfc_empty_rows) stale
  = Some (CAIRO_STATUS_SUCCESS,
          {| op_data :=
               Some (header 0 2 0 0 +:+ quoted_line EmptyString
                     +:+ quoted_line EmptyString +:+ LF +:+ "};" +:+ LF);
             op_len := 58 |})
  ∧ pixel_rows sfc_empty_rows (colors (count_colors sfc_empty_rows)) 0
    = [EmptyString; EmptyString]
  ∧ length (pixel_rows sfc_empty_rows (colors (count_colors sfc_empty_rows)) 0) = 2%nat.
Proof.
  split; [exact empty_rows_document|]. split; vm_compute; reflexivity.
Qed.


(** ** Sixty-four and sixty-five colors *)

Lemma pixel_color_opaque col :
  TRANS_THRESH ≤ pixel_alpha col → pixel_color col = Z.land col 0xffffff.
Proof.
  intros Ha. unfold pixel_color. destruct (Z.ltb_spec (pixel_alpha col) TRANS_THRESH); [lia|done].
Qed.

(** C7, as the code has it.  An image with exactly 65 distinct colors,
    all opaque, has palette size 65 and symbol width 2, and each of its
    pixel-row strings has [2 * W] characters.  A palette of 64 entries
    has symbol width 2 as well: 63 is the largest palette size of symbol
    width 1. *)
Theorem sixty_five_colors (sfc : surface) (HW : 0 ≤ sfc_width sfc)
    (Hopaque : Forall (λ col, TRANS_THRESH ≤ pixel_alpha col) (pixels sfc))
    (Hdistinct : size (list_to_set (C:=gset Z)
                         ((λ col, Z.land col 0xffffff) <$> pixels sfc)) = 65%nat) :
  let p := count_colors sfc in
  ncols p = 65
  ∧ num_chars_per_pixel (ncols p) = Some 2
  ∧ Forall (λ row, slen row = 2 * sfc_width sfc) (pixel_rows sfc (colors p) 2)
  ∧ num_chars_per_pixel 64 = Some 2
  ∧ num_chars_per_pixel 63 = Some 1.
Proof.
  intros p.
  assert (ncols p = 65) as Hn.
  { unfold p. rewrite ncols_distinct.
    replace (pixel_color <$> pixels sfc)
      with ((λ col, Z.land col 0xffffff) <$> pixels sfc); [by rewrite Hdistinct|].
    apply list_fmap_ext. intros i col Hcol. symmetry. apply pixel_color_opaque.
    rewrite Forall_forall in Hopaque. apply Hopaque. by eapply list_elem_of_lookup_2. }
  split_and!; [done|by rewrite Hn| |vm_compute; reflexivity|vm_compute; reflexivity].
  unfold pixel_rows. apply Forall_fmap, Forall_true. intros y. unfold compose.
  rewrite slen_row_symbols by lia. lia.
Qed.

Lemma sixty_five_colors_witness :
  (0 ≤ sfc_width (sfc_ramp 65)
   ∧ Forall (λ col, TRANS_THRESH ≤ pixel_alpha col) (pixels (sfc_ramp 65))
   ∧ size (list_to_set (C:=gset Z)
             ((λ col, Z.land col 0xffffff) <$> pixels (sfc_ramp 65))) = 65%nat)
  ∧ ncols (count_colors (sfc_ramp 65)) = 65
  ∧ num_chars_per_pixel (ncols (count_colors (sfc_ramp 65))) = Some 2.
Proof.
  assert (0 ≤ sfc_width (sfc_ramp 65)) as HW by (simpl; lia).
  assert (Forall (λ col, TRANS_THRESH ≤ pixel_alpha col) (pixels (sfc_ramp 65)))
    as Hopaque by (apply (bool_decide_unpack _); vm_compute; exact I).
  assert (size (list_to_set (C:=gset Z)
             ((λ col, Z.land col 0xffffff) <$> pixels (sfc_ramp 65))) = 65%nat)
    as Hdistinct by (vm_compute; reflexivity).
  split; [split_and!; assumption|].
  destruct (sixty_five_colors (sfc_ramp 65) HW Hopaque Hdistinct) as (Hn & Hcpp & _).
  split; [exact Hn|exact Hcpp].
Defined.

(** C7 as stated fails.  An image with 64 distinct opaque colors has a
    palette of 64 entries, and the symbol width of a 64-entry palette is
    2, not 1: its one row has 128 characters. *)
Lemma sixty_four_colors_two_symbols :
  ncols (count_colors (sfc_ramp 64)) = 64
  ∧ num_chars_per_pixel 64 = Some 2
  ∧ slen <$> pixel_rows (sfc_ramp 64) (colors (count_colors (sfc_ramp 64))) 2 = [128].
Proof. split_and!; vm_compute; reflexivity. Qed.


(** ** Symbols of five characters *)

Lemma write_color_table_Some c cpp b b' :
  write_color_table c cpp b = Some b' → cpp + 1 ≤ 5 ∨ color_keys c = [].
Proof.
  unfold write_color_table, color_keys.
  rewrite for_loop_foldl, Z.sub_0_r, write_color_foldl.
  generalize (filter (λ i, colors_at c i ≠ 0) (seqZ 0 (MAX_COL + 1))). intros ks.
  case_decide; [left; lia|]. case_decide; [by right|done].
Qed.

Lemma write_color_table_big c cpp b :
  5 < cpp + 1 → color_keys c ≠ [] → write_color_table c cpp b = None.
Proof.
  intros Hcpp Hkeys.
  destruct (write_color_table c cpp b) as [b'|] eqn:Hb; [exfalso|reflexivity].
  apply write_color_table_Some in Hb as [?|?]; [lia|done].
Qed.

Lemma write_document_big sfc p cpp xpmsize :
  5 < cpp + 1 → color_keys (colors p) ≠ [] →
  write_document sfc p cpp xpmsize = None.
Proof.
  intros Hcpp Hkeys. unfold write_document. apply bind_None.
  destruct (xb_snprintf _ _) as [b1|]; [right|by left].
  exists b1. split; [reflexivity|].
  rewrite write_color_table_big by assumption. reflexivity.
Qed.

(** ** Size estimate and bytes emitted *)

Lemma wrap32_congr z : ∃ k, wrap32 z = z + k * 2 ^ 32.
Proof.
  exists (- ((z + 2 ^ 31) / 2 ^ 32)). unfold wrap32.
  rewrite Z.mod_eq by lia. lia.
Qed.






(** * Further properties of the code *)

(** ** The sinks: stream variant, [cj_write], file variant *)

(** What a call of the to-stream variant can return. *)
Lemma write_to_xpm_stream_inv mem input (write_func : cairo_write_func_t) st calls :
  cairo_image_surface_write_to_xpm_stream mem input write_func = Some (st, calls) →
  (∃ out,
      cairo_image_surface_write_to_xpm_mem mem input {| op_data := None; op_len := 0 |}
      = Some (st, out)
      ∧ st ≠ CAIRO_STATUS_SUCCESS ∧ calls = [])
  ∨ (∃ sfc cpp,
        surface_of input = Some sfc
        ∧ num_chars_per_pixel (ncols (count_colors sfc)) = Some cpp
        ∧ cairo_image_surface_write_to_xpm_mem mem input
            {| op_data := None; op_len := 0 |}
          = Some (CAIRO_STATUS_SUCCESS,
                  {| op_data := Some (document_text sfc (count_colors sfc) cpp);
                     op_len := slen (document_text sfc (count_colors sfc) cpp) |})
        ∧ calls = [(Some (document_text sfc (count_colors sfc) cpp),
                    slen (document_text sfc (count_colors sfc) cpp))]
        ∧ st = write_func (Some (document_text sfc (count_colors sfc) cpp))
                 (slen (document_text sfc (count_colors sfc) cpp))).
Proof.
  unfold cairo_image_surface_write_to_xpm_stream.
  destruct (cairo_image_surface_write_to_xpm_mem mem input _)
    as [[e out]|] eqn:Hmem; cbn [mbind option_bind fst snd]; [|done].
  case_decide as He.
  - intros [= <- <-]. left. by exists out.
  - subst e. intros [= <- <-]. right.
    pose proof Hmem as [[? _]|(_ & sfc & cpp & Hsfc & Hcpp & -> & Hfit)]%write_to_xpm_mem_inv;
      [done|]. cbn [op_data op_len] in *.
    pose proof (slen_nonneg (document_text sfc (count_colors sfc) cpp)).
    pose proof (wrap32_range (xpm_size (sfc_width sfc) (sfc_height sfc)
                                (ncols (count_colors sfc)) cpp)).
    rewrite Z.mod_small by lia.
    exists sfc, cpp. split_and!; done.
Qed.

(** The to-stream variant hands the complete document to [write_func]
    exactly once when the encoder succeeds, and returns what that call
    returns. *)
Lemma write_to_xpm_stream_success mem input (write_func : cairo_write_func_t) doc :
  cairo_image_surface_write_to_xpm_mem mem input {| op_data := None; op_len := 0 |}
  = Some (CAIRO_STATUS_SUCCESS, {| op_data := Some doc; op_len := slen doc |}) →
  slen doc < 2 ^ 32 →
  cairo_image_surface_write_to_xpm_stream mem input write_func
  = Some (write_func (Some doc) (slen doc), [(Some doc, slen doc)]).
Proof.
  intros Hmem Hlen. unfold cairo_image_surface_write_to_xpm_stream.
  rewrite Hmem. cbn [mbind option_bind fst snd op_data op_len].
  case_decide as He; [done|].
  pose proof (slen_nonneg doc). rewrite Z.mod_small by lia. reflexivity.
Qed.

(** A file that cannot be opened. *)
Lemma write_to_xpm_open_fails os mem input filename :
  sys_open os filename [O_WRONLY; O_CREAT] 420 = -1 →
  cairo_image_surface_write_to_xpm os mem input filename
  = Some (CAIRO_STATUS_DEVICE_ERROR, [SysOpen filename [O_WRONLY; O_CREAT] 420]).
Proof.
  unfold cairo_image_surface_write_to_xpm.
  change (Z.lor (Z.lor (Z.lor S_IRUSR S_IWUSR) S_IRGRP) S_IROTH) with 420.
  cbv zeta. intros ->. reflexivity.
Qed.

(** The file variant opens the file first and reports a failed [open] as
    [CAIRO_STATUS_DEVICE_ERROR] without running the encoder.  With the
    file open, an encoder error is returned as it is and the only other
    call is the [close]: nothing is written.  When the encoder succeeds
    there is one [write], of the complete document, followed by the
    [close]; a [write] that returns less than the length of the document
    (or -1) gives [CAIRO_STATUS_WRITE_ERROR] and is not repeated.  The
    variant returns whenever the encoder does. *)
Theorem write_to_xpm_calls (os : posix) (mem : allocator) (input : cairo_surface)
    (filename : string) :
  let open := SysOpen filename [O_WRONLY; O_CREAT] 420 in
  let fd := sys_open os filename [O_WRONLY; O_CREAT] 420 in
  let encoded :=
    cairo_image_surface_write_to_xpm_mem mem input {| op_data := None; op_len := 0 |} in
  (fd = -1 →
   cairo_image_surface_write_to_xpm os mem input filename
   = Some (CAIRO_STATUS_DEVICE_ERROR, [open]))
  ∧ (∀ e out,
       fd ≠ -1 → encoded = Some (e, out) → e ≠ CAIRO_STATUS_SUCCESS →
       cairo_image_surface_write_to_xpm os mem input filename
       = Some (e, [open; SysClose fd]))
  ∧ (∀ out,
       fd ≠ -1 → encoded = Some (CAIRO_STATUS_SUCCESS, out) →
       cairo_image_surface_write_to_xpm os mem input filename
       = Some (if sys_write os fd (op_data out) (op_len out) <? op_len out
               then CAIRO_STATUS_WRITE_ERROR else CAIRO_STATUS_SUCCESS,
               [open; SysWrite fd (op_data out) (op_len out); SysClose fd])
       ∧ ∃ sfc cpp,
           surface_of input = Some sfc
           ∧ num_chars_per_pixel (ncols (count_colors sfc)) = Some cpp
           ∧ op_data out = Some (document_text sfc (count_colors sfc) cpp)
           ∧ op_len out = slen (document_text sfc (count_colors sfc) cpp))
  ∧ (fd ≠ -1 → encoded = None →
     cairo_image_surface_write_to_xpm os mem input filename = None).
Proof.
  cbv zeta. unfold cairo_image_surface_write_to_xpm.
  change (Z.lor (Z.lor (Z.lor S_IRUSR S_IWUSR) S_IRGRP) S_IROTH) with 420.
  cbv zeta. split; [|split; [|split]].
  - intros ->. reflexivity.
  - intros e out Hfd%Z.eqb_neq Hmem He. rewrite Hfd.
    unfold cairo_image_surface_write_to_xpm_stream.
    rewrite Hmem. cbn [mbind option_bind fst snd].
    rewrite decide_True by done. reflexivity.
  - intros out Hfd%Z.eqb_neq Hmem. rewrite Hfd.
    pose proof Hmem as [[? _]|(_ & sfc & cpp & Hsfc & Hcpp & -> & Hfit)]%write_to_xpm_mem_inv;
      [done|]. cbn [op_data op_len] in *.
    pose proof (slen_nonneg (document_text sfc (count_colors sfc) cpp)).
    pose proof (wrap32_range (xpm_size (sfc_width sfc) (sfc_height sfc)
                                (ncols (count_colors sfc)) cpp)).
    split; [|exists sfc, cpp; split_and!; done].
    rewrite (write_to_xpm_stream_success mem input _ _ Hmem) by lia.
    reflexivity.
  - intros Hfd%Z.eqb_neq Hmem. rewrite Hfd.
    unfold cairo_image_surface_write_to_xpm_stream. rewrite Hmem. reflexivity.
Qed.

(** With the file open and a surface that cannot be converted, the calls
    are the [open] and the [close]. *)
Lemma write_to_xpm_calls_witness :
  cairo_image_surface_write_to_xpm os_short always_ok (OtherSurface None) "out.xpm"
  = Some (CAIRO_STATUS_INVALID_FORMAT,
          [SysOpen "out.xpm" [O_WRONLY; O_CREAT] 420; SysClose 3]).
Proof.
  apply (proj1 (proj2 (write_to_xpm_calls os_short always_ok (OtherSurface None)
                         "out.xpm"))
           CAIRO_STATUS_INVALID_FORMAT {| op_data := None; op_len := 0 |});
    [cbn [os_short sys_open]; lia|reflexivity|discriminate].
Defined.

(** A surface that had to be converted is encoded as the converted image
    surface is. *)
Lemma write_to_xpm_mem_surface mem input sfc caller :
  surface_of input = Some sfc →
  cairo_image_surface_write_to_xpm_mem mem input caller
  = cairo_image_surface_write_to_xpm_mem mem (ImageSurface sfc) caller.
Proof.
  unfold cairo_image_surface_write_to_xpm_mem. cbn [surface_of].
  intros ->. reflexivity.
Qed.

(** ** Success of the encoder *)

Lemma write_to_xpm_mem_success_input mem input caller sfc cpp :
  surface_of input = Some sfc →
  readable sfc = true →
  0 ≤ sfc_width sfc → 0 ≤ sfc_height sfc →
  num_chars_per_pixel (ncols (count_colors sfc)) = Some cpp →
  ncols (count_colors sfc) < 2 ^ 24 →
  xpm_size_exact (sfc_width sfc) (sfc_height sfc) (ncols (count_colors sfc)) cpp
    ≤ INT_MAX →
  calloc_ok mem = true →
  malloc_ok mem (xpm_size_exact (sfc_width sfc) (sfc_height sfc)
                   (ncols (count_colors sfc)) cpp) = true →
  cairo_image_surface_write_to_xpm_mem mem input caller
  = Some (CAIRO_STATUS_SUCCESS,
          {| op_data := Some (document_text sfc (count_colors sfc) cpp);
             op_len := slen (document_text sfc (count_colors sfc) cpp) |}).
Proof.
  intros Hsfc Hread HW HH Hcpp Hn Hfit Hcalloc Hmalloc.
  destruct (num_chars_per_pixel_ncols sfc) as (cpp' & Hcpp' & Hr & Hsmall & _).
  assert (cpp' = cpp) as -> by congruence.
  rewrite (write_to_xpm_mem_surface mem input sfc caller Hsfc).
  apply write_to_xpm_mem_success; try assumption. by apply Hsmall.
Qed.

(** The to-memory variant succeeds on every image that the counting
    loops can read, of fewer than [2^24] palette entries, whose exact
    size estimate fits an [int], once both allocations are granted: it returns [CAIRO_STATUS_SUCCESS], the whole
    document in [*data] and in [*len] the length of that text, which
    with its NUL fits the buffer requested. *)
Theorem write_to_xpm_mem_succeeds (mem : allocator) (input : cairo_surface)
    (caller : out_params) (sfc : surface) (cpp : Z)
    (Hsfc : surface_of input = Some sfc)
    (Hread : readable sfc = true)
    (HW : 0 ≤ sfc_width sfc) (HH : 0 ≤ sfc_height sfc)
    (Hcpp : num_chars_per_pixel (ncols (count_colors sfc)) = Some cpp)
    (Hn : ncols (count_colors sfc) < 2 ^ 24)
    (Hfit : xpm_size_exact (sfc_width sfc) (sfc_height sfc)
              (ncols (count_colors sfc)) cpp ≤ INT_MAX)
    (Hcalloc : calloc_ok mem = true)
    (Hmalloc : malloc_ok mem (xpm_size_exact (sfc_width sfc) (sfc_height sfc)
                                (ncols (count_colors sfc)) cpp) = true) :
  let doc := document_text sfc (count_colors sfc) cpp in
  cairo_image_surface_write_to_xpm_mem mem input caller
  = Some (CAIRO_STATUS_SUCCESS, {| op_data := Some doc; op_len := slen doc |})
  ∧ slen doc + 1 ≤ xpm_size_exact (sfc_width sfc) (sfc_height sfc)
                     (ncols (count_colors sfc)) cpp.
Proof.
  cbv zeta. split.
  - by apply write_to_xpm_mem_success_input.
  - destruct (num_chars_per_pixel_ncols sfc) as (cpp' & Hcpp' & Hr & _).
    assert (cpp' = cpp) as -> by congruence.
    pose proof (ncols_range sfc) as Hrange.
    pose proof (slen_document_text sfc cpp ltac:(lia) HW HH) as Hlen.
    cbv zeta in Hlen. unfold xpm_size_exact. nia.
Qed.

Lemma write_to_xpm_mem_succeeds_witness :
  (surface_of (OtherSurface (Some sfc_blue_clear)) = Some sfc_blue_clear
   ∧ readable sfc_blue_clear = true
   ∧ 0 ≤ sfc_width sfc_blue_clear ∧ 0 ≤ sfc_height sfc_blue_clear
   ∧ num_chars_per_pixel (ncols (count_colors sfc_blue_clear)) = Some 1
   ∧ ncols (count_colors sfc_blue_clear) < 2 ^ 24
   ∧ xpm_size_exact (sfc_width sfc_blue_clear) (sfc_height sfc_blue_clear)
       (ncols (count_colors sfc_blue_clear)) 1 ≤ INT_MAX
   ∧ calloc_ok always_ok = true
   ∧ malloc_ok always_ok
       (xpm_size_exact (sfc_width sfc_blue_clear) (sfc_height sfc_blue_clear)
          (ncols (count_colors sfc_blue_clear)) 1) = true)
  ∧ cairo_image_surface_write_to_xpm_mem always_ok
      (OtherSurface (Some sfc_blue_clear)) stale
    = Some (CAIRO_STATUS_SUCCESS,
            {| op_data :=
                 Some (document_text sfc_blue_clear (count_colors sfc_blue_clear) 1);
               op_len :=
                 slen (document_text sfc_blue_clear (count_colors sfc_blue_clear) 1) |}).
Proof.
  assert (readable sfc_blue_clear = true) as Hread by (vm_compute; reflexivity).
  assert (0 ≤ sfc_width sfc_blue_clear) as HW by (simpl; lia).
  assert (0 ≤ sfc_height sfc_blue_clear) as HH by (simpl; lia).
  assert (num_chars_per_pixel (ncols (count_colors sfc_blue_clear)) = Some 1) as Hcpp
    by (vm_compute; reflexivity).
  assert (ncols (count_colors sfc_blue_clear) < 2 ^ 24) as Hn
    by (vm_compute; reflexivity).
  assert (xpm_size_exact (sfc_width sfc_blue_clear) (sfc_height sfc_blue_clear)
            (ncols (count_colors sfc_blue_clear)) 1 ≤ INT_MAX) as Hfit
    by (vm_compute; discriminate).
  split; [split_and!; (assumption || reflexivity)|].
  exact (proj1 (write_to_xpm_mem_succeeds always_ok (OtherSurface (Some sfc_blue_clear))
                  stale sfc_blue_clear 1 eq_refl Hread HW HH Hcpp Hn Hfit
                  eq_refl eq_refl)).
Defined.

(** The file variant succeeds when the file can be opened, the image
    can be read and encoded (as for the to-memory variant) and [write]
    takes the whole document: the system calls are
    then one [open], one [write] of the document and one [close].  With
    a [write] that takes less, the calls are the same and the status is
    [CAIRO_STATUS_WRITE_ERROR]. *)
Theorem write_to_xpm_succeeds (os : posix) (mem : allocator) (input : cairo_surface)
    (filename : string) (sfc : surface) (cpp : Z)
    (Hsfc : surface_of input = Some sfc)
    (Hread : readable sfc = true)
    (HW : 0 ≤ sfc_width sfc) (HH : 0 ≤ sfc_height sfc)
    (Hcpp : num_chars_per_pixel (ncols (count_colors sfc)) = Some cpp)
    (Hn : ncols (count_colors sfc) < 2 ^ 24)
    (Hfit : xpm_size_exact (sfc_width sfc) (sfc_height sfc)
              (ncols (count_colors sfc)) cpp ≤ INT_MAX)
    (Hcalloc : calloc_ok mem = true)
    (Hmalloc : malloc_ok mem (xpm_size_exact (sfc_width sfc) (sfc_height sfc)
                                (ncols (count_colors sfc)) cpp) = true)
    (Hopen : sys_open os filename [O_WRONLY; O_CREAT] 420 ≠ -1) :
  let doc := document_text sfc (count_colors sfc) cpp in
  let fd := sys_open os filename [O_WRONLY; O_CREAT] 420 in
  let calls := [SysOpen filename [O_WRONLY; O_CREAT] 420;
                SysWrite fd (Some doc) (slen doc); SysClose fd] in
  (slen doc ≤ sys_write os fd (Some doc) (slen doc) →
   cairo_image_surface_write_to_xpm os mem input filename
   = Some (CAIRO_STATUS_SUCCESS, calls))
  ∧ (sys_write os fd (Some doc) (slen doc) < slen doc →
     cairo_image_surface_write_to_xpm os mem input filename
     = Some (CAIRO_STATUS_WRITE_ERROR, calls)).
Proof.
  cbv zeta.
  pose proof (write_to_xpm_mem_success_input mem input
                {| op_data := None; op_len := 0 |}
                sfc cpp Hsfc Hread HW HH Hcpp Hn Hfit Hcalloc Hmalloc) as Hmem.
  assert (slen (document_text sfc (count_colors sfc) cpp) < 2 ^ 31) as Hlen.
  { pose proof Hmem as [[? _]|(_ & sfc' & cpp' & _ & _ & Hrec & Hlt)]%write_to_xpm_mem_inv;
      [done|]. apply (f_equal op_len) in Hrec. cbn [op_len] in Hrec. rewrite Hrec.
    pose proof (wrap32_range (xpm_size (sfc_width sfc') (sfc_height sfc')
                                (ncols (count_colors sfc')) cpp')). lia. }
  assert (cairo_image_surface_write_to_xpm os mem input filename
          = Some (cj_write os (sys_open os filename [O_WRONLY; O_CREAT] 420)
                    (Some (document_text sfc (count_colors sfc) cpp))
                    (slen (document_text sfc (count_colors sfc) cpp)),
                  [SysOpen filename [O_WRONLY; O_CREAT] 420;
                   SysWrite (sys_open os filename [O_WRONLY; O_CREAT] 420)
                     (Some (document_text sfc (count_colors sfc) cpp))
                     (slen (document_text sfc (count_colors sfc) cpp));
                   SysClose (sys_open os filename [O_WRONLY; O_CREAT] 420)])) as ->.
  { unfold cairo_image_surface_write_to_xpm.
    change (Z.lor (Z.lor (Z.lor S_IRUSR S_IWUSR) S_IRGRP) S_IROTH) with 420.
    cbv zeta. apply Z.eqb_neq in Hopen. rewrite Hopen.
    rewrite (write_to_xpm_stream_success mem input _ _ Hmem) by lia.
    reflexivity. }
  unfold cj_write. split; intros Hw.
  - apply Z.ltb_ge in Hw. by rewrite Hw.
  - apply Z.ltb_lt in Hw. by rewrite Hw.
Qed.

Lemma write_to_xpm_succeeds_witness :
  (surface_of (ImageSurface sfc_blue_clear) = Some sfc_blue_clear
   ∧ readable sfc_blue_clear = true
   ∧ 0 ≤ sfc_width sfc_blue_clear ∧ 0 ≤ sfc_height sfc_blue_clear
   ∧ num_chars_per_pixel (ncols (count_colors sfc_blue_clear)) = Some 1
   ∧ ncols (count_colors sfc_blue_clear) < 2 ^ 24
   ∧ xpm_size_exact (sfc_width sfc_blue_clear) (sfc_height sfc_blue_clear)
       (ncols (count_colors sfc_blue_clear)) 1 ≤ INT_MAX
   ∧ calloc_ok always_ok = true
   ∧ malloc_ok always_ok
       (xpm_size_exact (sfc_width sfc_blue_clear) (sfc_height sfc_blue_clear)
          (ncols (count_colors sfc_blue_clear)) 1) = true
   ∧ sys_open os_short "out.xpm" [O_WRONLY; O_CREAT] 420 ≠ -1)
  ∧ cairo_image_surface_write_to_xpm os_short always_ok (ImageSurface sfc_blue_clear)
      "out.xpm"
    = Some (CAIRO_STATUS_WRITE_ERROR,
            [SysOpen "out.xpm" [O_WRONLY; O_CREAT] 420;
             SysWrite 3
               (Some (document_text sfc_blue_clear (count_colors sfc_blue_clear) 1))
               (slen (document_text sfc_blue_clear (count_colors sfc_blue_clear) 1));
             SysClose 3]).
Proof.
  assert (readable sfc_blue_clear = true) as Hread by (vm_compute; reflexivity).
  assert (0 ≤ sfc_width sfc_blue_clear) as HW by (simpl; lia).
  assert (0 ≤ sfc_height sfc_blue_clear) as HH by (simpl; lia).
  assert (num_chars_per_pixel (ncols (count_colors sfc_blue_clear)) = Some 1) as Hcpp
    by (vm_compute; reflexivity).
  assert (ncols (count_colors sfc_blue_clear) < 2 ^ 24) as Hn
    by (vm_compute; reflexivity).
  assert (xpm_size_exact (sfc_width sfc_blue_clear) (sfc_height sfc_blue_clear)
            (ncols (count_colors sfc_blue_clear)) 1 ≤ INT_MAX) as Hfit
    by (vm_compute; discriminate).
  assert (sys_open os_short "out.xpm" [O_WRONLY; O_CREAT] 420 ≠ -1) as Hopen
    by (cbn [os_short sys_open]; lia).
  split; [split_and!; (assumption || reflexivity)|].
  refine (proj2 (write_to_xpm_succeeds os_short always_ok (ImageSurface sfc_blue_clear)
                   "out.xpm" sfc_blue_clear 1 eq_refl Hread HW HH Hcpp Hn Hfit
                   eq_refl eq_refl Hopen) _).
  apply (Z.lt_pred_l
           (slen (document_text sfc_blue_clear (count_colors sfc_blue_clear) 1))).
Defined.

(** ** The command-line tool *)

(** Called without an input file the tool prints the usage line, naming
    itself, on stderr and returns 1.  Called with an input file it
    returns 0 from every run that ends, and prints nothing on stderr:
    the status of the export is not looked at, so that a file that could
    not be opened gives the same exit code as a successful export.  With
    an output file name nothing goes to stdout, the system calls are
    those of the file variant on that name, and further arguments are
    ignored. *)
Theorem main_exit_status (os : posix) (mem : allocator) (png : string → cairo_surface)
    (locals : out_params) (argv : list string) :
  (∀ prog, argv = [prog] →
     main os mem png locals argv
     = Some {| exit_code := 1; out_stdout := EmptyString;
               out_stderr := usage prog; out_calls := [] |})
  ∧ (∀ r, (2 ≤ length argv)%nat → main os mem png locals argv = Some r →
       exit_code r = 0 ∧ out_stderr r = EmptyString)
  ∧ (∀ prog input output rest r,
       argv = prog :: input :: output :: rest →
       main os mem png locals argv = Some r →
       out_stdout r = EmptyString
       ∧ ∃ st, cairo_image_surface_write_to_xpm os mem (png input) output
               = Some (st, out_calls r))
  ∧ (∀ prog input output rest,
       argv = prog :: input :: output :: rest →
       sys_open os output [O_WRONLY; O_CREAT] 420 = -1 →
       main os mem png locals argv
       = Some {| exit_code := 0; out_stdout := EmptyString;
                 out_stderr := EmptyString;
                 out_calls := [SysOpen output [O_WRONLY; O_CREAT] 420] |}).
Proof.
  split_and!.
  - intros prog ->. reflexivity.
  - intros r Hlen. unfold main.
    destruct (Z.ltb_spec (Z.of_nat (length argv)) 2) as [?|_]; [lia|].
    destruct (argv !! 1%nat) as [argv1|]; cbn [mbind option_bind]; [|done].
    destruct (Z.of_nat (length argv) <? 3).
    + destruct (cairo_image_surface_write_to_xpm_mem mem (png argv1) locals)
        as [[e out]|]; cbn [mbind option_bind snd]; [|done].
      destruct (op_data out); cbn [mbind option_bind]; [|done].
      by intros [= <-].
    + destruct (argv !! 2%nat) as [argv2|]; cbn [mbind option_bind]; [|done].
      destruct (cairo_image_surface_write_to_xpm os mem (png argv1) argv2)
        as [[e cs]|]; cbn [mbind option_bind snd]; [|done].
      by intros [= <-].
  - intros prog input output rest r ->. unfold main.
    destruct (Z.ltb_spec (Z.of_nat (length (prog :: input :: output :: rest))) 2)
      as [Hlen|_]; [cbn [length] in Hlen; lia|].
    destruct (Z.ltb_spec (Z.of_nat (length (prog :: input :: output :: rest))) 3)
      as [Hlen|_]; [cbn [length] in Hlen; lia|].
    cbn [lookup list_lookup mbind option_bind].
    destruct (cairo_image_surface_write_to_xpm os mem (png input) output)
      as [[e cs]|]; cbn [mbind option_bind snd]; [|done].
    intros [= <-]. split; [done|]. by exists e.
  - intros prog input output rest -> Hopen. unfold main.
    destruct (Z.ltb_spec (Z.of_nat (length (prog :: input :: output :: rest))) 2)
      as [Hlen|_]; [cbn [length] in Hlen; lia|].
    destruct (Z.ltb_spec (Z.of_nat (length (prog :: input :: output :: rest))) 3)
      as [Hlen|_]; [cbn [length] in Hlen; lia|].
    cbn [lookup list_lookup mbind option_bind].
    rewrite (write_to_xpm_open_fails os mem (png input) output Hopen).
    reflexivity.
Qed.

Lemma fmt_star_s_exact s : fmt_star_s (slen s) s = s.
Proof.
  unfold fmt_star_s, slen.
  destruct (Z.ltb_spec (Z.of_nat (String.length s)) 0) as [?|_]; [lia|].
  replace (Z.to_nat (Z.abs (Z.of_nat (String.length s))) - String.length s)%nat
    with 0%nat by lia.
  reflexivity.
Qed.

(** Called with an input file only, the tool prints exactly the document
    on stdout, without padding, when the encoder succeeds, and makes no
    system call of its own.  When the encoder fails, [data] is a null
    pointer and the [printf] of it has no defined result. *)
Theorem main_prints_document (os : posix) (mem : allocator)
    (png : string → cairo_surface) (locals : out_params) (prog input : string) :
  (∀ out,
     cairo_image_surface_write_to_xpm_mem mem (png input) locals
     = Some (CAIRO_STATUS_SUCCESS, out) →
     ∃ doc, op_data out = Some doc ∧ op_len out = slen doc
       ∧ main os mem png locals [prog; input]
         = Some {| exit_code := 0; out_stdout := doc;
                   out_stderr := EmptyString; out_calls := [] |})
  ∧ (∀ st out,
       cairo_image_surface_write_to_xpm_mem mem (png input) locals = Some (st, out) →
       st ≠ CAIRO_STATUS_SUCCESS →
       main os mem png locals [prog; input] = None).
Proof.
  split.
  - intros out Hmem.
    pose proof Hmem as [[? _]|(_ & sfc & cpp & Hsfc & Hcpp & -> & Hfit)]%write_to_xpm_mem_inv;
      [done|].
    eexists. split; [reflexivity|]. split; [reflexivity|].
    unfold main. cbn [length Z.of_nat Pos.of_succ_nat Pos.succ Z.ltb Z.compare Pos.compare
                        Pos.compare_cont lookup list_lookup mbind option_bind].
    rewrite Hmem. cbn [mbind option_bind snd op_data op_len].
    pose proof (slen_nonneg (document_text sfc (count_colors sfc) cpp)).
    pose proof (wrap32_range (xpm_size (sfc_width sfc) (sfc_height sfc)
                                (ncols (count_colors sfc)) cpp)).
    rewrite wrap32_id by lia. rewrite fmt_star_s_exact. reflexivity.
  - intros st out Hmem Hst.
    pose proof Hmem as [[_ ->]|[? _]]%write_to_xpm_mem_inv; [|done].
    unfold main. cbn [length Z.of_nat Pos.of_succ_nat Pos.succ Z.ltb Z.compare Pos.compare
                        Pos.compare_cont lookup list_lookup mbind option_bind].
    rewrite Hmem. reflexivity.
Qed.

(** ** Errors of the encoder *)

(** The to-memory variant returns one of three statuses.  It returns
    [CAIRO_STATUS_INVALID_FORMAT] exactly when the input is no image
    surface of a supported format and the converted surface is in error,
    and this is decided before anything is allocated.  It returns
    [CAIRO_STATUS_NO_MEMORY] exactly when the color table or the output
    buffer cannot be allocated; the color table is requested first, the
    buffer after the counting loops have read the image, with the size
    estimate of the image. *)
Theorem write_to_xpm_mem_status (mem : allocator) (input : cairo_surface)
    (caller : out_params) :
  let none := {| op_data := None; op_len := 0 |} in
  let request sfc cpp :=
    size_t_of_int (wrap32 (xpm_size (sfc_width sfc) (sfc_height sfc)
                             (ncols (count_colors sfc)) cpp)) in
  (surface_of input = None →
   cairo_image_surface_write_to_xpm_mem mem input caller
   = Some (CAIRO_STATUS_INVALID_FORMAT, none))
  ∧ (∀ sfc, surface_of input = Some sfc → calloc_ok mem = false →
       cairo_image_surface_write_to_xpm_mem mem input caller
       = Some (CAIRO_STATUS_NO_MEMORY, none))
  ∧ (∀ sfc, surface_of input = Some sfc → calloc_ok mem = true →
       readable sfc = true →
       ∃ cpp, num_chars_per_pixel (ncols (count_colors sfc)) = Some cpp
         ∧ (malloc_ok mem (request sfc cpp) = false →
            cairo_image_surface_write_to_xpm_mem mem input caller
            = Some (CAIRO_STATUS_NO_MEMORY, none)))
  ∧ (∀ st out,
       cairo_image_surface_write_to_xpm_mem mem input caller = Some (st, out) →
       (st = CAIRO_STATUS_SUCCESS ∨ st = CAIRO_STATUS_NO_MEMORY
        ∨ st = CAIRO_STATUS_INVALID_FORMAT)
       ∧ (st = CAIRO_STATUS_INVALID_FORMAT ↔ surface_of input = None)
       ∧ (st = CAIRO_STATUS_NO_MEMORY ↔
          ∃ sfc, surface_of input = Some sfc
            ∧ (calloc_ok mem = false
               ∨ ∃ cpp, num_chars_per_pixel (ncols (count_colors sfc)) = Some cpp
                   ∧ malloc_ok mem (request sfc cpp) = false))).
Proof.
  cbv zeta. split_and!.
  - unfold cairo_image_surface_write_to_xpm_mem. intros ->. reflexivity.
  - intros sfc Hsfc Hcalloc.
    rewrite (write_to_xpm_mem_surface mem input sfc caller Hsfc).
    rewrite write_to_xpm_mem_image, Hcalloc. reflexivity.
  - intros sfc Hsfc Hcalloc Hread.
    destruct (num_chars_per_pixel_ncols sfc) as (cpp & Hcpp & _).
    exists cpp. split; [exact Hcpp|]. intros Hmalloc.
    rewrite (write_to_xpm_mem_surface mem input sfc caller Hsfc).
    rewrite write_to_xpm_mem_image, Hcalloc, Hread, Hcpp. cbv zeta.
    rewrite Hmalloc. reflexivity.
  - intros st out.
    destruct (surface_of input) as [sfc|] eqn:Hsfc.
    + rewrite (write_to_xpm_mem_surface mem input sfc caller Hsfc).
      rewrite write_to_xpm_mem_image.
      destruct (calloc_ok mem) eqn:Hcalloc.
      * destruct (readable sfc); [|done].
        destruct (num_chars_per_pixel (ncols (count_colors sfc))) as [cpp|] eqn:Hcpp;
          [|done]. cbv zeta.
        destruct (malloc_ok mem _) eqn:Hmalloc.
        -- destruct (write_document _ _ _ _) as [b|]; [|done].
           intros [= <- <-]. split_and!; [by left|done|].
           split; [done|].
           intros (sfc' & [= <-] & [?|(cpp' & Hc & Hm)]); [done|].
           rewrite Hcpp in Hc. injection Hc as <-. congruence.
        -- intros [= <- <-]. split_and!; [by right; left|done|].
           split; [|done]. intros _. exists sfc. split; [done|]. right.
           exists cpp. by split.
      * intros [= <- <-]. split_and!; [by right; left|done|].
        split; [|done]. intros _. exists sfc. split; [done|]. by left.
    + unfold cairo_image_surface_write_to_xpm_mem. rewrite Hsfc.
      intros [= <- <-]. split_and!; [by right; right|done|].
      split; [done|]. by intros (sfc' & [=] & _).
Qed.

(** ** The symbol encoder *)

Lemma string_get_lookup (s : string) (n : nat) :
  String.get n s = list_ascii_of_string s !! n.
Proof.
  revert n. induction s as [|a s IH]; intros [|n]; cbn [String.get]; done.
Qed.

Lemma char_at_lookup (s : string) (i : Z) :
  0 ≤ i < slen s → list_ascii_of_string s !! Z.to_nat i = Some (char_at s i).
Proof.
  intros Hi. unfold char_at. rewrite string_get_lookup.
  destruct (list_ascii_of_string s !! Z.to_nat i) as [a|] eqn:Ha; [done|].
  apply lookup_ge_None in Ha.
  assert (length (list_ascii_of_string s) = String.length s) as Hlen.
  { clear. induction s; simpl; congruence. }
  unfold slen in Hi. lia.
Qed.

Lemma char_at_elem_of (s : string) (i : Z) :
  0 ≤ i < slen s → char_at s i ∈ list_ascii_of_string s.
Proof. intros Hi. eapply list_elem_of_lookup_2, char_at_lookup, Hi. Qed.

Lemma char_at_inj (s : string) (i j : Z) :
  NoDup (list_ascii_of_string s) → 0 ≤ i < slen s → 0 ≤ j < slen s →
  char_at s i = char_at s j → i = j.
Proof.
  intros Hnd Hi Hj Heq.
  pose proof (char_at_lookup s i Hi) as H1.
  pose proof (char_at_lookup s j Hj) as H2. rewrite <- Heq in H2.
  pose proof (NoDup_lookup _ _ _ _ Hnd H1 H2). lia.
Qed.

Lemma ctbl_NoDup : NoDup (list_ascii_of_string ctbl).
Proof. apply (bool_decide_unpack _). vm_compute. exact I. Qed.

Lemma base64_digit pix (n : nat) :
  Z.land (Z.shiftr pix (Z.of_nat n * 6)) 0x3f = (pix / 64 ^ Z.of_nat n) mod 64.
Proof.
  rewrite Z.shiftr_div_pow2 by lia. change 0x3f with (Z.ones 6).
  rewrite Z.land_ones by lia. rewrite Z.mul_comm, Z.pow_mul_r by lia. done.
Qed.

Lemma base64_split pix (n : nat) :
  pix mod 64 ^ Z.of_nat (S n)
  = pix mod 64 ^ Z.of_nat n + 64 ^ Z.of_nat n * ((pix / 64 ^ Z.of_nat n) mod 64).
Proof.
  replace (Z.of_nat (S n)) with (Z.of_nat n + 1) by lia.
  rewrite Z.pow_add_r, Z.pow_1_r by lia.
  apply Z.rem_mul_r; [|lia]. apply Z.pow_nonzero; lia.
Qed.

Lemma col_encode_base64_loop_eq_iff (n : nat) : ∀ p q,
  col_encode_base64_loop p n = col_encode_base64_loop q n
  ↔ p mod 64 ^ Z.of_nat n = q mod 64 ^ Z.of_nat n.
Proof.
  induction n as [|n IH]; intros p q.
  - cbn [col_encode_base64_loop]. change (64 ^ Z.of_nat 0) with 1.
    by rewrite !Z.mod_1_r.
  - cbn [col_encode_base64_loop]. rewrite !base64_digit, !base64_split.
    assert (0 < 64 ^ Z.of_nat n) as Hpow by (apply Z.pow_pos_nonneg; lia).
    pose proof (Z.mod_pos_bound p (64 ^ Z.of_nat n) Hpow) as Hp.
    pose proof (Z.mod_pos_bound q (64 ^ Z.of_nat n) Hpow) as Hq.
    pose proof (Z.mod_pos_bound (p / 64 ^ Z.of_nat n) 64 ltac:(lia)) as Hdp.
    pose proof (Z.mod_pos_bound (q / 64 ^ Z.of_nat n) 64 ltac:(lia)) as Hdq.
    split.
    + intros [= Hd Ht]. apply IH in Ht.
      apply (char_at_inj ctbl) in Hd; [|apply ctbl_NoDup|done|done].
      rewrite Hd, Ht. reflexivity.
    + intros Heq.
      assert ((p / 64 ^ Z.of_nat n) mod 64 = (q / 64 ^ Z.of_nat n) mod 64) as Hd by nia.
      assert (p mod 64 ^ Z.of_nat n = q mod 64 ^ Z.of_nat n) as Ht by nia.
      rewrite Hd. f_equal. by apply IH.
Qed.

(** Where the encoder is defined, for [0 <= cpp <= 6], and for numbers
    that are not negative, as the callers pass them, two numbers get the
    same symbol of [cpp] characters exactly when they agree modulo
    [64^cpp]: distinct palette indices in [0, 64^cpp) get distinct
    symbols, and a number outside that range is encoded as its residue,
    its higher digits dropped. *)
Theorem col_encode_base64_eq_iff (p q cpp : Z)
    (Hcpp : col_encode_base64_defined cpp = true)
    (Hp : 0 ≤ p ≤ INT_MAX) (Hq : 0 ≤ q ≤ INT_MAX) :
  (col_encode_base64 p cpp = col_encode_base64 q cpp ↔ p mod 64 ^ cpp = q mod 64 ^ cpp)
  ∧ (p < 64 ^ cpp → q < 64 ^ cpp →
     col_encode_base64 p cpp = col_encode_base64 q cpp → p = q)
  ∧ col_encode_base64 p cpp = col_encode_base64 (p mod 64 ^ cpp) cpp.
Proof.
  apply col_encode_base64_defined_spec in Hcpp.
  assert (∀ a b, col_encode_base64 a cpp = col_encode_base64 b cpp
                 ↔ a mod 64 ^ cpp = b mod 64 ^ cpp) as Hiff.
  { intros a b. unfold col_encode_base64.
    rewrite col_encode_base64_loop_eq_iff, Z2Nat.id by lia. done. }
  split_and!.
  - apply Hiff.
  - intros Hp' Hq' Heq%Hiff. by rewrite !Z.mod_small in Heq by lia.
  - apply Hiff. rewrite Z.mod_mod; [done|]. apply Z.pow_nonzero; lia.
Qed.

Lemma col_encode_base64_eq_iff_witness :
  (col_encode_base64_defined 2 = true ∧ 0 ≤ 4097 ≤ INT_MAX ∧ 0 ≤ 1 ≤ INT_MAX)
  ∧ col_encode_base64 4097 2 = col_encode_base64 1 2
  ∧ col_encode_base64 4097 2 = "AB".
Proof.
  assert (0 ≤ 4097 ≤ INT_MAX) as Hp by (unfold INT_MAX; lia).
  assert (0 ≤ 1 ≤ INT_MAX) as Hq by (unfold INT_MAX; lia).
  split; [exact (conj eq_refl (conj Hp Hq))|].
  pose proof (proj2 (proj1 (col_encode_base64_eq_iff 4097 1 2 eq_refl Hp Hq)) eq_refl)
    as Heq.
  split; [exact Heq|]. rewrite Heq. reflexivity.
Defined.

(** ** Characters of the strings of the document *)

Lemma list_ascii_of_string_app s t :
  list_ascii_of_string (s +:+ t) = list_ascii_of_string s ++ list_ascii_of_string t.
Proof.
  induction s as [|a s IH]; [done|].
  rewrite append_cons. cbn [list_ascii_of_string]. by rewrite IH.
Qed.

Lemma Forall_chars_app (P : ascii → Prop) s t :
  Forall P (list_ascii_of_string s) → Forall P (list_ascii_of_string t) →
  Forall P (list_ascii_of_string (s +:+ t)).
Proof. intros Hs Ht. rewrite list_ascii_of_string_app. by apply Forall_app. Qed.

Lemma Forall_chars_cat (P : ascii → Prop) (l : list string) :
  Forall (λ s, Forall P (list_ascii_of_string s)) l →
  Forall P (list_ascii_of_string (cat l)).
Proof.
  induction 1 as [|s l Hs _ IH]; [constructor|].
  rewrite cat_cons. by apply Forall_chars_app.
Qed.

Lemma land_ones_range x (n : Z) : 0 ≤ n → 0 ≤ Z.land x (Z.ones n) < 2 ^ n.
Proof.
  intros Hn. rewrite Z.land_ones by done. apply Z.mod_pos_bound.
  by apply Z.pow_pos_nonneg.
Qed.

Lemma col_encode_base64_chars pix cpp :
  Forall (λ a, a ∈ list_ascii_of_string ctbl)
         (list_ascii_of_string (col_encode_base64 pix cpp)).
Proof.
  unfold col_encode_base64. induction (Z.to_nat cpp) as [|n IH]; [constructor|].
  cbn [col_encode_base64_loop list_ascii_of_string]. constructor; [|exact IH].
  apply char_at_elem_of. change (slen ctbl) with (2 ^ 6).
  apply (land_ones_range _ 6). lia.
Qed.

Lemma col_encode_html_chars c :
  Forall (λ a, a ∈ list_ascii_of_string "0123456789abcdef")
         (list_ascii_of_string (col_encode_html c)).
Proof.
  unfold col_encode_html. rewrite list_ascii_of_string_of_list_ascii.
  apply Forall_fmap, Forall_true. intros k. unfold compose, hex_digit.
  apply char_at_elem_of. change (slen "0123456789abcdef") with (2 ^ 4).
  apply (land_ones_range _ 4). lia.
Qed.

(** The characters that occur between the quotes of the document. *)
Lemma document_alphabet_safe :
  Forall (λ a, a ≠ "034"%char ∧ a ≠ "092"%char ∧ a ≠ "010"%char ∧ a ≠ "000"%char)
         (list_ascii_of_string (ctbl +:+ " #")).
Proof. apply (bool_decide_unpack _). vm_compute. exact I. Qed.

Lemma document_alphabet_literals :
  Forall (λ s, Forall (λ a, a ∈ list_ascii_of_string (ctbl +:+ " #"))
                      (list_ascii_of_string s))
         [ctbl; "0123456789abcdef"; " c #"; " c None"].
Proof. apply (bool_decide_unpack _). vm_compute. exact I. Qed.

(** Every symbol consists of characters of the alphabet
    [A-Z a-z 0-9 + /] only, whatever number is encoded, and every string
    of the color table and of the pixel table consists of these
    characters, the space and [#]: none of them contains a double quote,
    a backslash, a line feed or a NUL, so that each ends where the writer
    puts its closing quote. *)
Theorem document_strings_alphabet (sfc : surface) (c : gmap Z Z) (cpp : Z) :
  (∀ pix, Forall (λ a, a ∈ list_ascii_of_string ctbl)
                 (list_ascii_of_string (col_encode_base64 pix cpp)))
  ∧ (∀ s, s ∈ color_lines c cpp ++ pixel_rows sfc c cpp →
       Forall (λ a, a ∈ list_ascii_of_string (ctbl +:+ " #")
                    ∧ a ≠ "034"%char ∧ a ≠ "092"%char
                    ∧ a ≠ "010"%char ∧ a ≠ "000"%char)
              (list_ascii_of_string s)).
Proof.
  split; [intros pix; apply col_encode_base64_chars|].
  pose proof document_alphabet_literals as Hlit.
  apply Forall_cons in Hlit as [Hctbl Hlit].
  apply Forall_cons in Hlit as [Hhex Hlit].
  apply Forall_cons in Hlit as [Hopaque Hlit].
  apply Forall_cons in Hlit as [Hnone _].
  rewrite Forall_forall in Hctbl, Hhex.
  assert (∀ pix, Forall (λ a, a ∈ list_ascii_of_string (ctbl +:+ " #"))
                        (list_ascii_of_string (col_encode_base64 pix cpp))) as Hsym.
  { intros pix. eapply Forall_impl; [apply col_encode_base64_chars|]. exact Hctbl. }
  assert (∀ s, s ∈ color_lines c cpp ++ pixel_rows sfc c cpp →
            Forall (λ a, a ∈ list_ascii_of_string (ctbl +:+ " #"))
                   (list_ascii_of_string s)) as Hin.
  { intros s [Hs|Hs]%elem_of_app.
    - rewrite color_lines_keys in Hs. apply list_elem_of_fmap in Hs as (i & -> & _).
      rewrite color_entry_marker. apply Forall_chars_app; [apply Hsym|].
      destruct (i <? MAX_COL); [|exact Hnone].
      apply Forall_chars_app; [exact Hopaque|].
      eapply Forall_impl; [apply col_encode_html_chars|]. exact Hhex.
    - unfold pixel_rows in Hs. apply list_elem_of_fmap in Hs as (y & -> & _).
      apply Forall_chars_cat. unfold row_symbols.
      apply Forall_fmap, Forall_true. intros x. apply Hsym. }
  intros s Hs. pose proof document_alphabet_safe as Hsafe.
  rewrite Forall_forall in Hsafe.
  eapply Forall_impl; [exact (Hin s Hs)|].
  intros a Ha. split; [exact Ha|]. by apply Hsafe.
Qed.

(** ** The color encoder *)

Lemma hex_NoDup : NoDup (list_ascii_of_string "0123456789abcdef").
Proof. apply (bool_decide_unpack _). vm_compute. exact I. Qed.

Lemma hex_nibble v k :
  0 ≤ k → Z.land (Z.shiftr v (4 * k)) 0xf = (v / 16 ^ k) mod 16.
Proof.
  intros Hk. rewrite Z.shiftr_div_pow2 by lia. change 0xf with (Z.ones 4).
  rewrite Z.land_ones by lia. rewrite Z.pow_mul_r by lia. done.
Qed.

(** A number below [16^k] is determined by its [k] lowest hexadecimal
    digits. *)
Lemma hex_digits_eq (k : nat) : ∀ v w,
  0 ≤ v < 16 ^ Z.of_nat k → 0 ≤ w < 16 ^ Z.of_nat k →
  (∀ j : nat, (j < k)%nat →
     (v / 16 ^ Z.of_nat j) mod 16 = (w / 16 ^ Z.of_nat j) mod 16) →
  v = w.
Proof.
  induction k as [|k IH]; intros v w Hv Hw Hd.
  - change (16 ^ Z.of_nat 0) with 1 in *. lia.
  - replace (Z.of_nat (S k)) with (Z.of_nat k + 1) in * by lia.
    rewrite Z.pow_add_r, Z.pow_1_r in Hv, Hw by lia.
    assert (v / 16 = w / 16) as Hdiv.
    { apply IH.
      - split; [apply Z.div_pos; lia|]. apply Z.div_lt_upper_bound; lia.
      - split; [apply Z.div_pos; lia|]. apply Z.div_lt_upper_bound; lia.
      - intros j Hj. specialize (Hd (S j) ltac:(lia)).
        replace (Z.of_nat (S j)) with (1 + Z.of_nat j) in Hd by lia.
        rewrite Z.pow_add_r, Z.pow_1_r in Hd by lia.
        rewrite <- !Z.div_div in Hd by (try apply Z.pow_pos_nonneg; lia).
        exact Hd. }
    specialize (Hd 0%nat ltac:(lia)). change (16 ^ Z.of_nat 0) with 1 in Hd.
    rewrite !Z.div_1_r in Hd.
    rewrite (Z.div_mod v 16), (Z.div_mod w 16) by lia. congruence.
Qed.

(** The color text has six characters, all lower-case hexadecimal
    digits.  Two numbers get the same text exactly when their low 24
    bits agree, so that distinct colors of the table get distinct texts;
    the bits above are not looked at. *)
Theorem col_encode_html_eq_iff (c d : Z) :
  (col_encode_html c = col_encode_html d ↔ c mod 2 ^ 24 = d mod 2 ^ 24)
  ∧ (0 ≤ c < 2 ^ 24 → 0 ≤ d < 2 ^ 24 →
     col_encode_html c = col_encode_html d → c = d)
  ∧ String.length (col_encode_html c) = 6%nat
  ∧ Forall (λ a, a ∈ list_ascii_of_string "0123456789abcdef")
           (list_ascii_of_string (col_encode_html c)).
Proof.
  assert (∀ a b, col_encode_html a = col_encode_html b
                 ↔ a mod 2 ^ 24 = b mod 2 ^ 24) as Hiff.
  { intros a b. unfold col_encode_html. change 0xffffff with (Z.ones 24).
    rewrite !Z.land_ones by lia. cbv zeta.
    pose proof (Z.mod_pos_bound a (2 ^ 24) ltac:(lia)) as Ha.
    pose proof (Z.mod_pos_bound b (2 ^ 24) ltac:(lia)) as Hb.
    set (v := a mod 2 ^ 24) in *. set (w := b mod 2 ^ 24) in *.
    split; [|by intros ->].
    intros Heq.
    apply (f_equal list_ascii_of_string) in Heq.
    rewrite !list_ascii_of_string_of_list_ascii in Heq.
    apply (hex_digits_eq 6); [exact Ha|exact Hb|].
    intros j Hj.
    assert (∀ k, k ∈ [5; 4; 3; 2; 1; 0] →
              hex_digit (Z.land (Z.shiftr v (4 * k)) 0xf)
              = hex_digit (Z.land (Z.shiftr w (4 * k)) 0xf)) as Hk.
    { intros k Hin. apply list_elem_of_lookup in Hin as [n Hn].
      apply (f_equal (λ l, l !! n)) in Heq. cbv beta in Heq.
      rewrite !list_lookup_fmap, Hn in Heq. by injection Heq. }
    specialize (Hk (Z.of_nat j)).
    rewrite !hex_nibble in Hk by lia.
    apply (char_at_inj "0123456789abcdef"); [apply hex_NoDup| | |].
    - change (slen "0123456789abcdef") with 16. apply Z.mod_pos_bound. lia.
    - change (slen "0123456789abcdef") with 16. apply Z.mod_pos_bound. lia.
    - apply Hk. rewrite !elem_of_cons. lia. }
  split_and!.
  - apply Hiff.
  - intros Hc Hd Heq%Hiff. by rewrite !Z.mod_small in Heq.
  - apply length_col_encode_html.
  - apply col_encode_html_chars.
Qed.

(** ** The symbol width as a number of digits *)

Lemma pow64 k : 0 ≤ k → 64 ^ k = 2 ^ (6 * k).
Proof. intros Hk. by rewrite Z.pow_mul_r by lia. Qed.

(** The symbol width of a palette of [n] entries is the number of
    base-64 digits of [n] itself: 0 for the empty palette, otherwise the
    [w] with [64^(w-1) <= n < 64^w].  The width grows at 64, 4096,
    262144 and [2^24] entries. *)
Theorem num_chars_per_pixel_digits (n w : Z) (Hn : 0 ≤ n < 2 ^ 31) :
  num_chars_per_pixel n = Some w
  ↔ (n = 0 ∧ w = 0) ∨ (1 ≤ w ∧ 64 ^ (w - 1) ≤ n < 64 ^ w).
Proof.
  destruct (num_chars_per_pixel_bits n Hn)
    as (bits & w0 & Hw0 & Hbits & Hlt & Hge & _ & Hceil).
  assert ((n = 0 ∧ w0 = 0) ∨ (1 ≤ w0 ∧ 64 ^ (w0 - 1) ≤ n < 64 ^ w0)) as Hchar.
  { destruct (decide (bits = 0)) as [->|Hpos].
    - left. change (2 ^ 0) with 1 in Hlt. lia.
    - right. assert (1 ≤ w0) as Hw by lia. split; [exact Hw|].
      rewrite !pow64 by lia. specialize (Hge ltac:(lia)).
      pose proof (Z.pow_le_mono_r 2 (6 * (w0 - 1)) (bits - 1) ltac:(lia) ltac:(lia)).
      pose proof (Z.pow_le_mono_r 2 bits (6 * w0) ltac:(lia) ltac:(lia)).
      lia. }
  rewrite Hw0. split.
  - intros [= <-]. exact Hchar.
  - intros Hw. f_equal.
    assert (∀ v, (n = 0 ∧ v = 0) ∨ (1 ≤ v ∧ 64 ^ (v - 1) ≤ n < 64 ^ v) →
                 (n = 0 ∧ v = 0) ∨ (1 ≤ n ∧ 1 ≤ v ∧ 64 ^ (v - 1) ≤ n < 64 ^ v)) as Hpos.
    { intros v [?|[Hv Hr]]; [by left|right].
      pose proof (Z.pow_pos_nonneg 64 (v - 1) ltac:(lia) ltac:(lia)). lia. }
    apply Hpos in Hchar as [[? ->]|(? & Hw0pos & Hr0)],
      Hw as [[? ->]|(? & Hwpos & Hr)]; try lia.
    destruct (Z.lt_trichotomy w0 w) as [Hlt'|[->|Hgt']]; [|done|].
    + pose proof (Z.pow_le_mono_r 64 w0 (w - 1) ltac:(lia) ltac:(lia)). lia.
    + pose proof (Z.pow_le_mono_r 64 w (w0 - 1) ltac:(lia) ltac:(lia)). lia.
Qed.

Lemma num_chars_per_pixel_digits_witness :
  0 ≤ 4096 < 2 ^ 31 ∧ num_chars_per_pixel 4096 = Some 3.
Proof.
  split; [lia|].
  apply (proj2 (num_chars_per_pixel_digits 4096 3 ltac:(lia))).
  right. split; [lia|]. split; [vm_compute; discriminate|vm_compute; reflexivity].
Defined.

(** For an [unsigned] argument with the top bit set the copy in the
    [int n] is negative and stays negative under [n >>= 1]: the loop of
    the width calculation never finds [n] zero, whatever the number of
    iterations. *)
Theorem num_chars_per_pixel_top_bit (n : Z) (Hn : 2 ^ 31 ≤ n < 2 ^ 32) :
  wrap32 n < 0
  ∧ (∀ (fuel : nat) bpc, bpc_loop fuel (wrap32 n) bpc = None)
  ∧ num_chars_per_pixel n = None.
Proof.
  assert (wrap32 n = n - 2 ^ 32) as Hwrap.
  { unfold wrap32. replace (n + 2 ^ 31) with ((n - 2 ^ 31) + 1 * 2 ^ 32) by lia.
    rewrite Z.mod_add by lia. rewrite Z.mod_small by lia. lia. }
  assert (wrap32 n < 0) as Hneg by lia.
  split; [exact Hneg|]. split.
  - intros fuel bpc. by apply bpc_loop_negative.
  - unfold num_chars_per_pixel. by rewrite bpc_loop_negative.
Qed.

Lemma num_chars_per_pixel_top_bit_witness :
  2 ^ 31 ≤ 4294967295 < 2 ^ 32 ∧ num_chars_per_pixel 4294967295 = None.
Proof.
  split; [lia|].
  exact (proj2 (proj2 (num_chars_per_pixel_top_bit 4294967295 ltac:(lia)))).
Defined.

(** ** The channels of a pixel *)

Lemma pixel_alpha_div col : pixel_alpha col = (col / 2 ^ 24) mod 2 ^ 8.
Proof.
  unfold pixel_alpha. rewrite Z.shiftr_div_pow2 by lia.
  change 0xff with (Z.ones 8). by rewrite Z.land_ones by lia.
Qed.

(** The color of a pixel is the same whether its 32 bits are read as a
    signed [int] or as an unsigned number. *)
Lemma pixel_color_wrap32 col :
  pixel_alpha (wrap32 col) = pixel_alpha col
  ∧ pixel_color (wrap32 col) = pixel_color col.
Proof.
  destruct (wrap32_congr col) as [k Hk].
  assert (pixel_alpha (wrap32 col) = pixel_alpha col) as Ha.
  { rewrite !pixel_alpha_div, Hk.
    replace (col + k * 2 ^ 32) with (col + (k * 2 ^ 8) * 2 ^ 24) by lia.
    rewrite Z.div_add by lia. by rewrite Z.mod_add by lia. }
  split; [exact Ha|]. unfold pixel_color. rewrite Ha.
  destruct (pixel_alpha col <? TRANS_THRESH); [done|].
  change 0x00ffffff with (Z.ones 24). rewrite !Z.land_ones by lia. rewrite Hk.
  replace (col + k * 2 ^ 32) with (col + (k * 2 ^ 8) * 2 ^ 24) by lia.
  by rewrite Z.mod_add by lia.
Qed.

(** For the pixel [0xAARRGGBB] of an ARGB32 surface, read as the [int]
    it is (negative from alpha [0x80] on): the alpha tested is [AA]; the
    pixel counts as transparent when [AA < 0x80] and otherwise has the
    color [0xRRGGBB], whose text in the color table is the two
    hexadecimal digits of red, then of green, then of blue. *)
Theorem pixel_color_channels (a r g b : Z)
    (Ha : 0 ≤ a < 256) (Hr : 0 ≤ r < 256) (Hg : 0 ≤ g < 256) (Hb : 0 ≤ b < 256) :
  let word := a * 2 ^ 24 + r * 2 ^ 16 + g * 2 ^ 8 + b in
  let col := wrap32 word in
  (col < 0 ↔ 128 ≤ a)
  ∧ pixel_alpha col = a
  ∧ pixel_color col = (if a <? 128 then MAX_COL else r * 2 ^ 16 + g * 2 ^ 8 + b)
  ∧ pixel_color col = pixel_color word
  ∧ col_encode_html (r * 2 ^ 16 + g * 2 ^ 8 + b)
    = string_of_list_ascii
        [hex_digit (r / 16); hex_digit (r mod 16); hex_digit (g / 16);
         hex_digit (g mod 16); hex_digit (b / 16); hex_digit (b mod 16)].
Proof.
  cbv zeta.
  set (word := a * 2 ^ 24 + r * 2 ^ 16 + g * 2 ^ 8 + b).
  destruct (pixel_color_wrap32 word) as [Halpha Hcolor].
  assert (pixel_alpha word = a) as Hword.
  { rewrite pixel_alpha_div. unfold word. Z.div_mod_to_equations. lia. }
  split_and!.
  - unfold wrap32, word. Z.div_mod_to_equations. lia.
  - by rewrite Halpha.
  - rewrite Hcolor. unfold pixel_color. rewrite Hword.
    change TRANS_THRESH with 128. destruct (a <? 128); [done|].
    change 0x00ffffff with (Z.ones 24). rewrite Z.land_ones by lia.
    unfold word. Z.div_mod_to_equations. lia.
  - exact Hcolor.
  - unfold col_encode_html. cbv zeta. change 0xffffff with (Z.ones 24).
    rewrite Z.land_ones by lia.
    rewrite (Z.mod_small (r * 2 ^ 16 + g * 2 ^ 8 + b)) by lia.
    cbn [fmap list_fmap]. rewrite !hex_nibble by lia.
    change (16 ^ 5) with 1048576. change (16 ^ 4) with 65536.
    change (16 ^ 3) with 4096. change (16 ^ 2) with 256.
    change (16 ^ 1) with 16. change (16 ^ 0) with 1.
    set (v := r * 2 ^ 16 + g * 2 ^ 8 + b).
    assert ((v / 1048576) mod 16 = r / 16) as -> by (unfold v; Z.div_mod_to_equations; lia).
    assert ((v / 65536) mod 16 = r mod 16) as -> by (unfold v; Z.div_mod_to_equations; lia).
    assert ((v / 4096) mod 16 = g / 16) as -> by (unfold v; Z.div_mod_to_equations; lia).
    assert ((v / 256) mod 16 = g mod 16) as -> by (unfold v; Z.div_mod_to_equations; lia).
    assert ((v / 16) mod 16 = b / 16) as -> by (unfold v; Z.div_mod_to_equations; lia).
    assert ((v / 1) mod 16 = b mod 16) as -> by (unfold v; Z.div_mod_to_equations; lia).
    reflexivity.
Qed.

Lemma pixel_color_channels_witness :
  (0 ≤ 255 < 256 ∧ 0 ≤ 18 < 256 ∧ 0 ≤ 52 < 256 ∧ 0 ≤ 86 < 256)
  ∧ wrap32 0xff123456 < 0
  ∧ pixel_color (wrap32 0xff123456) = 0x123456
  ∧ col_encode_html 0x123456 = "123456".
Proof.
  split; [lia|].
  destruct (pixel_color_channels 255 18 52 86 ltac:(lia) ltac:(lia) ltac:(lia) ltac:(lia))
    as (Hneg & _ & Hcol & _ & Htext).
  split; [apply Hneg; lia|]. split; [exact Hcol|exact Htext].
Defined.

(** ** Reading the document back *)

Lemma col_encode_base64_inj p q cpp :
  0 ≤ p < 64 ^ cpp → 0 ≤ q < 64 ^ cpp →
  col_encode_base64 p cpp = col_encode_base64 q cpp → p = q.
Proof.
  intros Hp Hq. unfold col_encode_base64. rewrite col_encode_base64_loop_eq_iff.
  destruct (Z.le_gt_cases 0 cpp) as [Hcpp|Hcpp].
  - rewrite Z2Nat.id by done. by rewrite !Z.mod_small.
  - rewrite Z.pow_neg_r in Hp by done. lia.
Qed.

(** Colors of the image with the same palette index are the same. *)
Lemma palette_index_inj sfc i k :
  i ∈ pixel_color <$> pixels sfc → k ∈ pixel_color <$> pixels sfc →
  colors_at (colors (count_colors sfc)) i = colors_at (colors (count_colors sfc)) k →
  i = k.
Proof.
  intros Hi Hk Heq. destruct (count_colors_inv sfc) as [order Hinv].
  destruct (palette_inv_lookup _ _ _ i Hinv) as [_ Hli].
  destruct (palette_inv_lookup _ _ _ k Hinv) as [_ Hlk].
  destruct (Hli Hi) as (n & Hn & Hni). destruct (Hlk Hk) as (m & Hm & Hmk).
  assert (n = m) as -> by lia. congruence.
Qed.

(** The symbols of a document identify the colors.  Every line of the
    color table starts with the symbol of its color, the symbols of the
    table are pairwise distinct, and the symbol written for the pixel at
    [(x, y)] is that of the table line of the pixel's color and of no
    other line: looking the symbols of the pixel rows up in the color
    table gives back the color of every pixel. *)
Theorem symbols_identify_colors (sfc : surface) (cpp : Z)
    (Hcpp : num_chars_per_pixel (ncols (count_colors sfc)) = Some cpp) :
  let c := colors (count_colors sfc) in
  let symbol i := col_encode_base64 (colors_at c i - 1) cpp in
  (∀ i, i ∈ color_keys c →
     color_entry c cpp i
     = symbol i +:+ (if i <? MAX_COL then " c #" +:+ col_encode_html i
                     else " c None"))
  ∧ NoDup (symbol <$> color_keys c)
  ∧ ∀ x y, 0 ≤ x < sfc_width sfc → 0 ≤ y < sfc_height sfc →
      let k := pixel_color (cairo_image_surface_get_argb24_pixel sfc x y) in
      k ∈ color_keys c
      ∧ row_symbols sfc c cpp y !! Z.to_nat x = Some (symbol k)
      ∧ ∀ i, i ∈ color_keys c → symbol i = symbol k → i = k.
Proof.
  intros c symbol.
  destruct (num_chars_per_pixel_ncols sfc) as (cpp' & Hcpp' & Hr & _ & _ & Hlt).
  assert (cpp' = cpp) as -> by congruence.
  pose proof (ncols_range sfc) as Hn. unfold MAX_COL in Hn.
  assert (∀ i, i ∈ color_keys c → 0 ≤ colors_at c i - 1 < 64 ^ cpp) as Hrange.
  { intros i Hi%color_keys_image. pose proof (palette_index_range sfc i Hi) as Hidx.
    unfold c. lia. }
  assert (∀ i k, i ∈ color_keys c → k ∈ color_keys c → symbol i = symbol k → i = k)
    as Hinj.
  { intros i k Hi Hk Heq. unfold symbol in Heq.
    apply col_encode_base64_inj in Heq; [|by apply Hrange..].
    apply color_keys_image in Hi, Hk.
    apply (palette_index_inj sfc); [done|done|].
    by apply Z.sub_cancel_r in Heq. }
  split_and!.
  - intros i Hi. rewrite color_entry_marker.
    apply color_keys_image in Hi.
    pose proof (palette_index_range sfc i Hi) as Hidx.
    unfold c. rewrite wrap32_id by lia. done.
  - apply NoDup_fmap_2_strong; [|apply StronglySorted_lt_NoDup, color_keys_sorted].
    intros i k Hi Hk. by apply Hinj.
  - intros x y Hx Hy k.
    assert (k ∈ color_keys c) as Hk.
    { apply color_keys_image, list_elem_of_fmap.
      exists (cairo_image_surface_get_argb24_pixel sfc x y).
      split; [done|]. by apply elem_of_pixels. }
    split; [exact Hk|]. split.
    + unfold row_symbols. rewrite list_lookup_fmap.
      rewrite (lookup_seqZ_lt 0 (sfc_width sfc) (Z.to_nat x)) by lia.
      cbn [fmap option_fmap option_map]. f_equal.
      replace (0 + Z.of_nat (Z.to_nat x)) with x by lia.
      destruct (pixel_index_range sfc cpp x y Hx Hy Hcpp) as (Hpi & _).
      cbv zeta in Hpi. unfold symbol, k, c. by rewrite Hpi.
    + intros i Hi. by apply Hinj.
Qed.

Lemma symbols_identify_colors_witness :
  num_chars_per_pixel (ncols (count_colors sfc_swapped)) = Some 1
  ∧ NoDup ((λ i, col_encode_base64
                   (colors_at (colors (count_colors sfc_swapped)) i - 1) 1)
             <$> color_keys (colors (count_colors sfc_swapped))).
Proof.
  assert (num_chars_per_pixel (ncols (count_colors sfc_swapped)) = Some 1) as Hcpp
    by (vm_compute; reflexivity).
  split; [exact Hcpp|].
  exact (proj1 (proj2 (symbols_identify_colors sfc_swapped 1 Hcpp))).
Defined.

(** ** Length of the document *)

Lemma slen_quoted_line s : slen (quoted_line s) = slen s + 4.
Proof. unfold slen. rewrite length_quoted_line. lia. Qed.

Lemma slen_color_entry c cpp i :
  0 ≤ cpp → slen (color_entry c cpp i) = cpp + (if i <? MAX_COL then 10 else 7).
Proof.
  intros Hcpp. rewrite color_entry_marker, slen_append, slen_col_encode_base64 by done.
  destruct (i <? MAX_COL); [|reflexivity].
  rewrite slen_append. unfold slen at 2. rewrite length_col_encode_html. reflexivity.
Qed.

Lemma slen_color_lines_exact c cpp (l : list Z) :
  0 ≤ cpp → NoDup l → (∀ i, i ∈ l → i ≤ MAX_COL) →
  slen (cat (quoted_line <$> (color_entry c cpp <$> l)))
  = Z.of_nat (length l) * (cpp + 14) - (if decide (MAX_COL ∈ l) then 3 else 0).
Proof.
  intros Hcpp. induction l as [|i l IH]; intros Hnd Hle.
  - rewrite decide_False by apply not_elem_of_nil. reflexivity.
  - apply NoDup_cons in Hnd as [Hi Hnd].
    rewrite !fmap_cons, slen_cat_cons, slen_quoted_line, slen_color_entry by done.
    rewrite IH; [|done|intros k Hk; apply Hle; by right].
    assert (i ≤ MAX_COL) as Hi' by (apply Hle; by left).
    cbn [length]. destruct (Z.ltb_spec i MAX_COL) as [Hlt|Hge].
    + destruct (decide (MAX_COL ∈ l)) as [Hin|Hout].
      * rewrite decide_True by (by right). lia.
      * rewrite decide_False; [lia|]. intros [?|?]%elem_of_cons; [lia|done].
    + assert (i = MAX_COL) as -> by lia.
      rewrite (decide_False (P := MAX_COL ∈ l)) by done.
      rewrite decide_True by (by left). lia.
Qed.

(** The length of the document is that of its header, [cpp + 14] for
    each palette entry (three less for the entry of the transparent
    color), [W * cpp + 4] for each row, and four for the closing marker.
    The size estimate counts the color table and the pixel table like
    this and allows 256 for header and closing marker, so that the buffer
    is between 156 and 209 bytes longer than the document. *)
Theorem document_length (sfc : surface) (cpp : Z)
    (HW : 0 ≤ sfc_width sfc) (HH : 0 ≤ sfc_height sfc)
    (Hcpp : num_chars_per_pixel (ncols (count_colors sfc)) = Some cpp) :
  let p := count_colors sfc in
  let hdr := slen (header (sfc_width sfc) (sfc_height sfc) (ncols p) cpp) in
  let t := if decide (MAX_COL ∈ pixel_color <$> pixels sfc) then 3 else 0 in
  let estimate := xpm_size_exact (sfc_width sfc) (sfc_height sfc) (ncols p) cpp in
  slen (document_text sfc p cpp)
  = hdr + ((cpp + 14) * ncols p - t) + (sfc_width sfc * cpp + 4) * sfc_height sfc + 4
  ∧ 46 ≤ hdr ≤ 96
  ∧ estimate - slen (document_text sfc p cpp) = 252 - hdr + t
  ∧ 156 ≤ estimate - slen (document_text sfc p cpp) ≤ 209.
Proof.
  cbv zeta.
  destruct (num_chars_per_pixel_ncols sfc) as (cpp' & Hcpp' & Hr & _).
  assert (cpp' = cpp) as -> by congruence.
  pose proof (slen_header (sfc_width sfc) (sfc_height sfc)
                (ncols (count_colors sfc)) cpp) as Hhdr.
  assert (slen (cat (quoted_line <$> color_lines (colors (count_colors sfc)) cpp))
          = (cpp + 14) * ncols (count_colors sfc)
            - (if decide (MAX_COL ∈ pixel_color <$> pixels sfc) then 3 else 0)) as Hct.
  { rewrite color_lines_keys.
    rewrite slen_color_lines_exact;
      [|lia|apply StronglySorted_lt_NoDup, color_keys_sorted
       |intros i Hi%elem_of_color_keys; lia].
    rewrite length_color_keys.
    destruct (decide (MAX_COL ∈ color_keys (colors (count_colors sfc)))) as [Hin|Hout].
    - rewrite decide_True by (by apply color_keys_image). lia.
    - rewrite decide_False by (by rewrite <- color_keys_image). lia. }
  assert (slen (document_text sfc (count_colors sfc) cpp)
          = slen (header (sfc_width sfc) (sfc_height sfc)
                    (ncols (count_colors sfc)) cpp)
            + slen (cat (quoted_line <$> color_lines (colors (count_colors sfc)) cpp))
            + (sfc_width sfc * cpp + 4) * sfc_height sfc + 4) as Hlen.
  { unfold document_text. rewrite !slen_append.
    rewrite slen_pixel_rows by lia.
    change (slen LF) with 1. change (slen "};") with 2. lia. }
  rewrite Hlen, Hct. unfold xpm_size_exact.
  generalize dependent (slen (header (sfc_width sfc) (sfc_height sfc)
                                (ncols (count_colors sfc)) cpp)).
  intros hdr Hhdr _.
  case_decide; split_and!; lia.
Qed.

Lemma document_length_witness :
  (0 ≤ sfc_width sfc_blue_clear ∧ 0 ≤ sfc_height sfc_blue_clear
   ∧ num_chars_per_pixel (ncols (count_colors sfc_blue_clear)) = Some 1)
  ∧ 156 ≤ xpm_size_exact (sfc_width sfc_blue_clear) (sfc_height sfc_blue_clear)
            (ncols (count_colors sfc_blue_clear)) 1
          - slen (document_text sfc_blue_clear (count_colors sfc_blue_clear) 1) ≤ 209.
Proof.
  assert (0 ≤ sfc_width sfc_blue_clear) as HW by (simpl; lia).
  assert (0 ≤ sfc_height sfc_blue_clear) as HH by (simpl; lia).
  assert (num_chars_per_pixel (ncols (count_colors sfc_blue_clear)) = Some 1) as Hcpp
    by (vm_compute; reflexivity).
  split; [split_and!; assumption|].
  exact (proj2 (proj2 (proj2 (document_length sfc_blue_clear 1 HW HH Hcpp)))).
Defined.

(** ** Images of a single color *)

Lemma list_to_set_single (k : Z) (l : list Z) :
  l ≠ [] → (∀ i, i ∈ l → i = k) → list_to_set (C:=gset Z) l = {[k]}.
Proof.
  intros Hne Hall. apply set_eq. intros i.
  rewrite elem_of_list_to_set, elem_of_singleton. split; [apply Hall|].
  intros ->. destruct l as [|j l]; [done|].
  rewrite <- (Hall j) by (by left). by left.
Qed.

Lemma fmap_const_elem {A B : Type} (f : A → B) (l : list A) (b : B) :
  (∀ x, x ∈ l → f x = b) → f <$> l = replicate (length l) b.
Proof.
  induction l as [|a l IH]; intros Hf; [done|].
  cbn [fmap list_fmap length replicate]. rewrite (Hf a) by (by left).
  f_equal. apply IH. intros x Hx. apply Hf. by right.
Qed.

(** An image that the counting loops can read and all of whose pixels
    have the same color (the transparent key included) has a palette of
    one entry and symbols of one
    character: the color table is the single line of that color with
    the symbol [A], and every pixel row is the letter [A] repeated [W]
    times.  In particular an image whose pixels all have a top byte
    below [0x80], as the pixels of an RGB24 surface can have it, is
    written as transparent throughout, whatever its RGB values. *)
Theorem single_color_image (mem : allocator) (sfc : surface) (caller : out_params)
    (k : Z)
    (HW : 1 ≤ sfc_width sfc) (HH : 1 ≤ sfc_height sfc)
    (Hread : readable sfc = true)
    (Hcolor : ∀ x y, 0 ≤ x < sfc_width sfc → 0 ≤ y < sfc_height sfc →
                pixel_color (cairo_image_surface_get_argb24_pixel sfc x y) = k)
    (Hfit : (sfc_width sfc + 4) * sfc_height sfc + 271 ≤ INT_MAX)
    (Hcalloc : calloc_ok mem = true)
    (Hmalloc : malloc_ok mem ((sfc_width sfc + 4) * sfc_height sfc + 271) = true) :
  let p := count_colors sfc in
  let line := "A" +:+ (if k <? MAX_COL then " c #" +:+ col_encode_html k
                       else " c None") in
  let row := cat (replicate (Z.to_nat (sfc_width sfc)) "A") in
  let doc := header (sfc_width sfc) (sfc_height sfc) 1 1
             +:+ quoted_line line
             +:+ cat (quoted_line <$> replicate (Z.to_nat (sfc_height sfc)) row)
             +:+ LF +:+ "};" +:+ LF in
  ncols p = 1
  ∧ num_chars_per_pixel (ncols p) = Some 1
  ∧ color_lines (colors p) 1 = [line]
  ∧ pixel_rows sfc (colors p) 1 = replicate (Z.to_nat (sfc_height sfc)) row
  ∧ cairo_image_surface_write_to_xpm_mem mem (ImageSurface sfc) caller
    = Some (CAIRO_STATUS_SUCCESS, {| op_data := Some doc; op_len := slen doc |}).
Proof.
  cbv zeta.
  assert (∀ i, i ∈ pixel_color <$> pixels sfc ↔ i = k) as Hkeys.
  { intros i. rewrite list_elem_of_fmap. split.
    - intros (col & -> & (x & y & Hx & Hy & ->)%elem_of_pixels_inv). by apply Hcolor.
    - intros ->. exists (cairo_image_surface_get_argb24_pixel sfc 0 0).
      split; [symmetry; apply Hcolor; lia|]. apply elem_of_pixels; lia. }
  assert (ncols (count_colors sfc) = 1) as Hn.
  { rewrite ncols_distinct. rewrite (list_to_set_single k).
    - by rewrite size_singleton.
    - intros Hnil. pose proof (proj2 (Hkeys k) eq_refl) as Hin.
      rewrite Hnil in Hin. by apply elem_of_nil in Hin.
    - intros i Hi. by apply Hkeys. }
  assert (num_chars_per_pixel (ncols (count_colors sfc)) = Some 1) as Hcpp
    by (rewrite Hn; reflexivity).
  assert (colors_at (colors (count_colors sfc)) k = 1) as Hidx.
  { pose proof (palette_index_range sfc k (proj2 (Hkeys k) eq_refl)). lia. }
  assert (color_lines (colors (count_colors sfc)) 1
          = ["A" +:+ (if k <? MAX_COL then " c #" +:+ col_encode_html k
                      else " c None")]) as Hlines.
  { rewrite color_lines_keys.
    rewrite (color_keys_of_image sfc [k]);
      [|repeat constructor|intros i; rewrite list_elem_of_singleton; by rewrite Hkeys].
    cbn [fmap list_fmap]. rewrite color_entry_marker, Hidx. reflexivity. }
  assert (pixel_rows sfc (colors (count_colors sfc)) 1
          = replicate (Z.to_nat (sfc_height sfc))
              (cat (replicate (Z.to_nat (sfc_width sfc)) "A"))) as Hrows.
  { unfold pixel_rows.
    rewrite <- (length_seqZ 0 (sfc_height sfc)).
    apply fmap_const_elem.
    intros y Hy%elem_of_seqZ. f_equal. unfold row_symbols.
    rewrite <- (length_seqZ 0 (sfc_width sfc)).
    apply fmap_const_elem. intros x Hx%elem_of_seqZ. unfold pixel_index.
    rewrite Hcolor by lia. rewrite Hidx. reflexivity. }
  split; [exact Hn|]. split; [exact Hcpp|]. split; [exact Hlines|].
  split; [exact Hrows|].
  assert (xpm_size_exact (sfc_width sfc) (sfc_height sfc) (ncols (count_colors sfc)) 1
          = (sfc_width sfc + 4) * sfc_height sfc + 271) as Hsize
    by (rewrite Hn; unfold xpm_size_exact; lia).
  rewrite (write_to_xpm_mem_success_input mem (ImageSurface sfc) caller sfc 1);
    [|reflexivity|exact Hread|lia|lia|exact Hcpp|rewrite Hn; lia|by rewrite Hsize
     |exact Hcalloc|by rewrite Hsize].
  unfold document_text. rewrite Hlines, Hrows, Hn.
    cbn [fmap list_fmap cat foldr]. rewrite append_nil_r. reflexivity.
Qed.

Lemma single_color_image_witness :
  (1 ≤ sfc_width sfc_rgb24 ∧ 1 ≤ sfc_height sfc_rgb24
   ∧ readable sfc_rgb24 = true
   ∧ (∀ x y, 0 ≤ x < sfc_width sfc_rgb24 → 0 ≤ y < sfc_height sfc_rgb24 →
        pixel_color (cairo_image_surface_get_argb24_pixel sfc_rgb24 x y) = MAX_COL)
   ∧ (sfc_width sfc_rgb24 + 4) * sfc_height sfc_rgb24 + 271 ≤ INT_MAX
   ∧ calloc_ok always_ok = true
   ∧ malloc_ok always_ok ((sfc_width sfc_rgb24 + 4) * sfc_height sfc_rgb24 + 271) = true)
  ∧ color_lines (colors (count_colors sfc_rgb24)) 1 = ["A c None"]
  ∧ pixel_rows sfc_rgb24 (colors (count_colors sfc_rgb24)) 1 = ["AA"; "AA"].
Proof.
  assert (1 ≤ sfc_width sfc_rgb24) as HW by (simpl; lia).
  assert (1 ≤ sfc_height sfc_rgb24) as HH by (simpl; lia).
  assert (∀ x y, 0 ≤ x < sfc_width sfc_rgb24 → 0 ≤ y < sfc_height sfc_rgb24 →
            pixel_color (cairo_image_surface_get_argb24_pixel sfc_rgb24 x y) = MAX_COL)
    as Hcolor.
  { cbn [sfc_rgb24 sfc_width sfc_height]. intros x y Hx Hy.
    assert (x = 0 ∨ x = 1) as [-> | ->] by lia;
      (assert (y = 0 ∨ y = 1) as [-> | ->] by lia); reflexivity. }
  assert ((sfc_width sfc_rgb24 + 4) * sfc_height sfc_rgb24 + 271 ≤ INT_MAX) as Hfit
    by (vm_compute; discriminate).
  split; [split_and!; (assumption || reflexivity)|].
  destruct (single_color_image always_ok sfc_rgb24 stale MAX_COL HW HH eq_refl Hcolor
              Hfit eq_refl eq_refl) as (_ & _ & Hlines & Hrows & _).
  split; [exact Hlines|exact Hrows].
Defined.

(** ** What the document depends on *)

Lemma list_bind_ext_elem {A B : Type} (f g : A → list B) (l : list A) :
  (∀ x, x ∈ l → f x = g x) → l ≫= f = l ≫= g.
Proof.
  induction l as [|a l IH]; intros Hfg; [done|].
  cbn [mbind list_bind]. rewrite (Hfg a) by (by left). f_equal.
  apply IH. intros x Hx. apply Hfg. by right.
Qed.

Lemma list_fmap_ext_elem {A B : Type} (f g : A → B) (l : list A) :
  (∀ x, x ∈ l → f x = g x) → f <$> l = g <$> l.
Proof.
  induction l as [|a l IH]; intros Hfg; [done|].
  cbn [fmap list_fmap]. rewrite (Hfg a) by (by left). f_equal.
  apply IH. intros x Hx. apply Hfg. by right.
Qed.

Lemma list_fmap_of_bind {A B C : Type} (f : B → C) (g : A → list B) (l : list A) :
  f <$> (l ≫= g) = l ≫= (λ x, f <$> g x).
Proof.
  induction l as [|a l IH]; [done|].
  cbn [mbind list_bind]. rewrite fmap_app. f_equal. exact IH.
Qed.

Section same_colors.
Variables sfc1 sfc2 : surface.
Hypothesis HW : sfc_width sfc1 = sfc_width sfc2.
Hypothesis HH : sfc_height sfc1 = sfc_height sfc2.
Hypothesis Hpix : ∀ x y,
  0 ≤ x < sfc_width sfc1 → 0 ≤ y < sfc_height sfc1 →
  pixel_color (cairo_image_surface_get_argb24_pixel sfc1 x y)
  = pixel_color (cairo_image_surface_get_argb24_pixel sfc2 x y).

Lemma pixel_keys_ext : pixel_color <$> pixels sfc1 = pixel_color <$> pixels sfc2.
Proof using HW HH Hpix.
  unfold pixels. rewrite !list_fmap_of_bind, <- HW, <- HH.
  apply list_bind_ext_elem. intros y Hy%elem_of_seqZ.
  rewrite !list_fmap_of_bind. apply list_bind_ext_elem. intros x Hx%elem_of_seqZ.
  cbn [fmap list_fmap]. f_equal. apply Hpix; lia.
Qed.

Lemma count_colors_ext : count_colors sfc1 = count_colors sfc2.
Proof using HW HH Hpix. by rewrite !count_colors_keys, pixel_keys_ext. Qed.

Lemma row_pieces_ext c cpp y :
  0 ≤ y < sfc_height sfc1 → row_pieces sfc1 c cpp y = row_pieces sfc2 c cpp y.
Proof using HW Hpix.
  intros Hy. unfold row_pieces, row_symbols. rewrite <- HW. do 2 f_equal.
  apply list_fmap_ext_elem. intros x Hx%elem_of_seqZ. unfold pixel_index.
  rewrite Hpix by lia. reflexivity.
Qed.

Lemma write_pixel_table_ext c cpp b :
  0 ≤ cpp ≤ 6 → write_pixel_table sfc1 c cpp b = write_pixel_table sfc2 c cpp b.
Proof using HW HH Hpix.
  intros Hcpp. rewrite !write_pixel_table_put_all by done. rewrite <- HH. f_equal.
  apply list_bind_ext_elem. intros y Hy%elem_of_seqZ. apply row_pieces_ext. lia.
Qed.

Lemma write_document_ext p cpp xpmsize :
  0 ≤ cpp ≤ 6 →
  write_document sfc1 p cpp xpmsize = write_document sfc2 p cpp xpmsize.
Proof using HW HH Hpix.
  intros Hcpp. unfold write_document. rewrite <- HW, <- HH.
  apply option_bind_ext; [intros b1|reflexivity].
  apply option_bind_ext; [intros b2|reflexivity].
  rewrite write_pixel_table_ext by exact Hcpp. reflexivity.
Qed.
End same_colors.

(** The result of the encoder depends on the image only through its
    width, its height, whether its pixels can be read (which the stride
    and the length of the buffer decide) and the color of each pixel as
    the transparency threshold leaves it: two images that differ only in
    the alpha of opaque pixels (from [0x80] on) or in the RGB values of
    transparent pixels give the same status and the same document.  What
    the caller had in [*data] and [*len] does not matter either. *)
Theorem thresholded_colors_determine_document (mem : allocator)
    (sfc1 sfc2 : surface) (caller1 caller2 : out_params)
    (HW : sfc_width sfc1 = sfc_width sfc2)
    (HH : sfc_height sfc1 = sfc_height sfc2)
    (Hread : readable sfc1 = readable sfc2)
    (Hpix : ∀ x y, 0 ≤ x < sfc_width sfc1 → 0 ≤ y < sfc_height sfc1 →
              pixel_color (cairo_image_surface_get_argb24_pixel sfc1 x y)
              = pixel_color (cairo_image_surface_get_argb24_pixel sfc2 x y)) :
  cairo_image_surface_write_to_xpm_mem mem (ImageSurface sfc1) caller1
  = cairo_image_surface_write_to_xpm_mem mem (ImageSurface sfc2) caller2.
Proof.
  rewrite !write_to_xpm_mem_image.
  rewrite <- (count_colors_ext sfc1 sfc2 HW HH Hpix), <- HW, <- HH, <- Hread.
  destruct (calloc_ok mem); [|reflexivity].
  destruct (readable sfc1); [|reflexivity].
  destruct (num_chars_per_pixel_ncols sfc1) as (cpp & Hcpp & Hr & _).
  rewrite Hcpp. cbv zeta.
  destruct (malloc_ok mem _); [|reflexivity].
  rewrite (write_document_ext sfc1 sfc2 HW HH Hpix) by lia. reflexivity.
Qed.

Lemma thresholded_colors_determine_document_witness :
  (sfc_width sfc_red = sfc_width sfc_red_half
   ∧ sfc_height sfc_red = sfc_height sfc_red_half
   ∧ readable sfc_red = readable sfc_red_half
   ∧ ∀ x y, 0 ≤ x < sfc_width sfc_red → 0 ≤ y < sfc_height sfc_red →
       pixel_color (cairo_image_surface_get_argb24_pixel sfc_red x y)
       = pixel_color (cairo_image_surface_get_argb24_pixel sfc_red_half x y))
  ∧ cairo_image_surface_write_to_xpm_mem always_ok (ImageSurface sfc_red) stale
    = cairo_image_surface_write_to_xpm_mem always_ok (ImageSurface sfc_red_half)
        {| op_data := None; op_len := 0 |}.
Proof.
  assert (∀ x y, 0 ≤ x < sfc_width sfc_red → 0 ≤ y < sfc_height sfc_red →
            pixel_color (cairo_image_surface_get_argb24_pixel sfc_red x y)
            = pixel_color (cairo_image_surface_get_argb24_pixel sfc_red_half x y))
    as Hpix by (intros x y _ _; reflexivity).
  split; [split_and!; [reflexivity|reflexivity|reflexivity|exact Hpix]|].
  exact (thresholded_colors_determine_document always_ok sfc_red sfc_red_half stale
           {| op_data := None; op_len := 0 |} eq_refl eq_refl eq_refl Hpix).
Defined.

(** ** Palettes of [2^24] entries and more *)

(** An image of [2^24] colors or more (all opaque colors, or all but
    one and a transparent pixel) has symbols of five characters.  The
    color-table loop then encodes each symbol, five characters and a
    NUL, into the five bytes of [cb]: once both allocations have
    succeeded the call has no defined result. *)
Theorem color_table_overruns_cb (mem : allocator) (input : cairo_surface)
    (caller : out_params) (sfc : surface)
    (Hsfc : surface_of input = Some sfc)
    (Hn : 2 ^ 24 ≤ ncols (count_colors sfc))
    (Hcalloc : calloc_ok mem = true)
    (Hmalloc : malloc_ok mem
                 (size_t_of_int
                    (wrap32 (xpm_size (sfc_width sfc) (sfc_height sfc)
                               (ncols (count_colors sfc)) 5))) = true) :
  num_chars_per_pixel (ncols (count_colors sfc)) = Some 5
  ∧ cairo_image_surface_write_to_xpm_mem mem input caller = None.
Proof.
  pose proof (ncols_range sfc) as Hrange. unfold MAX_COL in Hrange.
  assert (num_chars_per_pixel (ncols (count_colors sfc)) = Some 5) as Hcpp.
  { destruct (num_chars_per_pixel_bits (ncols (count_colors sfc)) ltac:(lia))
      as (bits & w & -> & Hbits & Hlt & Hge & -> & _).
    assert (24 < bits) as Hlo.
    { apply (Z.pow_lt_mono_r_iff 2); lia. }
    assert (bits - 1 < 25) as Hhi.
    { apply (Z.pow_lt_mono_r_iff 2); [lia|lia|]. specialize (Hge ltac:(lia)).
      change (2 ^ 25) with 33554432. lia. }
    assert (bits = 25) as -> by lia. reflexivity. }
  split; [exact Hcpp|].
  rewrite (write_to_xpm_mem_surface mem input sfc caller Hsfc).
  rewrite write_to_xpm_mem_image, Hcalloc.
  destruct (readable sfc); [|reflexivity].
  rewrite Hcpp. cbv zeta. rewrite Hmalloc.
  rewrite write_document_big; [reflexivity|lia|].
  intros Hnil. pose proof (length_color_keys sfc) as Hlen.
  rewrite Hnil in Hlen. cbn [length] in Hlen. lia.
Qed.

Lemma sfc_full_color x y :
  0 ≤ x < 4096 → 0 ≤ y < 4096 →
  pixel_color (cairo_image_surface_get_argb24_pixel sfc_full x y) = y * 4096 + x.
Proof.
  intros Hx Hy. unfold cairo_image_surface_get_argb24_pixel.
  cbn [sfc_data sfc_stride sfc_full].
  replace ((y * 16384 + x * 4) / 4) with (y * 4096 + x)
    by (apply Z.div_unique with (r := 0); lia).
  set (v := y * 4096 + x).
  assert (0 ≤ v < 2 ^ 24) as Hv by (unfold v; lia).
  assert (pixel_alpha (0xff000000 + v) = 255) as Halpha.
  { rewrite pixel_alpha_div.
    replace ((4278190080 + v) / 2 ^ 24) with 255; [done|].
    apply Z.div_unique with (r := v); lia. }
  rewrite pixel_color_opaque by (rewrite Halpha; unfold TRANS_THRESH; lia).
  change 0xffffff with (Z.ones 24). rewrite Z.land_ones by lia.
  symmetry. apply Z.mod_unique with (q := 255); lia.
Qed.

Lemma sfc_full_ncols : ncols (count_colors sfc_full) = 2 ^ 24.
Proof.
  rewrite ncols_distinct.
  assert (list_to_set (C:=gset Z) (pixel_color <$> pixels sfc_full)
          = list_to_set (seqZ 0 (2 ^ 24))) as ->.
  { apply set_eq. intros k. rewrite !elem_of_list_to_set, elem_of_seqZ, list_elem_of_fmap.
    split.
    - intros (col & -> & (x & y & Hx & Hy & ->)%elem_of_pixels_inv).
      cbn [sfc_width sfc_height sfc_full] in Hx, Hy.
      rewrite sfc_full_color by lia. lia.
    - intros Hk. exists (cairo_image_surface_get_argb24_pixel sfc_full
                           (k mod 4096) (k / 4096)).
      pose proof (Z.mod_pos_bound k 4096 ltac:(lia)).
      pose proof (Z.div_mod k 4096 ltac:(lia)).
      assert (0 ≤ k / 4096 < 4096).
      { split; [apply Z.div_pos; lia|apply Z.div_lt_upper_bound; lia]. }
      split.
      + rewrite sfc_full_color by lia. lia.
      + apply elem_of_pixels; cbn [sfc_width sfc_height sfc_full]; lia. }
  rewrite size_list_to_set by apply NoDup_seqZ. rewrite length_seqZ. lia.
Qed.

Lemma color_table_overruns_cb_witness :
  (surface_of (ImageSurface sfc_full) = Some sfc_full
   ∧ 2 ^ 24 ≤ ncols (count_colors sfc_full)
   ∧ calloc_ok always_ok = true
   ∧ malloc_ok always_ok
       (size_t_of_int
          (wrap32 (xpm_size (sfc_width sfc_full) (sfc_height sfc_full)
                     (ncols (count_colors sfc_full)) 5))) = true)
  ∧ cairo_image_surface_write_to_xpm_mem always_ok (ImageSurface sfc_full) stale = None.
Proof.
  assert (2 ^ 24 ≤ ncols (count_colors sfc_full)) as Hn
    by (rewrite sfc_full_ncols; lia).
  split; [split_and!; (assumption || reflexivity)|].
  exact (proj2 (color_table_overruns_cb always_ok (ImageSurface sfc_full) stale sfc_full
                  eq_refl Hn eq_refl eq_refl)).
Defined.

(** ** Bounds of the table [colors] *)

(** The table [colors] has [MAX_COL + 1] entries, and every index used
    with it lies within them: the color of a pixel does, whatever the
    32 bits of the pixel are and whether they are read as a negative
    [int] or not, and the color-table loop runs over exactly these
    indices.  An entry that is set belongs to a color of the image and
    holds a palette index between 1 and the palette size, which itself
    never exceeds the number of entries. *)
Theorem colors_table_in_bounds (sfc : surface) :
  let p := count_colors sfc in
  (∀ col, 0 ≤ pixel_color col < MAX_COL + 1
          ∧ 0 ≤ pixel_color (wrap32 col) < MAX_COL + 1)
  ∧ (∀ k v, colors p !! k = Some v →
       0 ≤ k < MAX_COL + 1 ∧ 1 ≤ v ≤ ncols p ∧ k ∈ pixel_color <$> pixels sfc)
  ∧ (∀ k, k ∈ color_keys (colors p) → 0 ≤ k < MAX_COL + 1)
  ∧ 0 ≤ ncols p ≤ MAX_COL + 1.
Proof.
  cbv zeta. split; [|split; [|split]].
  - intros col. pose proof (pixel_color_range col).
    pose proof (pixel_color_range (wrap32 col)). lia.
  - intros k v Hk. destruct (count_colors_inv sfc) as [order Hinv].
    pose proof Hinv as (_ & Hel & Hn & Hmap & _).
    destruct (proj1 (Hmap k v) Hk) as (i & Hi & ->).
    assert (k ∈ pixel_color <$> pixels sfc) as Hin
      by (apply Hel; by eapply list_elem_of_lookup_2).
    pose proof (lookup_lt_Some _ _ _ Hi) as Hlt.
    pose proof Hin as (col & -> & _)%list_elem_of_fmap.
    pose proof (pixel_color_range col). split_and!; [lia|lia|lia|lia|exact Hin].
  - intros k Hk%elem_of_color_keys. lia.
  - apply ncols_range.
Qed.
